(** * Block-linear texture layout and the Maxwell DMA front-end of skyline

    A shallow embedding of [skyline/gpu/texture/layout.cpp] (both revisions
    found in the repository) and of [soc/gm20b/engines/maxwell_dma.cpp].

    Conventions of the embedding:
    - [size_t] and [u64] values are integers reduced modulo [2^64], [u32]
      values modulo [2^32]; the reduction is written at the end of every
      expression made of additions, multiplications and left shifts, and on
      the operands of every division, mask or comparison;
    - a byte buffer is a function from byte addresses to bytes, a pointer is
      an address in its buffer, pointer arithmetic is not reduced;
    - a counted [for] loop is [for_loop], iterating its body over the counter. *)

From Stdlib Require Import ZArith List Bool Lia.
From Stdlib Require Import Strings.Byte.
Import ListNotations.
Local Open Scope Z_scope.

(** ** Machine integers and the helpers of [common/utils.h] *)

Module util.

Definition u32 (x : Z) : Z := x mod 2 ^ 32.
Definition size_t (x : Z) : Z := x mod 2 ^ 64.

  (** Modelled from the spec: [util::DivideCeil] of common/utils.h, which is
      not among the sources; the spec writes it [ceil(a / b)]. *)
Definition DivideCeil (dividend divisor : Z) : Z :=
    (dividend + divisor - 1) / divisor.

  (** Modelled from the spec: [util::AlignUp] of common/utils.h, written
      [align_up(value, multiple)] in the spec: the least multiple of
      [multiple] that is not below [value]. *)
Definition AlignUp (value multiple : Z) : Z :=
    DivideCeil value multiple * multiple.

  (** Modelled from the spec: [util::AlignDown] of common/utils.h, written
      [align_down(value, multiple)] in the spec. *)
Definition AlignDown (value multiple : Z) : Z :=
    value / multiple * multiple.

  (** Modelled from the spec: [util::IsAligned] of common/utils.h, "is a
      multiple of" in the spec. *)
Definition IsAligned (value multiple : Z) : bool :=
    value mod multiple =? 0.

  (** [std::bit_ceil]: the least power of two that is not below its argument
      (1 for 0 and 1). *)
Definition bit_ceil (x : Z) : Z := 2 ^ Z.log2_up x.

  (** A power of two, as a proposition that computes. *)
Definition is_pow2 (n : Z) : Prop := 2 ^ Z.log2 n = n.

  (** [for (size_t i = start; ...; ++i) body], run for [n] rounds. *)
Fixpoint for_loop {S : Type} (n : nat) (i : Z) (body : Z -> S -> S) (s : S) : S :=
    match n with
    | O => s
    | S n' => for_loop n' (i + 1) body (body i s)
    end.

End util.

(** ** gpu/texture/layout.cpp *)

Module layout.
Import util.

Record Dimensions : Set := mkDimensions { width : Z; height : Z; depth : Z }.

Definition SectorWidth : Z := 16.
Definition SectorHeight : Z := 2.
Definition GobWidth : Z := 64.
Definition GobHeight : Z := 8.
Definition SectorLinesInGob : Z := (GobWidth / SectorWidth) * GobHeight.

  (** [GetBlockLinearLayerSize], the six-argument overload (one level). *)
Definition GetBlockLinearLayerSize (dimensions : Dimensions)
      (formatBlockWidth formatBlockHeight formatBpb gobBlockHeight gobBlockDepth : Z) : Z :=
    let robLineWidth := size_t (DivideCeil (width dimensions) formatBlockWidth) in
    let robLineBytes := size_t (AlignUp (size_t (robLineWidth * formatBpb)) GobWidth) in
    let robHeight := size_t (GobHeight * gobBlockHeight) in
    let surfaceHeightLines := size_t (DivideCeil (height dimensions) formatBlockHeight) in
    let surfaceHeightRobs := size_t (DivideCeil surfaceHeightLines robHeight) in
    let robDepth := size_t (AlignUp (depth dimensions) gobBlockDepth) in
    size_t (robLineBytes * robHeight * surfaceHeightRobs * robDepth).

Definition CalculateBlockGobs (blockGobs surfaceGobs : Z) : Z :=
    if surfaceGobs >? blockGobs then blockGobs else bit_ceil surfaceGobs.

  (** The state of the level loop of the eight-argument
      [GetBlockLinearLayerSize]. *)
Record LevelState : Set := mkLevelState {
    ls_gobsWidth : Z; ls_gobsHeight : Z; ls_gobsDepth : Z;
    ls_gobBlockHeight : Z; ls_gobBlockDepth : Z; ls_totalSize : Z }.

Definition layer_size_body (_ : Z) (s : LevelState) : LevelState :=
    let totalSize := size_t (ls_totalSize s
        + (GobWidth * ls_gobsWidth s)
          * (GobHeight * size_t (AlignUp (ls_gobsHeight s) (ls_gobBlockHeight s)))
          * size_t (AlignUp (ls_gobsDepth s) (ls_gobBlockDepth s))) in
    let gobsWidth := Z.max (ls_gobsWidth s / 2) 1 in
    let gobsHeight := Z.max (ls_gobsHeight s / 2) 1 in
    let gobsDepth := Z.max (ls_gobsDepth s / 2) 1 in
    mkLevelState gobsWidth gobsHeight gobsDepth
      (CalculateBlockGobs (ls_gobBlockHeight s) gobsHeight)
      (CalculateBlockGobs (ls_gobBlockDepth s) gobsDepth)
      totalSize.

  (** [GetBlockLinearLayerSize], the eight-argument overload (all levels).
      The source takes [formatBlockHeight] before [formatBlockWidth]. *)
Definition GetBlockLinearLayerSizeLevels (dimensions : Dimensions)
      (formatBlockHeight formatBlockWidth formatBpb gobBlockHeight gobBlockDepth
       levelCount : Z) (isMultiLayer : bool) : Z :=
    let gobsWidth := size_t (DivideCeil
        (size_t (size_t (DivideCeil (width dimensions) formatBlockWidth) * formatBpb)) GobWidth) in
    let gobsHeight := size_t (DivideCeil
        (size_t (DivideCeil (height dimensions) formatBlockHeight)) GobHeight) in
    let gobsDepth := depth dimensions in
    let layerAlignment := size_t (GobWidth * GobHeight * gobBlockHeight * gobBlockDepth) in
    let s := for_loop (Z.to_nat levelCount) 0 layer_size_body
               (mkLevelState gobsWidth gobsHeight gobsDepth gobBlockHeight gobBlockDepth 0) in
    if isMultiLayer then size_t (AlignUp (ls_totalSize s) layerAlignment)
    else ls_totalSize s.

Record MipLevelLayout : Set := mkMipLevelLayout {
    dimensions : Dimensions;
    linearSize : Z;
    targetLinearSize : Z;
    blockLinearSize : Z;
    blockHeight : Z;
    blockDepth : Z }.

  (** The state of the level loop of [GetBlockLinearMipLayout]: the vector
      built so far (in order) and the loop's variables. *)
Record MipState : Set := mkMipState {
    ms_mipLevels : list MipLevelLayout;
    ms_dimensions : Dimensions;
    ms_gobsWidth : Z; ms_gobsHeight : Z;
    ms_gobBlockHeight : Z; ms_gobBlockDepth : Z }.

Definition mip_layout_body
      (formatBlockHeight formatBlockWidth formatBpb
       targetFormatBlockHeight targetFormatBlockWidth targetFormatBpb : Z)
      (_ : Z) (s : MipState) : MipState :=
    let d := ms_dimensions s in
    let linearSize := size_t (size_t (DivideCeil (width d) formatBlockWidth) * formatBpb
                              * size_t (DivideCeil (height d) formatBlockHeight) * depth d) in
    let targetLinearSize :=
      if targetFormatBpb =? 0 then linearSize
      else size_t (size_t (DivideCeil (width d) targetFormatBlockWidth) * targetFormatBpb
                   * size_t (DivideCeil (height d) targetFormatBlockHeight) * depth d) in
    let level := mkMipLevelLayout d linearSize targetLinearSize
        (size_t ((GobWidth * ms_gobsWidth s)
                 * (GobHeight * size_t (AlignUp (ms_gobsHeight s) (ms_gobBlockHeight s)))
                 * size_t (AlignUp (depth d) (ms_gobBlockDepth s))))
        (ms_gobBlockHeight s) (ms_gobBlockDepth s) in
    let gobsWidth := Z.max (ms_gobsWidth s / 2) 1 in
    let gobsHeight := Z.max (ms_gobsHeight s / 2) 1 in
    let d' := mkDimensions (Z.max (width d / 2) 1) (Z.max (height d / 2) 1)
                           (Z.max (depth d / 2) 1) in
    mkMipState (ms_mipLevels s ++ [level]) d' gobsWidth gobsHeight
      (CalculateBlockGobs (ms_gobBlockHeight s) gobsHeight)
      (CalculateBlockGobs (ms_gobBlockDepth s) (depth d')).

Definition GetBlockLinearMipLayout (dimensions : Dimensions)
      (formatBlockHeight formatBlockWidth formatBpb
       targetFormatBlockHeight targetFormatBlockWidth targetFormatBpb
       gobBlockHeight gobBlockDepth levelCount : Z) : list MipLevelLayout :=
    let gobsWidth := size_t (DivideCeil
        (size_t (size_t (DivideCeil (width dimensions) formatBlockWidth) * formatBpb)) GobWidth) in
    let gobsHeight := size_t (DivideCeil
        (size_t (DivideCeil (height dimensions) formatBlockHeight)) GobHeight) in
    ms_mipLevels
      (for_loop (Z.to_nat levelCount) 0
         (mip_layout_body formatBlockHeight formatBlockWidth formatBpb
            targetFormatBlockHeight targetFormatBlockWidth targetFormatBpb)
         (mkMipState [] dimensions gobsWidth gobsHeight gobBlockHeight gobBlockDepth)).

  (** The sum of a list of sizes. *)
Definition sum_sizes (l : list Z) : Z := fold_right Z.add 0 l.

  (** *** The swizzle copier *)

Definition byte : Set := Byte.byte.

  (** A buffer: the byte stored at every address. *)
Definition mem : Set := Z -> byte.

  (** The two buffers of a copy; they do not alias. *)
Record Buffers : Set := mkBuffers { blockLinearMem : mem; pitchMem : mem }.

  (** [*reinterpret_cast<T *>(to) = *reinterpret_cast<T *>(from)] with
      [sizeof(T) = n], between two buffers: [dst] with the [n] bytes at [to]
      replaced by the [n] bytes of [src] at [from]. *)
Definition copy_bytes (src : mem) (from : Z) (dst : mem) (to : Z) (n : Z) : mem :=
    fun a => if (to <=? a) && (a <? to + n) then src (from + (a - to)) else dst a.

  (** [n] bytes between the two buffers in the direction of the copy: what
      an assignment of an object of [n] bytes and a [std::memcpy] of [n]
      bytes do. *)
Definition copy_range (BlockLinearToPitch : bool) (n : Z)
      (swizzledOffset deSwizzledOffset : Z) (m : Buffers) : Buffers :=
    if BlockLinearToPitch
    then mkBuffers (blockLinearMem m)
           (copy_bytes (blockLinearMem m) swizzledOffset (pitchMem m) deSwizzledOffset n)
    else mkBuffers
           (copy_bytes (pitchMem m) deSwizzledOffset (blockLinearMem m) swizzledOffset n)
           (pitchMem m).

  (** [sizeof(FORMATBPB)] for the type the [switch] picks at [case
      formatBpb]: [u8], [u16], [u32], [u64] and [u128] have 1, 2, 4, 8 and
      16 bytes. [u96] is [struct { u64 high; u32 low; }] under
      [#pragma pack(push, 0)], which leaves the default packing: the struct
      is aligned like its [u64] and has 16 bytes, the last four of them
      padding. *)
Definition sizeof_element (FORMATBPB : Z) : Z :=
    if FORMATBPB =? 12 then 16 else FORMATBPB.

  (** The [if constexpr (BlockLinearToPitch)] assignment
      [*reinterpret_cast<FORMATBPB *>(to) = *reinterpret_cast<FORMATBPB *>(from)]
      of one element: it stores [sizeof(FORMATBPB)] bytes, so 16 for the
      12-byte element, while the loops advance by [formatBpb]. *)
Definition copy_element (BlockLinearToPitch : bool) (FORMATBPB : Z)
      (swizzledOffset deSwizzledOffset : Z) (m : Buffers) : Buffers :=
    copy_range BlockLinearToPitch (sizeof_element FORMATBPB)
      swizzledOffset deSwizzledOffset m.

  (** The [while (formatBpb != 16)] loop of [CopyBlockLinearInternal] in
      layout.cpp, which tests [textureWidthBytes]; it returns the final
      [(textureWidth, formatBpb)], or [None] when [fuel] rounds do not reach
      the exit. *)
Fixpoint coalesce (fuel : nat) (textureWidthBytes textureWidth formatBpb : Z)
      : option (Z * Z) :=
    match fuel with
    | O => None
    | S fuel' =>
        if formatBpb =? 16 then Some (textureWidth, formatBpb)
        else if IsAligned textureWidthBytes (size_t (Z.shiftl formatBpb 1))
             then coalesce fuel' textureWidthBytes (textureWidth / 2) (size_t (Z.shiftl formatBpb 1))
             else Some (textureWidth, formatBpb)
    end.

  (** The same loop in the other revision of the file (unnamed part_001),
      which tests the running [textureWidth]. *)
Fixpoint coalesce_v1 (fuel : nat) (textureWidth formatBpb : Z) : option (Z * Z) :=
    match fuel with
    | O => None
    | S fuel' =>
        if formatBpb =? 16 then Some (textureWidth, formatBpb)
        else if IsAligned textureWidth (size_t (Z.shiftl formatBpb 1))
             then coalesce_v1 fuel' (textureWidth / 2) (size_t (Z.shiftl formatBpb 1))
             else Some (textureWidth, formatBpb)
    end.

  (** The pixel loop of the [copyTexture] lambda. *)
Definition copyTexture_pixels (BlockLinearToPitch : bool)
      (textureWidth formatBpb blockSize swizzledYZOffset pitchOffset : Z)
      (m : Buffers) : Buffers :=
    snd (for_loop (Z.to_nat textureWidth) 0
      (fun pixel '(deSwizzledOffset, m) =>
         let xBytes := size_t (pixel * formatBpb) in
         let blockOffset := size_t ((xBytes / GobWidth) * blockSize) in
         let GobXOffset :=
           size_t (Z.shiftl (Z.shiftr (Z.land xBytes 63) 5) 8 + Z.land xBytes 15
                   + Z.shiftl (Z.shiftr (Z.land xBytes 31) 4) 5) in
         let swizzledOffset := swizzledYZOffset + blockOffset + GobXOffset in
         (deSwizzledOffset + formatBpb,
          copy_element BlockLinearToPitch formatBpb swizzledOffset deSwizzledOffset m))
      (pitchOffset, m)).

  (** The line loop of the [copyTexture] lambda; its state is [pitchOffset]
      and the buffers. *)
Definition copyTexture_lines (BlockLinearToPitch : bool)
      (textureWidth textureHeight formatBpb textureWidthAlignedBytes robHeight
       alignedDepth pitchBytes blockSize blockLinear pitchOffset : Z)
      (m : Buffers) : Z * Buffers :=
    for_loop (Z.to_nat textureHeight) 0
      (fun line '(pitchOffset, m) =>
         let robOffset :=
           size_t (textureWidthAlignedBytes * AlignDown line robHeight * alignedDepth) in
         let blockHeight := Z.land line (size_t (robHeight - 1)) / GobHeight in
         let GobYOffset := size_t (blockHeight * GobWidth * GobHeight) in
         let GobYOffset :=
           size_t (GobYOffset + (Z.shiftl (Z.shiftr (Z.land line 7) 1) 6
                                 + Z.shiftl (Z.land line 1) 4)) in
         let swizzledYZOffset := blockLinear + robOffset + GobYOffset in
         (pitchOffset + pitchBytes,
          copyTexture_pixels BlockLinearToPitch textureWidth formatBpb blockSize
            swizzledYZOffset pitchOffset m))
      (pitchOffset, m).

  (** The [copyTexture] lambda of [CopyBlockLinearInternal]: the slice loop;
      its state is [blockLinear], [pitchOffset] and the buffers. *)
Definition copyTexture (BlockLinearToPitch : bool)
      (dimensionsDepth textureWidth textureHeight formatBpb textureWidthAlignedBytes
       robHeight alignedDepth pitchBytes blockSize gobBlockHeight blockLinear pitchOffset : Z)
      (m : Buffers) : Buffers :=
    snd (for_loop (Z.to_nat dimensionsDepth) 0
      (fun slice '(blockLinear, pitchOffset, m) =>
         let '(pitchOffset', m') :=
           copyTexture_lines BlockLinearToPitch textureWidth textureHeight formatBpb
             textureWidthAlignedBytes robHeight alignedDepth pitchBytes blockSize
             blockLinear pitchOffset m in
         (blockLinear + size_t (GobHeight * GobWidth * gobBlockHeight), pitchOffset', m'))
      (blockLinear, pitchOffset, m)).

  (** [CopyBlockLinearInternal] from the declaration of [textureHeight] on:
      the part the two revisions share. *)
Definition CopyBlockLinearInternal_body (BlockLinearToPitch : bool)
      (dimensions : Dimensions) (formatBlockHeight pitchAmount gobBlockHeight gobBlockDepth
       blockLinear pitch textureWidthBytes textureWidthAlignedBytes textureWidth formatBpb : Z)
      (m : Buffers) : Buffers :=
    let textureHeight := size_t (DivideCeil (height dimensions) formatBlockHeight) in
    let robHeight := size_t (gobBlockHeight * GobHeight) in
    let alignedDepth := size_t (AlignUp (depth dimensions) gobBlockDepth) in
    let pitchBytes := if pitchAmount =? 0 then textureWidthBytes else pitchAmount in
    let blockSize := size_t (robHeight * GobWidth * alignedDepth) in
    let pitchOffset := pitch in
    match formatBpb with
    | 1 | 2 | 4 | 8 | 12 | 16 =>
        copyTexture BlockLinearToPitch (depth dimensions) textureWidth textureHeight formatBpb
          textureWidthAlignedBytes robHeight alignedDepth pitchBytes blockSize gobBlockHeight
          blockLinear pitchOffset m
    | _ => m
    end.

  (** [CopyBlockLinearInternal<BlockLinearToPitch>] of layout.cpp. *)
Definition CopyBlockLinearInternal (fuel : nat) (BlockLinearToPitch : bool)
      (dimensions : Dimensions)
      (formatBlockWidth formatBlockHeight formatBpb pitchAmount gobBlockHeight gobBlockDepth
       blockLinear pitch : Z) (m : Buffers) : option Buffers :=
    let textureWidth := size_t (DivideCeil (width dimensions) formatBlockWidth) in
    let textureWidthBytes := size_t (textureWidth * formatBpb) in
    let textureWidthAlignedBytes := size_t (AlignUp textureWidthBytes GobWidth) in
    match (if formatBpb =? 12 then Some (textureWidth, formatBpb)
           else coalesce fuel textureWidthBytes textureWidth formatBpb) with
    | None => None
    | Some (textureWidth, formatBpb) =>
        Some (CopyBlockLinearInternal_body BlockLinearToPitch dimensions formatBlockHeight
                pitchAmount gobBlockHeight gobBlockDepth blockLinear pitch
                textureWidthBytes textureWidthAlignedBytes textureWidth formatBpb m)
    end.

  (** [CopyBlockLinearInternal<BlockLinearToPitch>] of the other revision
      (unnamed part_001). *)
Definition CopyBlockLinearInternal_v1 (fuel : nat) (BlockLinearToPitch : bool)
      (dimensions : Dimensions)
      (formatBlockWidth formatBlockHeight formatBpb pitchAmount gobBlockHeight gobBlockDepth
       blockLinear pitch : Z) (m : Buffers) : option Buffers :=
    let textureWidth := size_t (DivideCeil (width dimensions) formatBlockWidth) in
    let textureWidthBytes := size_t (textureWidth * formatBpb) in
    let textureWidthAlignedBytes := size_t (AlignUp textureWidthBytes GobWidth) in
    match (if formatBpb =? 12 then Some (textureWidth, formatBpb)
           else coalesce_v1 fuel textureWidth formatBpb) with
    | None => None
    | Some (textureWidth, formatBpb) =>
        Some (CopyBlockLinearInternal_body BlockLinearToPitch dimensions formatBlockHeight
                pitchAmount gobBlockHeight gobBlockDepth blockLinear pitch
                textureWidthBytes textureWidthAlignedBytes textureWidth formatBpb m)
    end.

  (** The reference copier of the coalescing law: [CopyBlockLinearInternal]
      with the coalescing loop left out, one element of the format at a
      time. *)
Definition CopyBlockLinearReference (BlockLinearToPitch : bool)
      (dimensions : Dimensions)
      (formatBlockWidth formatBlockHeight formatBpb pitchAmount gobBlockHeight gobBlockDepth
       blockLinear pitch : Z) (m : Buffers) : Buffers :=
    let textureWidth := size_t (DivideCeil (width dimensions) formatBlockWidth) in
    let textureWidthBytes := size_t (textureWidth * formatBpb) in
    let textureWidthAlignedBytes := size_t (AlignUp textureWidthBytes GobWidth) in
    CopyBlockLinearInternal_body BlockLinearToPitch dimensions formatBlockHeight
      pitchAmount gobBlockHeight gobBlockDepth blockLinear pitch
      textureWidthBytes textureWidthAlignedBytes textureWidth formatBpb m.

Definition CopyBlockLinearToPitch (fuel : nat) (dimensions : Dimensions)
      (formatBlockWidth formatBlockHeight formatBpb pitchAmount gobBlockHeight gobBlockDepth
       blockLinear pitch : Z) (m : Buffers) : option Buffers :=
    CopyBlockLinearInternal fuel true dimensions formatBlockWidth formatBlockHeight formatBpb
      pitchAmount gobBlockHeight gobBlockDepth blockLinear pitch m.

Definition CopyPitchToBlockLinear (fuel : nat) (dimensions : Dimensions)
      (formatBlockWidth formatBlockHeight formatBpb pitchAmount gobBlockHeight gobBlockDepth
       pitch blockLinear : Z) (m : Buffers) : option Buffers :=
    CopyBlockLinearInternal fuel false dimensions formatBlockWidth formatBlockHeight formatBpb
      pitchAmount gobBlockHeight gobBlockDepth blockLinear pitch m.

  (** *** The sub-rectangle copier of layout.cpp *)

Fixpoint coalesce_subrect (fuel : nat)
      (pitchTextureWidthBytes startingBlockXBytes pitchTextureWidth formatBpb : Z)
      : option (Z * Z) :=
    match fuel with
    | O => None
    | S fuel' =>
        if formatBpb =? 16 then Some (pitchTextureWidth, formatBpb)
        else if IsAligned (size_t (pitchTextureWidthBytes - startingBlockXBytes))
                          (size_t (Z.shiftl formatBpb 1))
                && IsAligned startingBlockXBytes (size_t (Z.shiftl formatBpb 1))
             then coalesce_subrect fuel' pitchTextureWidthBytes startingBlockXBytes
                    (pitchTextureWidth / 2) (size_t (Z.shiftl formatBpb 1))
             else Some (pitchTextureWidth, formatBpb)
    end.

Definition copyTextureSubrect_pixels (BlockLinearToPitch : bool)
      (pitchTextureWidth formatBpb blockSize originXBytes swizzledYZOffset pitchOffset : Z)
      (m : Buffers) : Buffers :=
    snd (for_loop (Z.to_nat pitchTextureWidth) 0
      (fun pixel '(deSwizzledOffset, m) =>
         let xBytes := size_t (originXBytes + pixel * formatBpb) in
         let blockOffset := size_t ((xBytes / GobWidth) * blockSize) in
         let GobXOffset :=
           size_t (Z.shiftl (Z.shiftr (Z.land xBytes 63) 5) 8 + Z.land xBytes 15
                   + Z.shiftl (Z.shiftr (Z.land xBytes 31) 4) 5) in
         let swizzledOffset := swizzledYZOffset + blockOffset + GobXOffset in
         (deSwizzledOffset + formatBpb,
          copy_element BlockLinearToPitch formatBpb swizzledOffset deSwizzledOffset m))
      (pitchOffset, m)).

Definition copyTextureSubrect_lines (BlockLinearToPitch : bool)
      (pitchTextureWidth pitchTextureHeight formatBpb blockLinearTextureWidthAlignedBytes
       robHeight alignedDepth pitchBytes blockSize originXBytes originYOffset
       blockLinear pitchOffset : Z) (m : Buffers) : Z * Buffers :=
    for_loop (Z.to_nat pitchTextureHeight) 0
      (fun line '(pitchOffset, m) =>
         let y := size_t (originYOffset + line) in
         let robOffset :=
           size_t (blockLinearTextureWidthAlignedBytes * AlignDown y robHeight * alignedDepth) in
         let blockHeight := Z.land y (size_t (robHeight - 1)) / GobHeight in
         let GobYOffset := size_t (blockHeight * GobWidth * GobHeight) in
         let GobYOffset :=
           size_t (GobYOffset + (Z.shiftl (Z.shiftr (Z.land y 7) 1) 6
                                 + Z.shiftl (Z.land y 1) 4)) in
         let swizzledYZOffset := blockLinear + robOffset + GobYOffset in
         (pitchOffset + pitchBytes,
          copyTextureSubrect_pixels BlockLinearToPitch pitchTextureWidth formatBpb blockSize
            originXBytes swizzledYZOffset pitchOffset m))
      (pitchOffset, m).

Definition copyTextureSubrect (BlockLinearToPitch : bool)
      (blockLinearDepth pitchTextureWidth pitchTextureHeight formatBpb
       blockLinearTextureWidthAlignedBytes robHeight alignedDepth pitchBytes blockSize
       originXBytes originYOffset gobBlockHeight blockLinear pitchOffset : Z)
      (m : Buffers) : Buffers :=
    snd (for_loop (Z.to_nat blockLinearDepth) 0
      (fun slice '(blockLinear, pitchOffset, m) =>
         let '(pitchOffset', m') :=
           copyTextureSubrect_lines BlockLinearToPitch pitchTextureWidth pitchTextureHeight
             formatBpb blockLinearTextureWidthAlignedBytes robHeight alignedDepth pitchBytes
             blockSize originXBytes originYOffset blockLinear pitchOffset m in
         (blockLinear + size_t (GobHeight * GobWidth * gobBlockHeight), pitchOffset', m'))
      (blockLinear, pitchOffset, m)).

  (** [CopyBlockLinearSubrectInternal<BlockLinearToPitch>] of layout.cpp. *)
Definition CopyBlockLinearSubrectInternal (fuel : nat) (BlockLinearToPitch : bool)
      (pitchDimensions blockLinearDimensions : Dimensions)
      (formatBlockWidth formatBlockHeight formatBpb pitchAmount gobBlockHeight gobBlockDepth
       blockLinear pitch originX originY : Z) (m : Buffers) : option Buffers :=
    let pitchTextureWidth := size_t (DivideCeil (width pitchDimensions) formatBlockWidth) in
    let pitchTextureWidthBytes := size_t (pitchTextureWidth * formatBpb) in
    let blockLinearTextureWidthAlignedBytes :=
      size_t (AlignUp (size_t (size_t (DivideCeil (width blockLinearDimensions) formatBlockWidth)
                               * formatBpb)) GobWidth) in
    let originX := u32 (DivideCeil originX (u32 formatBlockWidth)) in
    let originXBytes := size_t (originX * formatBpb) in
    match (if formatBpb =? 12 then Some (pitchTextureWidth, formatBpb)
           else
             let startingBlockXBytes := size_t (AlignUp originXBytes GobWidth - originXBytes) in
             coalesce_subrect fuel pitchTextureWidthBytes startingBlockXBytes
               pitchTextureWidth formatBpb) with
    | None => None
    | Some (pitchTextureWidth, formatBpb) =>
        let pitchTextureHeight :=
          size_t (DivideCeil (height pitchDimensions) formatBlockHeight) in
        let robHeight := size_t (gobBlockHeight * GobHeight) in
        let originYOffset := size_t (DivideCeil originY formatBlockHeight) in
        let alignedDepth := size_t (AlignUp (depth blockLinearDimensions) gobBlockDepth) in
        let pitchBytes := if pitchAmount =? 0 then pitchTextureWidthBytes else pitchAmount in
        let blockSize := size_t (robHeight * GobWidth * alignedDepth) in
        let pitchOffset := pitch in
        Some match formatBpb with
             | 1 | 2 | 4 | 8 | 12 | 16 =>
                 copyTextureSubrect BlockLinearToPitch (depth blockLinearDimensions)
                   pitchTextureWidth pitchTextureHeight formatBpb
                   blockLinearTextureWidthAlignedBytes robHeight alignedDepth pitchBytes
                   blockSize originXBytes originYOffset gobBlockHeight blockLinear pitchOffset m
             | _ => m
             end
    end.

Definition CopyBlockLinearToPitchSubrect (fuel : nat)
      (pitchDimensions blockLinearDimensions : Dimensions)
      (formatBlockWidth formatBlockHeight formatBpb pitchAmount gobBlockHeight gobBlockDepth
       blockLinear pitch originX originY : Z) (m : Buffers) : option Buffers :=
    CopyBlockLinearSubrectInternal fuel true pitchDimensions blockLinearDimensions
      formatBlockWidth formatBlockHeight formatBpb pitchAmount gobBlockHeight gobBlockDepth
      blockLinear pitch originX originY m.

Definition CopyPitchToBlockLinearSubrect (fuel : nat)
      (pitchDimensions blockLinearDimensions : Dimensions)
      (formatBlockWidth formatBlockHeight formatBpb pitchAmount gobBlockHeight gobBlockDepth
       pitch blockLinear originX originY : Z) (m : Buffers) : option Buffers :=
    CopyBlockLinearSubrectInternal fuel false pitchDimensions blockLinearDimensions
      formatBlockWidth formatBlockHeight formatBpb pitchAmount gobBlockHeight gobBlockDepth
      blockLinear pitch originX originY m.

  (** *** The linear copiers: rows packed without padding *)

Definition CopyBlockLinearToLinear (fuel : nat) (dimensions : Dimensions)
      (formatBlockWidth formatBlockHeight formatBpb gobBlockHeight gobBlockDepth
       blockLinear linear : Z) (m : Buffers) : option Buffers :=
    CopyBlockLinearInternal fuel true dimensions formatBlockWidth formatBlockHeight formatBpb 0
      gobBlockHeight gobBlockDepth blockLinear linear m.

Definition CopyLinearToBlockLinear (fuel : nat) (dimensions : Dimensions)
      (formatBlockWidth formatBlockHeight formatBpb gobBlockHeight gobBlockDepth
       linear blockLinear : Z) (m : Buffers) : option Buffers :=
    CopyBlockLinearInternal fuel false dimensions formatBlockWidth formatBlockHeight formatBpb 0
      gobBlockHeight gobBlockDepth blockLinear linear m.

Definition CopyLinearToBlockLinearSubrect (fuel : nat)
      (linearDimensions blockLinearDimensions : Dimensions)
      (formatBlockWidth formatBlockHeight formatBpb gobBlockHeight gobBlockDepth
       linear blockLinear originX originY : Z) (m : Buffers) : option Buffers :=
    CopyBlockLinearSubrectInternal fuel false linearDimensions blockLinearDimensions
      formatBlockWidth formatBlockHeight formatBpb 0 gobBlockHeight gobBlockDepth
      blockLinear linear originX originY m.

  (** Modelled from the spec: the format descriptor and the guest texture
      of gpu/texture/texture.h and format.h, which are not among the
      sources. The copiers read the three fields of section 3 and call
      [GetSize], of which the sources show the call only: it is a field
      here, and nothing is assumed of it. *)
Record FormatBase : Type := mkFormatBase {
    fmt_blockWidth : Z;
    fmt_blockHeight : Z;
    fmt_bpb : Z;
    GetSize : Z -> Z -> Z }.

Record TileConfig : Set := mkTileConfig {
    tile_blockHeight : Z;
    tile_blockDepth : Z;
    tile_pitch : Z }.

Record GuestTexture : Type := mkGuestTexture {
    guest_dimensions : Dimensions;
    guest_format : FormatBase;
    guest_tileConfig : TileConfig }.

  (** The overloads that take the guest texture. *)
Definition CopyBlockLinearToLinear_guest (fuel : nat) (guest : GuestTexture)
      (blockLinear linear : Z) (m : Buffers) : option Buffers :=
    CopyBlockLinearInternal fuel true (guest_dimensions guest)
      (fmt_blockWidth (guest_format guest)) (fmt_blockHeight (guest_format guest))
      (fmt_bpb (guest_format guest)) 0
      (tile_blockHeight (guest_tileConfig guest)) (tile_blockDepth (guest_tileConfig guest))
      blockLinear linear m.

Definition CopyLinearToBlockLinear_guest (fuel : nat) (guest : GuestTexture)
      (linear blockLinear : Z) (m : Buffers) : option Buffers :=
    CopyBlockLinearInternal fuel false (guest_dimensions guest)
      (fmt_blockWidth (guest_format guest)) (fmt_blockHeight (guest_format guest))
      (fmt_bpb (guest_format guest)) 0
      (tile_blockHeight (guest_tileConfig guest)) (tile_blockDepth (guest_tileConfig guest))
      blockLinear linear m.

  (** *** The pitch-linear helpers *)

  (** The guest's pitch-linear buffer and the packed linear buffer; they do
      not alias. *)
Record LinearBuffers : Set := mkLinearBuffers { guestMem : mem; linearMem : mem }.

  (** [std::memcpy(to, from, n)] between two buffers. *)
Definition memcpy (dst : mem) (to : Z) (src : mem) (from : Z) (n : Z) : mem :=
    copy_bytes src from dst to n.

  (** [CopyPitchLinearToLinear]: the loop's state is [inputLine],
      [outputLine] and the buffers. *)
Definition CopyPitchLinearToLinear (guest : GuestTexture) (guestInput linearOutput : Z)
      (m : LinearBuffers) : LinearBuffers :=
    let sizeLine := GetSize (guest_format guest) (width (guest_dimensions guest)) 1 in
    let sizeStride := tile_pitch (guest_tileConfig guest) in
    snd (for_loop (Z.to_nat (height (guest_dimensions guest))) 0
      (fun line '(inputLine, outputLine, m) =>
         (inputLine + sizeStride, outputLine + sizeLine,
          mkLinearBuffers (guestMem m)
            (memcpy (linearMem m) outputLine (guestMem m) inputLine sizeLine)))
      (guestInput, linearOutput, m)).

  (** [CopyLinearToPitchLinear]. *)
Definition CopyLinearToPitchLinear (guest : GuestTexture) (linearInput guestOutput : Z)
      (m : LinearBuffers) : LinearBuffers :=
    let sizeLine := GetSize (guest_format guest) (width (guest_dimensions guest)) 1 in
    let sizeStride := tile_pitch (guest_tileConfig guest) in
    snd (for_loop (Z.to_nat (height (guest_dimensions guest))) 0
      (fun line '(inputLine, outputLine, m) =>
         (inputLine + sizeLine, outputLine + sizeStride,
          mkLinearBuffers
            (memcpy (guestMem m) outputLine (linearMem m) inputLine sizeLine)
            (linearMem m)))
      (linearInput, guestOutput, m)).

  (** *** The sub-rectangle copier of the other revision (unnamed part_001) *)

  (** The [elemCopy] lambda: it copies the pixels [from, to) one element
      at a time and then moves [swizzledOffset] to the next block. Its
      state is [deSwizzledOffset], [swizzledOffset] and the buffers. *)
Definition elemCopy_v1 (BlockLinearToPitch : bool)
      (actualOriginX formatBpb blockSize from to : Z) (st : Z * Z * Buffers)
      : Z * Z * Buffers :=
    let '(deSwizzledOffset, swizzledOffset, m) := st in
    let '(deSwizzledOffset, m) :=
      for_loop (Z.to_nat (to - from)) from
        (fun pixel '(deSwizzledOffset, m) =>
           let xBytes := size_t ((actualOriginX + pixel) * formatBpb) in
           let GobXOffset :=
             size_t (Z.shiftl (Z.shiftr (Z.land xBytes 63) 5) 8 + Z.land xBytes 15
                     + Z.shiftl (Z.shiftr (Z.land xBytes 31) 4) 5) in
           (deSwizzledOffset + formatBpb,
            copy_range BlockLinearToPitch formatBpb (swizzledOffset + GobXOffset)
              deSwizzledOffset m))
        (deSwizzledOffset, m) in
    (deSwizzledOffset, swizzledOffset + blockSize, m).

  (** The loop over whole GOBs: four sectors of 16 bytes for each. *)
Definition gobCopy_v1 (BlockLinearToPitch : bool) (GOBsPerRob blockSize : Z)
      (st : Z * Z * Buffers) : Z * Z * Buffers :=
    for_loop (Z.to_nat GOBsPerRob) 0
      (fun GOB '(deSwizzledOffset, swizzledOffset, m) =>
         let m := copy_range BlockLinearToPitch SectorWidth
                    swizzledOffset deSwizzledOffset m in
         let m := copy_range BlockLinearToPitch SectorWidth
                    (swizzledOffset + 32) (deSwizzledOffset + 16) m in
         let m := copy_range BlockLinearToPitch SectorWidth
                    (swizzledOffset + 256) (deSwizzledOffset + 32) m in
         let m := copy_range BlockLinearToPitch SectorWidth
                    (swizzledOffset + 288) (deSwizzledOffset + 48) m in
         (deSwizzledOffset + GobWidth, swizzledOffset + blockSize, m))
      st.

  (** One line: the elements of a partial first GOB, the whole GOBs, the
      elements of a partial last GOB. *)
Definition copySubrectLine_v1 (BlockLinearToPitch : bool)
      (pitchTextureWidth formatBpb blockLinearTextureWidthAlignedBytes robHeight alignedDepth
       blockSize startingBlockOffset actualOriginX originYOffset
       xPerGOB xPerFirstGOB xPerLastGOB GOBsPerRob blockLinear pitchOffset line : Z)
      (m : Buffers) : Buffers :=
    let y := size_t (originYOffset + line) in
    let robOffset :=
      size_t (blockLinearTextureWidthAlignedBytes * AlignDown y robHeight * alignedDepth) in
    let blockHeight := Z.land y (size_t (robHeight - 1)) / GobHeight in
    let GobYOffset := size_t (blockHeight * GobWidth * GobHeight) in
    let GobYOffset :=
      size_t (GobYOffset + (Z.shiftl (Z.shiftr (Z.land line 7) 1) 6
                            + Z.shiftl (Z.land line 1) 4)) in
    let deSwizzledOffset := pitchOffset in
    let swizzledOffset := blockLinear + robOffset + GobYOffset + startingBlockOffset in
    let st := (deSwizzledOffset, swizzledOffset, m) in
    let st :=
      if negb (xPerFirstGOB =? xPerGOB)
      then elemCopy_v1 BlockLinearToPitch actualOriginX formatBpb blockSize 0 xPerFirstGOB st
      else st in
    let st := gobCopy_v1 BlockLinearToPitch GOBsPerRob blockSize st in
    let st :=
      if negb (xPerLastGOB =? xPerGOB)
      then elemCopy_v1 BlockLinearToPitch actualOriginX formatBpb blockSize
             (size_t (pitchTextureWidth - xPerLastGOB)) pitchTextureWidth st
      else st in
    snd st.

  (** [CopyBlockLinearSubrectInternal<BlockLinearToPitch>] of the other
      revision (unnamed part_001). *)
Definition CopyBlockLinearSubrectInternal_v1 (BlockLinearToPitch : bool)
      (pitchDimensions blockLinearDimensions : Dimensions)
      (formatBlockWidth formatBlockHeight formatBpb pitchAmount gobBlockHeight gobBlockDepth
       blockLinear pitch originX originY : Z) (m : Buffers) : Buffers :=
    let pitchTextureWidth := size_t (DivideCeil (width pitchDimensions) formatBlockWidth) in
    let pitchTextureWidthBytes := size_t (pitchTextureWidth * formatBpb) in
    let blockLinearTextureWidthAlignedBytes :=
      size_t (AlignUp (size_t (size_t (DivideCeil (width blockLinearDimensions) formatBlockWidth)
                               * formatBpb)) GobWidth) in
    let xPerGOB := GobWidth / formatBpb in
    let actualOriginX := size_t (DivideCeil originX formatBlockWidth) in
    let originXBytes := size_t (actualOriginX * formatBpb) in
    let xPerFirstGOB :=
      size_t (GobWidth - Z.land originXBytes (GobWidth - 1)) / formatBpb in
    let xPerLastGOB :=
      Z.land (size_t (originXBytes + pitchTextureWidthBytes)) (GobWidth - 1) / formatBpb in
    let GOBsPerRob :=
      if pitchTextureWidthBytes <? GobWidth then 0
      else size_t (size_t (originXBytes + pitchTextureWidthBytes)
                   - size_t (AlignUp originXBytes GobWidth)) / GobWidth in
    let pitchTextureHeight := size_t (DivideCeil (height pitchDimensions) formatBlockHeight) in
    let robHeight := size_t (gobBlockHeight * GobHeight) in
    let originYOffset := size_t (DivideCeil originY formatBlockHeight) in
    let alignedDepth := size_t (AlignUp (depth blockLinearDimensions) gobBlockDepth) in
    let pitchBytes := if pitchAmount =? 0 then pitchTextureWidthBytes else pitchAmount in
    let startingBlockOffset :=
      size_t ((originXBytes / GobWidth) * robHeight * GobWidth * alignedDepth) in
    let blockSize := size_t (robHeight * GobWidth * alignedDepth) in
    let pitchOffset := pitch in
    snd (for_loop (Z.to_nat (depth blockLinearDimensions)) 0
      (fun slice '(blockLinear, pitchOffset, m) =>
         let '(pitchOffset, m) :=
           for_loop (Z.to_nat pitchTextureHeight) 0
             (fun line '(pitchOffset, m) =>
                (pitchOffset + pitchBytes,
                 copySubrectLine_v1 BlockLinearToPitch pitchTextureWidth formatBpb
                   blockLinearTextureWidthAlignedBytes robHeight alignedDepth blockSize
                   startingBlockOffset actualOriginX originYOffset
                   xPerGOB xPerFirstGOB xPerLastGOB GOBsPerRob blockLinear pitchOffset line m))
             (pitchOffset, m) in
         (blockLinear + size_t (GobHeight * GobWidth * gobBlockHeight), pitchOffset, m))
      (blockLinear, pitchOffset, m)).

End layout.

(** ** soc/gm20b/engines/maxwell_dma.cpp *)

Module maxwell_dma.
Import util layout.

Definition u64 (x : Z) : Z := x mod 2 ^ 64.

Inductive MemoryLayout : Set := BlockLinear | Pitch.

Definition MemoryLayout_eqb (a b : MemoryLayout) : bool :=
    match a, b with
    | BlockLinear, BlockLinear | Pitch, Pitch => true
    | _, _ => false
    end.

  (** The two-bit [semaphoreType] field; its fourth value has no name. *)
Inductive SemaphoreType : Set :=
  | NoSemaphore | ReleaseOneWordSemaphore | ReleaseFourWordSemaphore | ReservedSemaphore.

  (** Modelled from the spec: the typed views of the register file, which
      maxwell_dma.h declares and which is not among the sources; the fields
      are those of sections 3 and 6 of the specification. *)
Record Registers_LaunchDma : Set := mkLaunchDma {
    dataTransferType : Z;
    multiLineEnable : bool;
    remapEnable : bool;
    srcMemoryLayout : MemoryLayout;
    dstMemoryLayout : MemoryLayout;
    reductionEnable : bool;
    semaphoreType : SemaphoreType }.

  (** Modelled from the spec: a block size, each field a 4-bit base-two
      logarithm; [Width()], [Height()] and [Depth()] are the sizes. *)
Record BlockSize : Set := mkBlockSize { widthLog2 : Z; heightLog2 : Z; depthLog2 : Z }.

Definition Width (b : BlockSize) : Z := 2 ^ widthLog2 b.
Definition Height (b : BlockSize) : Z := 2 ^ heightLog2 b.
Definition Depth (b : BlockSize) : Z := 2 ^ depthLog2 b.

Record Surface : Set := mkSurface {
    blockSize : BlockSize;
    surfaceWidth : Z; surfaceHeight : Z; surfaceDepth : Z;
    layer : Z;
    originX : Z; originY : Z }.

Record Registers : Set := mkRegisters {
    launchDma : Registers_LaunchDma;
    offsetIn : Z; offsetOut : Z;
    pitchIn : Z; pitchOut : Z;
    lineLengthIn : Z; lineCount : Z;
    srcSurface : Surface; dstSurface : Surface;
    semaphoreAddress : Z; semaphorePayload : Z }.

  (** The register file: the 32-bit word of every method. *)
Definition RawRegisters : Set := Z -> Z.

  (** Modelled from the spec: how the typed views alias the raw words
      ([ENGINE_OFFSET(launchDma)] and the packed structs of maxwell_dma.h). *)
Record RegisterLayout : Set := mkRegisterLayout {
    launchDmaOffset : Z;
    registersOf : RawRegisters -> Registers }.

  (** What the collaborators answer: the mappings [TranslateRange] returns
      for an address and a size, each a host pointer and a length, and the
      GPU time. *)
Record Environment : Set := mkEnvironment {
    TranslateRange : Z -> Z -> list (Z * Z);
    GetGpuTimeTicks : Z }.

Inductive LogMessage : Set :=
  | CalledMethod (method argument : Z)
  | RemappedUnimplemented
  | BlockLinearToBlockLinearUnimplemented
  | NonOneBlockWidth (width : Z)
  | SplitTexturesUnimplemented
  | ReductionUnimplemented
  | Copy1D (src dst size : Z)
  | CopySurface (srcWidth srcHeight srcAddress dstWidth dstHeight dstAddress : Z)
  | SemaphoreOneWord (address payload : Z)
  | SemaphoreFourWord (address payload timestamp : Z).

  (** The calls into gpu::texture, with their arguments in order. *)
Inductive TextureCall : Set :=
  | CallCopyBlockLinearToPitchSubrect
      (pitchDimensions blockLinearDimensions : Dimensions)
      (formatBlockWidth formatBlockHeight formatBpb pitchAmount gobBlockHeight gobBlockDepth
       blockLinear pitch originX originY : Z)
  | CallCopyBlockLinearToPitch (dimensions : Dimensions)
      (formatBlockWidth formatBlockHeight formatBpb pitchAmount gobBlockHeight gobBlockDepth
       blockLinear pitch : Z)
  | CallCopyPitchToBlockLinearSubrect
      (pitchDimensions blockLinearDimensions : Dimensions)
      (formatBlockWidth formatBlockHeight formatBpb pitchAmount gobBlockHeight gobBlockDepth
       pitch blockLinear originX originY : Z)
  | CallCopyPitchToBlockLinear (dimensions : Dimensions)
      (formatBlockWidth formatBlockHeight formatBpb pitchAmount gobBlockHeight gobBlockDepth
       pitch blockLinear : Z).

  (** What the engine does to the outside, in order. *)
Inductive Event : Set :=
  | Log (message : LogMessage)
  | Submit
  | Translate (address size : Z)
  | InterconnectCopy (dst src size : Z)
  | TextureCopy (call : TextureCall)
  | GmmuWrite (address value : Z).

  (** The engine's computations: they read and write the register file and
      append to the trace of events. *)
Definition M (A : Type) : Type := RawRegisters -> A * RawRegisters * list Event.

Definition ret {A : Type} (a : A) : M A := fun regs => (a, regs, []).

Definition bind {A B : Type} (m : M A) (k : A -> M B) : M B :=
    fun regs =>
      let '(a, regs1, t1) := m regs in
      let '(b, regs2, t2) := k a regs1 in
      (b, regs2, t1 ++ t2).

Definition emit (e : Event) : M unit := fun regs => (tt, regs, [e]).

Definition write_raw (method argument : Z) : M unit :=
    fun regs => (tt, (fun i => if i =? method then argument else regs i), []).

Notation "x <- m ;; k" := (bind m (fun x => k))
    (at level 61, m at next level, right associativity).
Notation "m ;;; k" := (bind m (fun _ => k)) (at level 61, right associativity).

Section Engine.
Variable regLayout : RegisterLayout.
Variable env : Environment.

Definition registers : M Registers := fun regs => (registersOf regLayout regs, regs, []).

    (** [gmmu.TranslateRange]: the call is recorded and the mappings are
        those of the environment. *)
Definition translateRange (address size : Z) : M (list (Z * Z)) :=
      emit (Translate address size) ;;; ret (TranslateRange env address size).

Definition ReleaseSemaphore : M unit :=
      r <- registers ;;
      (if reductionEnable (launchDma r) then emit (Log ReductionUnimplemented) else ret tt) ;;;
      let address := u64 (semaphoreAddress r) in
      let payload := u64 (semaphorePayload r) in
      match semaphoreType (launchDma r) with
      | ReleaseOneWordSemaphore =>
          emit (GmmuWrite address payload) ;;;
          emit (Log (SemaphoreOneWord address payload))
      | ReleaseFourWordSemaphore =>
          let timestamp := u64 (GetGpuTimeTicks env) in
          emit (GmmuWrite (u64 (address + 8)) timestamp) ;;;
          emit (GmmuWrite address payload) ;;;
          emit (Log (SemaphoreFourWord address payload timestamp))
      | _ => ret tt
      end.

Definition CopyBlockLinearToPitch : M unit :=
      r <- registers ;;
      if negb (Width (blockSize (srcSurface r)) =? 1) then
        emit (Log (NonOneBlockWidth (Width (blockSize (srcSurface r)))))
      else
        let srcDimensions :=
          mkDimensions (surfaceWidth (srcSurface r)) (surfaceHeight (srcSurface r))
                       (surfaceDepth (srcSurface r)) in
        let srcLayerStride :=
          GetBlockLinearLayerSize srcDimensions 1 1 1
            (Height (blockSize (srcSurface r))) (Depth (blockSize (srcSurface r))) in
        let srcLayerAddress := size_t (offsetIn r + layer (srcSurface r) * srcLayerStride) in
        srcMappings <- translateRange (offsetIn r) srcLayerStride ;;
        let dstDimensions :=
          mkDimensions (lineLengthIn r) (lineCount r) (surfaceDepth (srcSurface r)) in
        let dstSize := u32 (pitchOut r * height dstDimensions * depth dstDimensions) in
        dstMappings <- translateRange (offsetOut r) dstSize ;;
        match srcMappings, dstMappings with
        | [srcMapping], [dstMapping] =>
            emit (Log (CopySurface (width srcDimensions) (height srcDimensions) srcLayerAddress
                         (width dstDimensions) (height dstDimensions) (u64 (offsetOut r)))) ;;;
            if negb (AlignDown (width srcDimensions) 64 =? AlignDown (width dstDimensions) 64)
               || negb (originX (srcSurface r) =? 0) || negb (originY (srcSurface r) =? 0)
            then
              emit (TextureCopy (CallCopyBlockLinearToPitchSubrect
                      dstDimensions srcDimensions 1 1 1 (pitchOut r)
                      (Height (blockSize (srcSurface r))) (Depth (blockSize (srcSurface r)))
                      (fst srcMapping) (fst dstMapping)
                      (originX (srcSurface r)) (originY (srcSurface r))))
            else
              emit (TextureCopy (CallCopyBlockLinearToPitch
                      dstDimensions 1 1 1 (pitchOut r)
                      (Height (blockSize (srcSurface r))) (Depth (blockSize (srcSurface r)))
                      (fst srcMapping) (fst dstMapping)))
        | _, _ => emit (Log SplitTexturesUnimplemented)
        end.

Definition CopyPitchToBlockLinear : M unit :=
      r <- registers ;;
      if negb (Width (blockSize (dstSurface r)) =? 1) then
        emit (Log (NonOneBlockWidth (Width (blockSize (srcSurface r)))))
      else
        let srcDimensions :=
          mkDimensions (lineLengthIn r) (lineCount r) (surfaceDepth (dstSurface r)) in
        let srcSize := u32 (pitchIn r * height srcDimensions * depth srcDimensions) in
        srcMappings <- translateRange (offsetIn r) srcSize ;;
        let dstDimensions :=
          mkDimensions (surfaceWidth (dstSurface r)) (surfaceHeight (dstSurface r))
                       (surfaceDepth (dstSurface r)) in
        let dstLayerStride :=
          GetBlockLinearLayerSize dstDimensions 1 1 1
            (Height (blockSize (dstSurface r))) (Depth (blockSize (dstSurface r))) in
        let dstLayerAddress := size_t (offsetOut r + layer (dstSurface r) * dstLayerStride) in
        dstMappings <- translateRange (offsetOut r) dstLayerStride ;;
        match srcMappings, dstMappings with
        | [srcMapping], [dstMapping] =>
            emit (Log (CopySurface (width srcDimensions) (height srcDimensions) (u64 (offsetIn r))
                         (width dstDimensions) (height dstDimensions) dstLayerAddress)) ;;;
            if negb (AlignDown (width srcDimensions) 64 =? AlignDown (width dstDimensions) 64)
               || negb (originX (dstSurface r) =? 0) || negb (originY (dstSurface r) =? 0)
            then
              emit (TextureCopy (CallCopyPitchToBlockLinearSubrect
                      srcDimensions dstDimensions 1 1 1 (pitchIn r)
                      (Height (blockSize (dstSurface r))) (Depth (blockSize (dstSurface r)))
                      (fst srcMapping) (fst dstMapping)
                      (originX (dstSurface r)) (originY (dstSurface r))))
            else
              emit (TextureCopy (CallCopyPitchToBlockLinear
                      srcDimensions 1 1 1 (pitchIn r)
                      (Height (blockSize (dstSurface r))) (Depth (blockSize (dstSurface r)))
                      (fst srcMapping) (fst dstMapping)))
        | _, _ => emit (Log SplitTexturesUnimplemented)
        end.

    (** The line-by-line loop of the pitch to pitch copy; [linesToCopy]
        counts down, the two offsets are [u32]. *)
Fixpoint copy_lines (r : Registers) (linesToCopy : nat) (srcCopyOffset dstCopyOffset : Z)
        : M unit :=
      match linesToCopy with
      | O => ret tt
      | S linesToCopy' =>
          emit (InterconnectCopy (u64 (offsetOut r + dstCopyOffset))
                  (u64 (offsetIn r + srcCopyOffset)) (u64 (lineLengthIn r))) ;;;
          copy_lines r linesToCopy' (u32 (srcCopyOffset + pitchIn r))
            (u32 (dstCopyOffset + pitchOut r))
      end.

Definition DmaCopy : M unit :=
      r <- registers ;;
      if multiLineEnable (launchDma r) then
        emit Submit ;;;
        if MemoryLayout_eqb (srcMemoryLayout (launchDma r)) (dstMemoryLayout (launchDma r)) then
          match srcMemoryLayout (launchDma r) with
          | Pitch =>
              if (pitchIn r =? pitchOut r) && (pitchIn r =? lineLengthIn r) then
                emit (InterconnectCopy (u64 (offsetOut r)) (u64 (offsetIn r))
                        (u64 (u32 (lineLengthIn r * lineCount r))))
              else
                copy_lines r (Z.to_nat (lineCount r)) 0 0
          | BlockLinear => emit (Log BlockLinearToBlockLinearUnimplemented)
          end
        else
          match srcMemoryLayout (launchDma r) with
          | BlockLinear => CopyBlockLinearToPitch
          | Pitch => CopyPitchToBlockLinear
          end
      else
        emit (Log (Copy1D (u64 (offsetIn r)) (u64 (offsetOut r)) (lineLengthIn r))) ;;;
        emit (InterconnectCopy (u64 (offsetOut r)) (u64 (offsetIn r)) (u64 (lineLengthIn r))).

Definition LaunchDma : M unit :=
      r <- registers ;;
      (if remapEnable (launchDma r) then emit (Log RemappedUnimplemented) else DmaCopy) ;;;
      ReleaseSemaphore.

Definition HandleMethod (method argument : Z) : M unit :=
      write_raw method argument ;;;
      if method =? launchDmaOffset regLayout then LaunchDma else ret tt.

Definition CallMethod (method argument : Z) : M unit :=
      emit (Log (CalledMethod method argument)) ;;;
      HandleMethod method argument.

Fixpoint CallMethodBatchNonInc (method : Z) (arguments : list Z) : M unit :=
      match arguments with
      | [] => ret tt
      | argument :: arguments' =>
          HandleMethod method argument ;;; CallMethodBatchNonInc method arguments'
      end.

End Engine.

  (** The trace of a computation and the register file it leaves. *)
Definition trace_of {A : Type} (m : M A) (regs : RawRegisters) : list Event := snd (m regs).
Definition registers_after {A : Type} (m : M A) (regs : RawRegisters) : RawRegisters :=
    snd (fst (m regs)).

Definition is_log (e : Event) : bool := match e with Log _ => true | _ => false end.

  (** The events that move data: a linear copy or a call into the swizzle
      copier. *)
Definition is_copy (e : Event) : bool :=
    match e with InterconnectCopy _ _ _ | TextureCopy _ => true | _ => false end.

Definition is_gmmu_write (e : Event) : bool :=
    match e with GmmuWrite _ _ => true | _ => false end.

Definition is_translate (e : Event) : bool :=
    match e with Translate _ _ => true | _ => false end.

Definition value_of {A : Type} (m : M A) (regs : RawRegisters) : A := fst (fst (m regs)).

  (** The register file with one word written. *)
Definition written (regs : RawRegisters) (method argument : Z) : RawRegisters :=
    fun i => if i =? method then argument else regs i.

  (** The registers with the two [layer] fields replaced. *)
Definition with_layer (s : Surface) (l : Z) : Surface :=
    mkSurface (blockSize s) (surfaceWidth s) (surfaceHeight s) (surfaceDepth s) l
              (originX s) (originY s).

Definition with_layers (r : Registers) (srcLayer dstLayer : Z) : Registers :=
    mkRegisters (launchDma r) (offsetIn r) (offsetOut r) (pitchIn r) (pitchOut r)
      (lineLengthIn r) (lineCount r)
      (with_layer (srcSurface r) srcLayer) (with_layer (dstSurface r) dstLayer)
      (semaphoreAddress r) (semaphorePayload r).

  (** The two ranges a block-linear to pitch launch translates, and those
      of a pitch to block-linear launch: source first. *)
Definition blockLinearToPitch_ranges (r : Registers) : (Z * Z) * (Z * Z) :=
    ((offsetIn r,
      GetBlockLinearLayerSize
        (mkDimensions (surfaceWidth (srcSurface r)) (surfaceHeight (srcSurface r))
                      (surfaceDepth (srcSurface r))) 1 1 1
        (Height (blockSize (srcSurface r))) (Depth (blockSize (srcSurface r)))),
     (offsetOut r, u32 (pitchOut r * lineCount r * surfaceDepth (srcSurface r)))).

Definition pitchToBlockLinear_ranges (r : Registers) : (Z * Z) * (Z * Z) :=
    ((offsetIn r, u32 (pitchIn r * lineCount r * surfaceDepth (dstSurface r))),
     (offsetOut r,
      GetBlockLinearLayerSize
        (mkDimensions (surfaceWidth (dstSurface r)) (surfaceHeight (dstSurface r))
                      (surfaceDepth (dstSurface r))) 1 1 1
        (Height (blockSize (dstSurface r))) (Depth (blockSize (dstSurface r))))).

  (** [TranslateRange] returns more than one mapping for one of two ranges. *)
Definition split_mapping (env : Environment) (ranges : (Z * Z) * (Z * Z)) : Prop :=
    (1 < length (TranslateRange env (fst (fst ranges)) (snd (fst ranges))))%nat \/
    (1 < length (TranslateRange env (fst (snd ranges)) (snd (snd ranges))))%nat.

  (** The launches the engine does not support: remapping, a multi-line
      copy between two block-linear surfaces, a block-linear surface whose
      block width is not 1, a range in more than one mapping. *)
Definition unsupported_launch (env : Environment) (r : Registers) : Prop :=
    remapEnable (launchDma r) = true \/
    (remapEnable (launchDma r) = false /\ multiLineEnable (launchDma r) = true /\
     ((srcMemoryLayout (launchDma r) = BlockLinear /\
       dstMemoryLayout (launchDma r) = BlockLinear) \/
      (srcMemoryLayout (launchDma r) = BlockLinear /\ dstMemoryLayout (launchDma r) = Pitch /\
       (Width (blockSize (srcSurface r)) <> 1 \/
        split_mapping env (blockLinearToPitch_ranges r))) \/
      (srcMemoryLayout (launchDma r) = Pitch /\ dstMemoryLayout (launchDma r) = BlockLinear /\
       (Width (blockSize (dstSurface r)) <> 1 \/
        split_mapping env (pitchToBlockLinear_ranges r))))).

End maxwell_dma.

(** ** The formulas of the specification, in its own words *)

Module spec.
Import util layout.

  (** [ceil(a / b)] *)
Definition ceil_div (a b : Z) : Z := (a + b - 1) / b.

  (** [align_up(v, m)] and [align_down(v, m)] *)
Definition align_up (v m : Z) : Z := ceil_div v m * m.
Definition align_down (v m : Z) : Z := v - v mod m.

  (** Section 4.A, single-layer size, over the integers. *)
Definition blockLinearLayerSize (w h d fmtBw fmtBh bpb gbh gbd : Z) : Z :=
    let robLineBytes := align_up (ceil_div w fmtBw * bpb) 64 in
    let robHeight := 8 * gbh in
    let surfaceRobs := ceil_div (ceil_div h fmtBh) robHeight in
    let robDepth := align_up d gbd in
    robLineBytes * robHeight * surfaceRobs * robDepth.

  (** Section 4.B, the byte offset of texel-block [(x, y, z)] inside the
      block-linear buffer. *)
Definition offset (robLineBytesAligned alignedDepth gbh gbd bpb x y z : Z) : Z :=
    let robHeight := 8 * gbh in
    let xb := x * bpb in
    let blockX := xb / 64 in
    let robY := align_down y robHeight / robHeight in
    let blockZ := z / gbd in
    let robBase := robY * (robLineBytesAligned * robHeight * alignedDepth) in
    let blockBase := robBase + blockX * (robHeight * 64 * alignedDepth)
                     + blockZ * (robHeight * 64 * gbd) in
    let gobY_block := (y mod robHeight) / 8 in
    let gobZ_block := z mod gbd in
    let gobBase := blockBase + (gobZ_block * gbh + gobY_block) * 512 in
    let intraGobY := Z.lor (Z.shiftl (Z.shiftr (Z.land y 7) 1) 6) (Z.shiftl (Z.land y 1) 4) in
    let intraGobX :=
      Z.lor (Z.lor (Z.shiftl (Z.shiftr (Z.land xb 63) 5) 8)
                   (Z.shiftl (Z.shiftr (Z.land xb 31) 4) 5))
            (Z.land xb 15) in
    gobBase + intraGobY + intraGobX.

  (** The numbers [0, 1, ..., n - 1]. *)
Definition zrange (n : Z) : list Z := map Z.of_nat (seq 0 (Z.to_nat n)).

End spec.

(** ** Auxiliary notions of the proofs *)

Module aux.
Import util layout.

  (** Congruence modulo [2^64]. *)
Definition eqm (a b : Z) : Prop := size_t a = size_t b.

  (** The two level loops run in lock step: the same GOB counts and block
      configuration, and the layer size's depth is the descriptor's depth. *)
Definition in_step (ls : LevelState) (ms : MipState) : Prop :=
    ls_gobsWidth ls = ms_gobsWidth ms /\ ls_gobsHeight ls = ms_gobsHeight ms /\
    ls_gobsDepth ls = depth (ms_dimensions ms) /\
    ls_gobBlockHeight ls = ms_gobBlockHeight ms /\
    ls_gobBlockDepth ls = ms_gobBlockDepth ms.

  (** An element move: the swizzled offset, the de-swizzled offset and the
      number of bytes. *)
Definition move : Set := (Z * Z * Z)%type.

  (** The element moves of a list, carried out in order. *)
Definition run_moves (BlockLinearToPitch : bool) (ms : list move) (m : Buffers) : Buffers :=
    fold_left (fun m '(s, d, n) => copy_range BlockLinearToPitch n s d m) ms m.

  (** The moves of a loop whose round [j] performs the moves [M j p] at
      pointer state [p] and then advances the pointers by [step]. *)
Definition loop_moves {P : Type} (step : P -> P) (M : Z -> P -> list move)
      (n : nat) (i : Z) (p : P) : list move :=
    flat_map (fun j => M (i + Z.of_nat j) (Nat.iter j step p)) (seq 0 n).

  (** The byte moves of an element move: pairs of a swizzled and a
      de-swizzled address. *)
Definition move_bytes (mv : move) : list (Z * Z) :=
    let '(s, d, n) := mv in map (fun k => (s + k, d + k)) (spec.zrange n).

Definition byte_moves (ms : list move) : list (Z * Z) := flat_map move_bytes ms.

Definition swap (p : Z * Z) : Z * Z := (snd p, fst p).

  (** The source of the last byte move of [l] that writes address [a]. *)
Fixpoint last_to (a : Z) (l : list (Z * Z)) : option Z :=
    match l with
    | [] => None
    | (t, f) :: l' =>
        match last_to a l' with
        | Some x => Some x
        | None => if t =? a then Some f else None
        end
    end.

  (** The buffer [dst] after the byte moves [l], pairs of a destination and
      a source address in [src]. *)
Definition after_bytes (src : mem) (l : list (Z * Z)) (dst : mem) : mem :=
    fun a => match last_to a l with Some f => src f | None => dst a end.

  (** [GobXOffset] and the in-GOB part of [GobYOffset], by division. *)
Definition gob_x (xb : Z) : Z := xb mod 64 / 32 * 256 + xb mod 16 + xb mod 32 / 16 * 32.
Definition gob_y (y : Z) : Z := y mod 8 / 2 * 64 + y mod 2 * 16.

  (** The closed form of the element moves of the [copyTexture] lambdas:
      of one row, of one slice and of the whole copy. [ox] is
      [originXBytes] and [oy] is [originYOffset], both 0 in
      [CopyBlockLinearInternal]. *)
Definition code_gob_x (xBytes : Z) : Z :=
    size_t (Z.shiftl (Z.shiftr (Z.land xBytes 63) 5) 8 + Z.land xBytes 15
            + Z.shiftl (Z.shiftr (Z.land xBytes 31) 4) 5).

Definition code_x (blockSize xBytes : Z) : Z :=
    size_t (xBytes / GobWidth * blockSize) + code_gob_x xBytes.

Definition code_yz (A robHeight alignedDepth y : Z) : Z :=
    size_t (A * AlignDown y robHeight * alignedDepth)
    + size_t (size_t (Z.land y (size_t (robHeight - 1)) / GobHeight * GobWidth * GobHeight)
              + (Z.shiftl (Z.shiftr (Z.land y 7) 1) 6 + Z.shiftl (Z.land y 1) 4)).

Definition code_row (bpb blockSize ox YZ po : Z) (W : nat) : list move :=
    map (fun x => (YZ + code_x blockSize (size_t (ox + Z.of_nat x * bpb)),
                   po + Z.of_nat x * bpb, sizeof_element bpb))
        (seq 0 W).

Definition code_slice (bpb blockSize A robHeight alignedDepth pitchBytes ox oy bl po : Z)
      (W H : nat) : list move :=
    flat_map (fun y => code_row bpb blockSize ox
                         (bl + code_yz A robHeight alignedDepth (size_t (oy + Z.of_nat y)))
                         (po + Z.of_nat y * pitchBytes) W)
             (seq 0 H).

Definition code_moves (bpb blockSize A robHeight alignedDepth pitchBytes gobBlockHeight
      ox oy bl po : Z) (W H D : nat) : list move :=
    flat_map (fun z => code_slice bpb blockSize A robHeight alignedDepth pitchBytes ox oy
                         (bl + Z.of_nat z * size_t (GobHeight * GobWidth * gobBlockHeight))
                         (po + Z.of_nat z * (Z.of_nat H * pitchBytes)) W H)
             (seq 0 D).

  (** The byte moves of one row of [n] bytes and of the whole copy. *)
Definition row_bytes (blockSize ox YZ po n : Z) : list (Z * Z) :=
    map (fun j => (YZ + code_x blockSize (ox + j), po + j)) (spec.zrange n).

Definition code_bytes (blockSize A robHeight alignedDepth pitchBytes gobBlockHeight
      ox oy bl po n : Z) (H D : nat) : list (Z * Z) :=
    flat_map (fun z =>
      flat_map (fun y =>
        row_bytes blockSize ox
          (bl + Z.of_nat z * size_t (GobHeight * GobWidth * gobBlockHeight)
           + code_yz A robHeight alignedDepth (size_t (oy + Z.of_nat y)))
          (po + Z.of_nat z * (Z.of_nat H * pitchBytes) + Z.of_nat y * pitchBytes) n)
        (seq 0 H))
      (seq 0 D).

  (** The element sizes that can be coalesced. *)
Definition coalescable (bpb : Z) : Prop := In bpb [1; 2; 4; 8; 16].

  (** The in-GOB offsets written with [|] in the specification. *)
Definition lor_gob_y (y : Z) : Z :=
    Z.lor (Z.shiftl (Z.shiftr (Z.land y 7) 1) 6) (Z.shiftl (Z.land y 1) 4).

Definition lor_gob_x (xb : Z) : Z :=
    Z.lor (Z.lor (Z.shiftl (Z.shiftr (Z.land xb 63) 5) 8)
                 (Z.shiftl (Z.shiftr (Z.land xb 31) 4) 5))
          (Z.land xb 15).

  (** The swizzled offset of byte [xb] of line [y] of slice [z], by
      division: [Aw] is the aligned row width in bytes, [Dz] the aligned
      depth. *)
Definition swz (Aw Dz gbh xb y z : Z) : Z :=
    z * (512 * gbh)
    + (Aw * (y / (8 * gbh) * (8 * gbh)) * Dz + (y mod (8 * gbh) / 8 * 512 + gob_y y))
    + (xb / 64 * (8 * gbh * 64 * Dz) + gob_x xb).

  (** The line and the byte of a row inside a GOB, read back from the
      in-GOB offset. *)
Definition gob_line (g : Z) : Z := g / 64 mod 4 * 2 + g / 16 mod 2.
Definition gob_byte (g : Z) : Z := g mod 16 + g / 32 mod 2 * 16 + g / 256 mod 2 * 32.

  (** The buffers after the byte moves [L] of a copy in one direction. *)
Definition run_bytes (BlockLinearToPitch : bool) (L : list (Z * Z)) (m : Buffers) : Buffers :=
    if BlockLinearToPitch
    then mkBuffers (blockLinearMem m)
           (after_bytes (blockLinearMem m) (map swap L) (pitchMem m))
    else mkBuffers (after_bytes (pitchMem m) L (blockLinearMem m)) (pitchMem m).

  (** Two buffers pairs with the same bytes. *)
Definition same_buffers (r r' : Buffers) : Prop :=
    forall a, blockLinearMem r a = blockLinearMem r' a /\ pitchMem r a = pitchMem r' a.

  (** The four sector moves of one GOB in the other revision's loop over
      whole GOBs. *)
Definition sector_moves (swizzledOffset deSwizzledOffset : Z) : list move :=
    [(swizzledOffset, deSwizzledOffset, 16);
     (swizzledOffset + 32, deSwizzledOffset + 16, 16);
     (swizzledOffset + 256, deSwizzledOffset + 32, 16);
     (swizzledOffset + 288, deSwizzledOffset + 48, 16)].

End aux.

(** ** Concrete buffers, surfaces and register files *)

Module scenarios.
Import util layout maxwell_dma.

Definition zero_mem : mem := fun _ => x00.

Definition byte_of_Z (z : Z) : byte :=
    match Byte.of_N (Z.to_N (z mod 256)) with Some b => b | None => x00 end.

  (** A buffer of [n] bytes whose byte [a] is [a mod 256]. *)
Definition counting_bytes (n : Z) : mem :=
    fun a => if (0 <=? a) && (a <? n) then byte_of_Z a else x00.

  (** A buffer of [n] texels of four bytes: texel [i] holds the value [i],
      little endian, at offset [4 * i]. *)
Definition identity_texels (n : Z) : mem :=
    fun a => if (0 <=? a) && (a <? 4 * n) then byte_of_Z (a / 4 / 256 ^ (a mod 4)) else x00.

  (** The four bytes of texel [i] of [identity_texels] stand at [off]. *)
Definition texel_at (m : mem) (i off : Z) : bool :=
    forallb (fun k => Byte.eqb (m (off + k)) (identity_texels 512 (4 * i + k)))
            (spec.zrange 4).

  (** Scenario S1: a 64x8x1 surface of four-byte texels, blocks of one GOB. *)
Definition S1_dims : Dimensions := mkDimensions 64 8 1.
Definition S1_start : Buffers := mkBuffers zero_mem (identity_texels 512).
Definition S1_result : option Buffers :=
    layout.CopyPitchToBlockLinear 5 S1_dims 1 1 4 0 1 1 0 0 S1_start.
Definition S1_swizzled : mem :=
    match S1_result with Some r => blockLinearMem r | None => zero_mem end.

  (** The element moves of the coalesced copy of scenario S1, 16 elements
      of 16 bytes a line, and its byte moves. *)
Definition S1_moves : list aux.move := aux.code_moves 16 512 256 8 1 256 1 0 0 0 0 16 8 1.
Definition S1_bytes : list (Z * Z) := aux.byte_moves S1_moves.

  (** Scenario S1 as the specification words it: one GOB of 512 bytes, texel
      (16,0) at 0x100, texel (0,1) at 0x10, texel (0,7) at 0x70. *)
Definition S1_as_worded : Prop :=
    GetBlockLinearLayerSize S1_dims 1 1 4 1 1 = 512 /\
    texel_at S1_swizzled 16 256 = true /\
    texel_at S1_swizzled 64 16 = true /\
    texel_at S1_swizzled 448 112 = true.

  (** Pitch to block-linear into [dst], then block-linear to pitch into
      [fresh]: the pitch buffer read back. *)
Definition round_trip (fuel : nat) (dims : Dimensions)
      (fmtBw fmtBh bpb pitch gbh gbd : Z) (B dst fresh : mem) : option mem :=
    match layout.CopyPitchToBlockLinear fuel dims fmtBw fmtBh bpb pitch gbh gbd 0 0
            (mkBuffers dst B) with
    | Some m1 =>
        match layout.CopyBlockLinearToPitch fuel dims fmtBw fmtBh bpb pitch gbh gbd 0 0
                (mkBuffers (blockLinearMem m1) fresh) with
        | Some m2 => Some (pitchMem m2)
        | None => None
        end
    | None => None
    end.

  (** The same through the sub-rectangle copiers, at an origin. *)
Definition round_trip_subrect (fuel : nat) (pitchDims blockLinearDims : Dimensions)
      (fmtBw fmtBh bpb pitch gbh gbd originX originY : Z) (B dst fresh : mem) : option mem :=
    match CopyPitchToBlockLinearSubrect fuel pitchDims blockLinearDims fmtBw fmtBh bpb pitch
            gbh gbd 0 0 originX originY (mkBuffers dst B) with
    | Some m1 =>
        match CopyBlockLinearToPitchSubrect fuel pitchDims blockLinearDims fmtBw fmtBh bpb pitch
                gbh gbd 0 0 originX originY (mkBuffers (blockLinearMem m1) fresh) with
        | Some m2 => Some (pitchMem m2)
        | None => None
        end
    | None => None
    end.

  (** The round trip of a 2x2x1 surface of 12-byte elements, tight rows,
      blocks of one GOB, from a buffer of counting bytes. *)
Definition RT12_dims : Dimensions := mkDimensions 2 2 1.
Definition RT12_round_trip : option mem :=
    round_trip 5 RT12_dims 1 1 12 0 1 1 (counting_bytes 512) zero_mem zero_mem.
Definition RT12_result : mem :=
    match RT12_round_trip with Some B' => B' | None => zero_mem end.

  (** The round-trip law at this input: the 48 bytes copied come back. *)
Definition RT12_law : Prop :=
    exists B', RT12_round_trip = Some B' /\
      forall a, 0 <= a < 48 -> B' a = counting_bytes 512 a.



  (** The round trip of a 2x2x1 rectangle of 12-byte elements written at the
      origin of a 4x4x1 block-linear surface. *)
Definition SUB12_round_trip : option mem :=
    round_trip_subrect 5 (mkDimensions 2 2 1) (mkDimensions 4 4 1) 1 1 12 0 1 1 0 0
      (counting_bytes 512) zero_mem zero_mem.
Definition SUB12_result : mem :=
    match SUB12_round_trip with Some B' => B' | None => zero_mem end.

Definition SUB12_law : Prop :=
    exists B', SUB12_round_trip = Some B' /\
      forall a, 0 <= a < 48 -> B' a = counting_bytes 512 a.

  (** A register layout to run the engine on: the words of the Maxwell DMA
      class that the engine reads. *)
Definition bit (w i : Z) : bool := Z.testbit w i.
Definition bits (w lo n : Z) : Z := Z.shiftr w lo mod 2 ^ n.

Definition decode_layout (b : bool) : MemoryLayout := if b then Pitch else BlockLinear.

Definition decode_semaphore (v : Z) : SemaphoreType :=
    match v with
    | 0 => NoSemaphore
    | 1 => ReleaseOneWordSemaphore
    | 2 => ReleaseFourWordSemaphore
    | _ => ReservedSemaphore
    end.

Definition decode_surface (regs : RawRegisters) (base : Z) : Surface :=
    mkSurface
      (mkBlockSize (bits (regs base) 0 4) (bits (regs base) 4 4) (bits (regs base) 8 4))
      (regs (base + 1)) (regs (base + 2)) (regs (base + 3)) (regs (base + 4))
      (bits (regs (base + 5)) 0 16) (bits (regs (base + 5)) 16 16).

Definition class_layout : RegisterLayout :=
    mkRegisterLayout 192
      (fun regs =>
         let w := regs 192 in
         mkRegisters
           (mkLaunchDma (bits w 0 2) (bit w 9) (bit w 10)
              (decode_layout (bit w 7)) (decode_layout (bit w 8)) (bit w 19)
              (decode_semaphore (bits w 3 2)))
           (regs 256 * 2 ^ 32 + regs 257) (regs 258 * 2 ^ 32 + regs 259)
           (regs 260) (regs 261) (regs 262) (regs 263)
           (decode_surface regs 458) (decode_surface regs 451)
           (regs 144 * 2 ^ 32 + regs 145) (regs 146)).

  (** A register file from a list of written words; every other word is 0. *)
Definition register_file (words : list (Z * Z)) : RawRegisters :=
    fun i => match find (fun p => fst p =? i) words with Some p => snd p | None => 0 end.

  (** Every range is one mapping at the same host address. *)
Definition flat_memory : Environment :=
    mkEnvironment (fun address size => [(address, size)]) 77.

  (** Every range is split in two mappings. *)
Definition split_memory : Environment :=
    mkEnvironment (fun address size => [(address, size / 2); (address + size / 2, size - size / 2)])
                  77.

  (** A four-word release at 0x1000 with payload 5, after a one-dimensional
      copy of 16 bytes. *)
Definition four_word_registers : RawRegisters :=
    register_file [(192, 16); (144, 0); (145, 4096); (146, 5); (262, 16)].

  (** A multi-line block-linear to pitch launch with remapping enabled. *)
Definition remap_registers : RawRegisters :=
    register_file [(192, 1792); (262, 64); (263, 8); (261, 64);
                   (458, 0); (459, 64); (460, 8); (461, 1)].

  (** A multi-line block-linear to pitch launch of a 64x8x1 surface, and
      the same with the source layer set to 3. *)
Definition blockLinearToPitch_registers : RawRegisters :=
    register_file [(192, 768); (262, 64); (263, 8); (261, 64);
                   (458, 0); (459, 64); (460, 8); (461, 1); (257, 8192); (259, 16384)].

Definition blockLinearToPitch_layer3_registers : RawRegisters :=
    register_file [(192, 768); (262, 64); (263, 8); (261, 64);
                   (458, 0); (459, 64); (460, 8); (461, 1); (462, 3);
                   (257, 8192); (259, 16384)].

  (** The multi-line pitch to pitch launch of scenario S5: ten lines of
      1024 bytes, both pitches 1024; and the same with a source pitch of
      2048. *)
Definition pitchToPitch_registers : RawRegisters :=
    register_file [(192, 896); (260, 1024); (261, 1024); (262, 1024); (263, 10);
                   (257, 8192); (259, 65536)].

Definition pitchToPitch_strided_registers : RawRegisters :=
    register_file [(192, 896); (260, 2048); (261, 1024); (262, 1024); (263, 10);
                   (257, 8192); (259, 65536)].

  (** A multi-line pitch to block-linear launch of 16 lines of 16 bytes
      into a 256x256x1 surface at origin (48, 32), the copy of scenario
      S4. *)
Definition pitchToBlockLinear_registers : RawRegisters :=
    register_file [(192, 640); (260, 16); (262, 16); (263, 16);
                   (451, 0); (452, 256); (453, 256); (454, 1); (456, 2097200);
                   (257, 8192); (259, 65536)].

  (** No range is mapped. *)
Definition unmapped_memory : Environment := mkEnvironment (fun _ _ => []) 77.

  (** A guest texture of 64x8x1 elements of four bytes, in blocks of one
      GOB, with a pitch of 512 bytes. *)
Definition S1_guest : GuestTexture :=
    mkGuestTexture S1_dims (mkFormatBase 1 1 4 (fun w h => w * h * 4)) (mkTileConfig 1 1 512).

  (** The mip chain of scenario S3: 256x256x1, four bytes an element,
      blocks of four GOBs, five levels. *)
Definition S3_mips : list MipLevelLayout :=
    GetBlockLinearMipLayout (mkDimensions 256 256 1) 1 1 4 0 0 0 4 1 5.

End scenarios.

(** ** Facts on machine integers and alignment *)

Module UtilFacts.
Import util aux.

Lemma size_t_range x : 0 <= size_t x < 2 ^ 64.
  Proof. unfold size_t. apply Z.mod_pos_bound. reflexivity. Qed.

Lemma size_t_small x : 0 <= x < 2 ^ 64 -> size_t x = x.
  Proof. intros H. unfold size_t. now apply Z.mod_small. Qed.

Lemma size_t_idem x : size_t (size_t x) = size_t x.
  Proof. unfold size_t. apply Z.mod_mod. discriminate. Qed.

Lemma eqm_refl a : eqm a a.
  Proof. reflexivity. Qed.

Lemma eqm_size_t a : eqm (size_t a) a.
  Proof. apply size_t_idem. Qed.

Lemma eqm_trans a b c : eqm a b -> eqm b c -> eqm a c.
  Proof. unfold eqm. congruence. Qed.

Lemma eqm_mul a a' b b' : eqm a a' -> eqm b b' -> eqm (a * b) (a' * b').
  Proof.
    unfold eqm, size_t. intros Ha Hb.
    rewrite (Z.mul_mod a b), (Z.mul_mod a' b') by discriminate. now rewrite Ha, Hb.
  Qed.

Lemma eqm_add a a' b b' : eqm a a' -> eqm b b' -> eqm (a + b) (a' + b').
  Proof.
    unfold eqm, size_t. intros Ha Hb.
    rewrite (Z.add_mod a b), (Z.add_mod a' b') by discriminate. now rewrite Ha, Hb.
  Qed.

Lemma eqm_0_of_multiple a k : 0 <= k -> eqm (a * (2 ^ 64 * k)) 0.
  Proof.
    intros _. unfold eqm, size_t.
    replace (a * (2 ^ 64 * k)) with ((a * k) * 2 ^ 64) by ring.
    now rewrite Z.mod_mul.
  Qed.

Lemma DivideCeil_bounds a b : 0 < b -> 0 <= a ->
    a <= DivideCeil a b * b < a + b.
  Proof.
    intros Hb Ha. unfold DivideCeil.
    pose proof (Z.div_mod (a + b - 1) b ltac:(lia)).
    pose proof (Z.mod_pos_bound (a + b - 1) b Hb). nia.
  Qed.

Lemma DivideCeil_nonneg a b : 0 < b -> 0 <= a -> 0 <= DivideCeil a b.
  Proof. intros. unfold DivideCeil. apply Z.div_pos; lia. Qed.

Lemma DivideCeil_pos a b : 0 < b -> 0 < a -> 0 < DivideCeil a b.
  Proof.
    intros Hb Ha. pose proof (DivideCeil_bounds a b Hb ltac:(lia)). nia.
  Qed.

Lemma DivideCeil_le a b : 0 < b -> 0 <= a -> DivideCeil a b <= a.
  Proof.
    intros Hb Ha. pose proof (DivideCeil_bounds a b Hb Ha).
    pose proof (DivideCeil_nonneg a b Hb Ha).
    destruct (Z.eq_dec a 0) as [->|]; [ nia | nia ].
  Qed.

Lemma AlignUp_bounds v m : 0 < m -> 0 <= v -> v <= AlignUp v m < v + m.
  Proof. intros. unfold AlignUp. now apply DivideCeil_bounds. Qed.

Lemma AlignUp_multiple v m : AlignUp v m = DivideCeil v m * m.
  Proof. reflexivity. Qed.

  (** Aligning up to a divisor of [2^64] commutes with the reduction. *)
Lemma AlignUp_64_eqm x : eqm (AlignUp (size_t x) 64) (AlignUp x 64).
  Proof.
    unfold eqm, AlignUp, DivideCeil, size_t.
    rewrite (Z.div_mod x (2 ^ 64)) at 2 by discriminate.
    replace (2 ^ 64 * (x / 2 ^ 64) + x mod 2 ^ 64 + 64 - 1)
      with ((x mod 2 ^ 64 + 64 - 1) + (x / 2 ^ 64 * 2 ^ 58) * 64) by (change (2 ^ 64) with (2 ^ 58 * 64); ring).
    rewrite Z.div_add by discriminate.
    rewrite Z.mul_add_distr_r.
    replace (x / 2 ^ 64 * 2 ^ 58 * 64) with (x / 2 ^ 64 * 2 ^ 64) by (change (2 ^ 64) with (2 ^ 58 * 64); ring).
    now rewrite Z.mod_add by discriminate.
  Qed.

Lemma is_pow2_pos n : is_pow2 n -> 0 < n.
  Proof. unfold is_pow2. intros <-. apply Z.pow_pos_nonneg; [lia | apply Z.log2_nonneg]. Qed.

Lemma is_pow2_exp n : is_pow2 n -> exists k, 0 <= k /\ n = 2 ^ k.
  Proof. intros H. exists (Z.log2 n). split; [apply Z.log2_nonneg | now symmetry]. Qed.

  (** A power of two is below [2^64] or a multiple of it. *)
Lemma pow2_size_t_cases n : is_pow2 n ->
    n < 2 ^ 64 \/ exists k, 0 <= k /\ n = 2 ^ 64 * k.
  Proof.
    intros H. destruct (is_pow2_exp n H) as (k & Hk & ->).
    destruct (Z_lt_le_dec k 64) as [Hlt|Hge].
    - left. apply Z.pow_lt_mono_r; lia.
    - right. exists (2 ^ (k - 64)). split; [apply Z.pow_nonneg; lia|].
      rewrite <- Z.pow_add_r by lia. f_equal. lia.
  Qed.

End UtilFacts.

(** ** The layout calculator *)

Module SizeFacts.
Import util layout UtilFacts.

Lemma ceil_div_DivideCeil a b : spec.ceil_div a b = DivideCeil a b.
  Proof. reflexivity. Qed.

Lemma align_up_AlignUp v m : spec.align_up v m = AlignUp v m.
  Proof. reflexivity. Qed.

Lemma rob_height_cases gbh : is_pow2 gbh ->
    8 * gbh < 2 ^ 64 \/ exists k, 0 <= k /\ 8 * gbh = 2 ^ 64 * k.
  Proof.
    intros H. apply pow2_size_t_cases.
    destruct (is_pow2_exp gbh H) as (k & Hk & ->).
    unfold is_pow2. change 8 with (2 ^ 3). rewrite <- Z.pow_add_r by lia.
    now rewrite Z.log2_pow2 by lia.
  Qed.

  (** C3. For dimensions and format block dimensions of at least 1, any
      [formatBpb] and power-of-two GOB block height and depth, the one-level
      [GetBlockLinearLayerSize] returns
      [robLineBytes * robHeight * surfaceRobs * robDepth] with
      [robLineBytes = align_up(ceil(w/fmtBw)*bpb, 64)], [robHeight = 8*gbh],
      [surfaceRobs = ceil(ceil(h/fmtBh)/robHeight)] and
      [robDepth = align_up(d, gbd)]: as a [size_t] in general, and exactly
      that integer whenever it is representable. *)
Theorem GetBlockLinearLayerSize_formula :
    forall w h d fmtBw fmtBh bpb gbh gbd,
      1 <= w < 2 ^ 32 -> 1 <= h < 2 ^ 32 -> 1 <= d < 2 ^ 32 ->
      1 <= fmtBw < 2 ^ 64 -> 1 <= fmtBh < 2 ^ 64 -> 0 <= bpb < 2 ^ 64 ->
      is_pow2 gbh -> is_pow2 gbd ->
      let robLineBytes := spec.align_up (spec.ceil_div w fmtBw * bpb) 64 in
      let robHeight := 8 * gbh in
      let surfaceRobs := spec.ceil_div (spec.ceil_div h fmtBh) robHeight in
      let robDepth := spec.align_up d gbd in
      GetBlockLinearLayerSize (mkDimensions w h d) fmtBw fmtBh bpb gbh gbd
        = size_t (robLineBytes * robHeight * surfaceRobs * robDepth)
      /\ (robLineBytes * robHeight * surfaceRobs * robDepth < 2 ^ 64 ->
          GetBlockLinearLayerSize (mkDimensions w h d) fmtBw fmtBh bpb gbh gbd
            = robLineBytes * robHeight * surfaceRobs * robDepth).
  Proof.
    intros w h d fmtBw fmtBh bpb gbh gbd Hw Hh Hd Hbw Hbh Hbpb Hgh Hgd.
    cbv zeta. change spec.align_up with AlignUp. change spec.ceil_div with DivideCeil.
    pose proof (is_pow2_pos _ Hgh) as Hgh0. pose proof (is_pow2_pos _ Hgd) as Hgd0.
    pose proof (DivideCeil_pos w fmtBw ltac:(lia) ltac:(lia)) as Hrw.
    pose proof (DivideCeil_le w fmtBw ltac:(lia) ltac:(lia)) as Hrw'.
    pose proof (DivideCeil_pos h fmtBh ltac:(lia) ltac:(lia)) as Hl.
    pose proof (DivideCeil_le h fmtBh ltac:(lia) ltac:(lia)) as Hl'.
    assert (Heq : GetBlockLinearLayerSize (mkDimensions w h d) fmtBw fmtBh bpb gbh gbd
                  = size_t (AlignUp (DivideCeil w fmtBw * bpb) 64 * (8 * gbh)
                            * DivideCeil (DivideCeil h fmtBh) (8 * gbh) * AlignUp d gbd)).
    { unfold GetBlockLinearLayerSize, GobWidth, GobHeight. cbn [width height depth].
      rewrite (size_t_small (DivideCeil w fmtBw)) by lia.
      rewrite (size_t_small (DivideCeil h fmtBh)) by lia.
      destruct (rob_height_cases gbh Hgh) as [Hsmall | (k & Hk & Hbig)].
      - rewrite (size_t_small (8 * gbh)) by lia.
        pose proof (DivideCeil_pos (DivideCeil h fmtBh) (8 * gbh) ltac:(lia) ltac:(lia)).
        pose proof (DivideCeil_le (DivideCeil h fmtBh) (8 * gbh) ltac:(lia) ltac:(lia)).
        rewrite (size_t_small (DivideCeil (DivideCeil h fmtBh) (8 * gbh))) by lia.
        apply eqm_mul; [apply eqm_mul; [apply eqm_mul|] |]; try apply eqm_refl.
        + eapply eqm_trans; [apply eqm_size_t | apply AlignUp_64_eqm].
        + apply eqm_size_t.
      - assert (H0 : size_t (8 * gbh) = 0).
        { rewrite Hbig. unfold size_t. rewrite Z.mul_comm. now rewrite Z.mod_mul. }
        rewrite H0.
        transitivity (size_t 0).
        + f_equal. ring.
        + symmetry. rewrite Hbig.
          match goal with |- size_t (?a * _ * ?c * ?e) = _ =>
            replace (a * (2 ^ 64 * k) * c * e) with ((a * c * e) * (2 ^ 64 * k)) by ring end.
          now apply eqm_0_of_multiple. }
    split; [exact Heq|].
    intros Hfit. rewrite Heq. apply size_t_small. split; [|exact Hfit].
    assert (0 <= DivideCeil w fmtBw * bpb) by (apply Z.mul_nonneg_nonneg; lia).
    pose proof (AlignUp_bounds (DivideCeil w fmtBw * bpb) 64 ltac:(lia) ltac:(lia)).
    pose proof (AlignUp_bounds d gbd ltac:(lia) ltac:(lia)).
    pose proof (DivideCeil_nonneg (DivideCeil h fmtBh) (8 * gbh) ltac:(lia) ltac:(lia)).
    apply Z.mul_nonneg_nonneg; [|lia].
    apply Z.mul_nonneg_nonneg; [|lia].
    apply Z.mul_nonneg_nonneg; lia.
  Qed.

  (** The theorem at the surface of scenario S2: 128x16x1, 4 bytes per
      block, blocks of two GOBs. *)
Lemma GetBlockLinearLayerSize_formula_witness :
    GetBlockLinearLayerSize (mkDimensions 128 16 1) 1 1 4 2 1 = 8192.
  Proof.
    refine (proj2 (GetBlockLinearLayerSize_formula 128 16 1 1 1 4 2 1 _ _ _ _ _ _ _ _) _);
      try lia; try reflexivity.
  Defined.

End SizeFacts.

Module MipFacts.
Import util layout aux UtilFacts.

Lemma sum_sizes_app l1 l2 : sum_sizes (l1 ++ l2) = sum_sizes l1 + sum_sizes l2.
  Proof.
    unfold sum_sizes. induction l1 as [|x l1 IH]; cbn [app fold_right]; [reflexivity|].
    rewrite IH. ring.
  Qed.

Lemma sum_sizes_nonneg l : Forall (fun x => 0 <= x) l -> 0 <= sum_sizes l.
  Proof.
    unfold sum_sizes. induction 1; cbn [fold_right]; lia.
  Qed.

Section Loops.
Variables formatBlockHeight formatBlockWidth formatBpb : Z.
Variables targetFormatBlockHeight targetFormatBlockWidth targetFormatBpb : Z.

Let body := mip_layout_body formatBlockHeight formatBlockWidth formatBpb
                  targetFormatBlockHeight targetFormatBlockWidth targetFormatBpb.

Lemma level_loops_in_step n : forall i ls ms,
      in_step ls ms ->
      exists new,
        ms_mipLevels (for_loop n i body ms) = ms_mipLevels ms ++ new /\
        length new = n /\
        Forall (fun x => 0 <= x) (map blockLinearSize new) /\
        eqm (ls_totalSize (for_loop n i layer_size_body ls))
            (ls_totalSize ls + sum_sizes (map blockLinearSize new)) /\
        (0 <= ls_totalSize ls < 2 ^ 64 ->
         0 <= ls_totalSize (for_loop n i layer_size_body ls) < 2 ^ 64).
    Proof.
      induction n as [|n IH]; intros i ls ms Hstep.
      - exists []. cbn. rewrite app_nil_r, Z.add_0_r.
        repeat split; auto; try apply eqm_refl; tauto.
      - cbn [for_loop].
        destruct Hstep as (Hw & Hh & Hd & Hbh & Hbd).
        destruct (IH (i + 1) (layer_size_body i ls) (body i ms)) as (new & Hl & Hlen & Hpos & Hsum & Hrng).
        { unfold in_step, body, layer_size_body, mip_layout_body.
          cbn [ls_gobsWidth ls_gobsHeight ls_gobsDepth ls_gobBlockHeight ls_gobBlockDepth
               ms_gobsWidth ms_gobsHeight ms_dimensions ms_gobBlockHeight ms_gobBlockDepth depth].
          rewrite Hw, Hh, Hd, Hbh, Hbd. repeat split; reflexivity. }
        assert (Hbody : exists lv, ms_mipLevels (body i ms) = ms_mipLevels ms ++ [lv] /\
                  blockLinearSize lv = size_t ((GobWidth * ls_gobsWidth ls)
                    * (GobHeight * size_t (AlignUp (ls_gobsHeight ls) (ls_gobBlockHeight ls)))
                    * size_t (AlignUp (ls_gobsDepth ls) (ls_gobBlockDepth ls)))).
        { eexists. split; [reflexivity|]. cbn [blockLinearSize].
          now rewrite Hw, Hh, Hd, Hbh, Hbd. }
        destruct Hbody as (lv & Hlv & Hsz).
        exists (lv :: new). rewrite Hl, Hlv, <- app_assoc. cbn [app map length].
        split; [reflexivity|]. split; [|split; [|split]].
        + now rewrite Hlen.
        + constructor; [rewrite Hsz; apply size_t_range | exact Hpos].
        + eapply eqm_trans; [exact Hsum|].
          unfold layer_size_body at 1. cbn [ls_totalSize].
          change (sum_sizes (blockLinearSize lv :: map blockLinearSize new))
            with (blockLinearSize lv + sum_sizes (map blockLinearSize new)).
          rewrite Z.add_assoc. apply eqm_add; [|apply eqm_refl].
          eapply eqm_trans; [apply eqm_size_t|].
          apply eqm_add; [apply eqm_refl|]. rewrite Hsz. unfold eqm. now rewrite size_t_idem.
        + intros _. apply Hrng. unfold layer_size_body. cbn [ls_totalSize]. apply size_t_range.
    Qed.
End Loops.

  (** C6. The [blockLinearSize] fields of the descriptors that
      [GetBlockLinearMipLayout] returns add up to what the all-levels
      [GetBlockLinearLayerSize] returns for the same dimensions, format,
      GOB block configuration and level count with [isMultiLayer = false]:
      as a [size_t] in general, and exactly whenever the sum is
      representable; and there is one descriptor per level. *)
Theorem mip_layout_sizes_sum :
    forall dims fmtBh fmtBw bpb tfmtBh tfmtBw tbpb gbh gbd levelCount,
      let mips := GetBlockLinearMipLayout dims fmtBh fmtBw bpb tfmtBh tfmtBw tbpb
                    gbh gbd levelCount in
      let total := sum_sizes (map blockLinearSize mips) in
      length mips = Z.to_nat levelCount /\
      GetBlockLinearLayerSizeLevels dims fmtBh fmtBw bpb gbh gbd levelCount false
        = size_t total /\
      (total < 2 ^ 64 ->
       GetBlockLinearLayerSizeLevels dims fmtBh fmtBw bpb gbh gbd levelCount false = total).
  Proof.
    intros dims fmtBh fmtBw bpb tfmtBh tfmtBw tbpb gbh gbd levelCount mips total.
    unfold GetBlockLinearLayerSizeLevels.
    set (gw := size_t (DivideCeil (size_t (size_t (DivideCeil (width dims) fmtBw) * bpb)) GobWidth)).
    set (gh := size_t (DivideCeil (size_t (DivideCeil (height dims) fmtBh)) GobHeight)).
    destruct (level_loops_in_step fmtBh fmtBw bpb tfmtBh tfmtBw tbpb (Z.to_nat levelCount) 0
                (mkLevelState gw gh (depth dims) gbh gbd 0)
                (mkMipState [] dims gw gh gbh gbd))
      as (new & Hl & Hlen & Hpos & Hsum & Hrng).
    { repeat split. }
    cbn [ms_mipLevels ls_totalSize app] in Hl, Hsum, Hrng.
    assert (Hm : mips = new) by exact Hl.
    subst total. rewrite Hm.
    specialize (Hrng ltac:(lia)).
    assert (Heq : ls_totalSize (for_loop (Z.to_nat levelCount) 0 layer_size_body
                     (mkLevelState gw gh (depth dims) gbh gbd 0))
                  = size_t (sum_sizes (map blockLinearSize new))).
    { rewrite <- (size_t_small _ Hrng). exact Hsum. }
    split; [exact Hlen|]. split; [exact Heq|].
    intros Hfit. rewrite Heq. apply size_t_small.
    split; [now apply sum_sizes_nonneg | exact Hfit].
  Qed.

  (** The theorem at the mip chain of scenario S3: 256x256x1, 4 bytes per
      block, blocks of four GOBs, five levels. *)
Lemma mip_layout_sizes_sum_witness :
    GetBlockLinearLayerSizeLevels (mkDimensions 256 256 1) 1 1 4 4 1 5 false
    = sum_sizes (map blockLinearSize
        (GetBlockLinearMipLayout (mkDimensions 256 256 1) 1 1 4 0 0 0 4 1 5)).
  Proof.
    refine (proj2 (proj2 (mip_layout_sizes_sum (mkDimensions 256 256 1) 1 1 4 0 0 0 4 1 5)) _).
    vm_compute. reflexivity.
  Defined.

End MipFacts.

(** ** More on the layout calculator *)

Module SizeExtras.
Import util layout UtilFacts.

Lemma pow2_is_pow2 k : 0 <= k -> is_pow2 (2 ^ k).
  Proof. intros Hk. unfold is_pow2. now rewrite Z.log2_pow2. Qed.

Lemma bit_ceil_covers s : s <= bit_ceil s.
  Proof.
    unfold bit_ceil. destruct (Z_lt_le_dec 1 s) as [H1|H1].
    - apply Z.log2_up_spec. exact H1.
    - rewrite Z.log2_up_eqn0 by exact H1. cbn. lia.
  Qed.

Lemma bit_ceil_le_pow2 s b : is_pow2 b -> s <= b -> bit_ceil s <= b.
  Proof.
    intros Hb Hs. destruct (is_pow2_exp b Hb) as (k & Hk & ->).
    unfold bit_ceil. apply Z.pow_le_mono_r; [lia|].
    rewrite <- (Z.log2_up_pow2 k Hk). now apply Z.log2_up_le_mono.
  Qed.

Lemma CalculateBlockGobs_between b s :
    is_pow2 b ->
    is_pow2 (CalculateBlockGobs b s) /\
    CalculateBlockGobs b s <= b /\
    Z.min b s <= CalculateBlockGobs b s.
  Proof.
    intros Hb. unfold CalculateBlockGobs.
    destruct (s >? b) eqn:E.
    - apply Z.gtb_lt in E. repeat split; [exact Hb | lia | lia].
    - assert (Hs : s <= b) by (rewrite Z.gtb_ltb in E; apply Z.ltb_ge in E; exact E).
      split; [|split].
      + apply pow2_is_pow2, Z.log2_up_nonneg.
      + now apply bit_ceil_le_pow2.
      + pose proof (bit_ceil_covers s). lia.
  Qed.

Lemma bit_ceil_tight s : 1 <= s -> bit_ceil s < 2 * s.
  Proof.
    intros Hs. unfold bit_ceil. destruct (Z_lt_le_dec 1 s) as [H1|H1].
    - pose proof (Z.log2_up_spec s H1) as [Hlo _].
      pose proof (Z.log2_up_pos s H1) as Hp.
      replace (Z.log2_up s) with (Z.succ (Z.pred (Z.log2_up s))) by lia.
      rewrite Z.pow_succ_r by lia. lia.
    - assert (s = 1) as -> by lia. reflexivity.
  Qed.

  (** X1. For a power-of-two block size [CalculateBlockGobs] returns a
      power of two that is at most the block size and at least the smaller
      of the block size and the surface size; for a surface that is not
      larger than the block it is the least such power of two. *)
Theorem CalculateBlockGobs_pow2_between :
    forall blockGobs surfaceGobs,
      is_pow2 blockGobs ->
      is_pow2 (CalculateBlockGobs blockGobs surfaceGobs) /\
      CalculateBlockGobs blockGobs surfaceGobs <= blockGobs /\
      Z.min blockGobs surfaceGobs <= CalculateBlockGobs blockGobs surfaceGobs /\
      (1 <= surfaceGobs <= blockGobs ->
       CalculateBlockGobs blockGobs surfaceGobs < 2 * surfaceGobs).
  Proof.
    intros b s Hb. unfold CalculateBlockGobs.
    destruct (s >? b) eqn:E.
    - apply Z.gtb_lt in E. split; [exact Hb|]. split; [lia|]. split; lia.
    - assert (Hs : s <= b) by (rewrite Z.gtb_ltb in E; apply Z.ltb_ge in E; exact E).
      split; [apply pow2_is_pow2, Z.log2_up_nonneg|].
      split; [now apply bit_ceil_le_pow2|].
      split; [pose proof (bit_ceil_covers s); lia|].
      intros [H1 _]. now apply bit_ceil_tight.
  Qed.

  (** *** The size of one level *)

Lemma DivideCeil_mono a a' b : 0 < b -> a <= a' -> DivideCeil a b <= DivideCeil a' b.
  Proof. intros Hb Ha. unfold DivideCeil. apply Z.div_le_mono; lia. Qed.

Lemma AlignUp_mono v v' m : 0 < m -> v <= v' -> AlignUp v m <= AlignUp v' m.
  Proof.
    intros Hm Hv. unfold AlignUp. apply Z.mul_le_mono_nonneg_r; [lia|].
    now apply DivideCeil_mono.
  Qed.

Lemma AlignUp_nonneg v m : 0 < m -> 0 <= v -> 0 <= AlignUp v m.
  Proof. intros Hm Hv. pose proof (AlignUp_bounds v m Hm Hv). lia. Qed.

  (** Rounding up in two steps is rounding up in one. *)
Lemma DivideCeil_DivideCeil a b c :
    0 < b -> 0 < c -> DivideCeil (DivideCeil a b) c = DivideCeil a (b * c).
  Proof.
    intros Hb Hc. unfold DivideCeil.
    replace ((a + b - 1) / b + c - 1) with ((a + b - 1 + (c - 1) * b) / b)
      by (rewrite Z.div_add by lia; ring).
    rewrite Z.div_div by lia. f_equal. ring.
  Qed.

Section OneLevel.
Variables w h d fmtBw fmtBh bpb gbh gbd : Z.
Hypothesis Hw : 0 <= w < 2 ^ 32.
Hypothesis Hh : 0 <= h < 2 ^ 32.
Hypothesis Hd : 0 <= d < 2 ^ 32.
Hypothesis Hfw : 1 <= fmtBw.
Hypothesis Hfh : 1 <= fmtBh.
Hypothesis Hbpb : 0 <= bpb < 2 ^ 32.
Hypothesis Hgh : 1 <= gbh < 2 ^ 32.
Hypothesis Hgd : 1 <= gbd < 2 ^ 32.

Lemma level_parts :
      0 <= DivideCeil w fmtBw < 2 ^ 32 /\
      0 <= DivideCeil h fmtBh < 2 ^ 32 /\
      0 <= DivideCeil w fmtBw * bpb < 2 ^ 64 - 64 /\
      0 <= AlignUp (DivideCeil w fmtBw * bpb) 64 < 2 ^ 64 /\
      0 <= DivideCeil (DivideCeil h fmtBh) (8 * gbh) < 2 ^ 32 /\
      0 <= AlignUp d gbd < 2 ^ 64.
    Proof.
      pose proof (DivideCeil_nonneg w fmtBw ltac:(lia) ltac:(lia)) as HW0.
      pose proof (DivideCeil_le w fmtBw ltac:(lia) ltac:(lia)) as HW1.
      pose proof (DivideCeil_nonneg h fmtBh ltac:(lia) ltac:(lia)) as HH0.
      pose proof (DivideCeil_le h fmtBh ltac:(lia) ltac:(lia)) as HH1.
      pose proof (DivideCeil_nonneg (DivideCeil h fmtBh) (8 * gbh) ltac:(lia) HH0) as HR0.
      pose proof (DivideCeil_le (DivideCeil h fmtBh) (8 * gbh) ltac:(lia) HH0) as HR1.
      assert (HWb : 0 <= DivideCeil w fmtBw * bpb < 2 ^ 64 - 64).
      { split; [apply Z.mul_nonneg_nonneg; lia|].
        apply Z.le_lt_trans with ((2 ^ 32 - 1) * (2 ^ 32 - 1)); [|reflexivity].
        apply Z.mul_le_mono_nonneg; lia. }
      pose proof (AlignUp_bounds (DivideCeil w fmtBw * bpb) 64 ltac:(lia) ltac:(lia)) as HA.
      pose proof (AlignUp_bounds d gbd ltac:(lia) ltac:(lia)) as HD.
      repeat split; lia.
    Qed.

    (** Without wrap-around the six-argument [GetBlockLinearLayerSize] is
        the product of its four factors. *)
Lemma layer_size_exact :
      AlignUp (DivideCeil w fmtBw * bpb) 64 * (8 * gbh)
        * DivideCeil (DivideCeil h fmtBh) (8 * gbh) * AlignUp d gbd < 2 ^ 64 ->
      GetBlockLinearLayerSize (mkDimensions w h d) fmtBw fmtBh bpb gbh gbd
      = AlignUp (DivideCeil w fmtBw * bpb) 64 * (8 * gbh)
        * DivideCeil (DivideCeil h fmtBh) (8 * gbh) * AlignUp d gbd.
    Proof.
      intros Hfit. destruct level_parts as (HW & HH & HWb & HA & HR & HD).
      unfold GetBlockLinearLayerSize, GobWidth, GobHeight. cbn [width height depth].
      rewrite (size_t_small (DivideCeil w fmtBw)) by lia.
      rewrite (size_t_small (DivideCeil w fmtBw * bpb)) by lia.
      rewrite (size_t_small (AlignUp _ 64)) by lia.
      rewrite (size_t_small (8 * gbh)) by lia.
      rewrite (size_t_small (DivideCeil h fmtBh)) by lia.
      rewrite (size_t_small (DivideCeil (DivideCeil h fmtBh) (8 * gbh))) by lia.
      rewrite (size_t_small (AlignUp d gbd)) by lia.
      apply size_t_small. split; [|exact Hfit].
      apply Z.mul_nonneg_nonneg; [|lia].
      apply Z.mul_nonneg_nonneg; [|lia].
      apply Z.mul_nonneg_nonneg; lia.
    Qed.
End OneLevel.

  (** X2. Without wrap-around the size of a block-linear level is a whole
      number of blocks of [64 * 8 * gobBlockHeight * gobBlockDepth] bytes,
      and it is at least the size of the same level with its rows packed. *)
Theorem layer_size_whole_blocks_and_capacity :
    forall w h d fmtBw fmtBh bpb gbh gbd,
      0 <= w < 2 ^ 32 -> 0 <= h < 2 ^ 32 -> 0 <= d < 2 ^ 32 ->
      1 <= fmtBw -> 1 <= fmtBh -> 0 <= bpb < 2 ^ 32 ->
      1 <= gbh < 2 ^ 32 -> 1 <= gbd < 2 ^ 32 ->
      AlignUp (DivideCeil w fmtBw * bpb) 64 * (8 * gbh)
        * DivideCeil (DivideCeil h fmtBh) (8 * gbh) * AlignUp d gbd < 2 ^ 64 ->
      GetBlockLinearLayerSize (mkDimensions w h d) fmtBw fmtBh bpb gbh gbd
        mod (GobWidth * GobHeight * gbh * gbd) = 0 /\
      DivideCeil w fmtBw * bpb * DivideCeil h fmtBh * d
        <= GetBlockLinearLayerSize (mkDimensions w h d) fmtBw fmtBh bpb gbh gbd.
  Proof.
    intros w h d fmtBw fmtBh bpb gbh gbd Hw Hh Hd Hfw Hfh Hbpb Hgh Hgd Hfit.
    rewrite (layer_size_exact w h d fmtBw fmtBh bpb gbh gbd) by assumption.
    destruct (level_parts w h d fmtBw fmtBh bpb gbh gbd) as (HW & HH & HWb & HA & HR & HD);
      try assumption.
    split.
    - unfold AlignUp, GobWidth, GobHeight.
      replace (DivideCeil (DivideCeil w fmtBw * bpb) 64 * 64 * (8 * gbh)
               * DivideCeil (DivideCeil h fmtBh) (8 * gbh) * (DivideCeil d gbd * gbd))
        with (DivideCeil (DivideCeil w fmtBw * bpb) 64
              * DivideCeil (DivideCeil h fmtBh) (8 * gbh) * DivideCeil d gbd
              * (64 * 8 * gbh * gbd)) by ring.
      apply Z.mod_mul. lia.
    - pose proof (AlignUp_bounds (DivideCeil w fmtBw * bpb) 64 ltac:(lia) ltac:(lia)) as HA'.
      pose proof (AlignUp_bounds d gbd ltac:(lia) ltac:(lia)) as HD'.
      pose proof (DivideCeil_bounds (DivideCeil h fmtBh) (8 * gbh) ltac:(lia) ltac:(lia)) as HR'.
      rewrite <- (Z.mul_assoc (AlignUp _ 64)).
      apply Z.mul_le_mono_nonneg; [| | lia | lia].
      + apply Z.mul_nonneg_nonneg; lia.
      + apply Z.mul_le_mono_nonneg; lia.
  Qed.

  (** X3. Without wrap-around the size of a block-linear level does not
      shrink when its width, height or depth grows. *)
Theorem layer_size_monotone :
    forall w h d w' h' d' fmtBw fmtBh bpb gbh gbd,
      0 <= w <= w' -> 0 <= h <= h' -> 0 <= d <= d' ->
      w' < 2 ^ 32 -> h' < 2 ^ 32 -> d' < 2 ^ 32 ->
      1 <= fmtBw -> 1 <= fmtBh -> 0 <= bpb < 2 ^ 32 ->
      1 <= gbh < 2 ^ 32 -> 1 <= gbd < 2 ^ 32 ->
      AlignUp (DivideCeil w' fmtBw * bpb) 64 * (8 * gbh)
        * DivideCeil (DivideCeil h' fmtBh) (8 * gbh) * AlignUp d' gbd < 2 ^ 64 ->
      GetBlockLinearLayerSize (mkDimensions w h d) fmtBw fmtBh bpb gbh gbd
      <= GetBlockLinearLayerSize (mkDimensions w' h' d') fmtBw fmtBh bpb gbh gbd.
  Proof.
    intros w h d w' h' d' fmtBw fmtBh bpb gbh gbd Hw Hh Hd Hw' Hh' Hd' Hfw Hfh Hbpb Hgh Hgd
           Hfit.
    destruct (level_parts w h d fmtBw fmtBh bpb gbh gbd) as (HW & HH & HWb & HA & HR & HD);
      try lia.
    destruct (level_parts w' h' d' fmtBw fmtBh bpb gbh gbd)
      as (HW' & HH' & HWb' & HA' & HR' & HD'); try lia.
    assert (Hle : AlignUp (DivideCeil w fmtBw * bpb) 64 * (8 * gbh)
                    * DivideCeil (DivideCeil h fmtBh) (8 * gbh) * AlignUp d gbd
                  <= AlignUp (DivideCeil w' fmtBw * bpb) 64 * (8 * gbh)
                    * DivideCeil (DivideCeil h' fmtBh) (8 * gbh) * AlignUp d' gbd).
    { apply Z.mul_le_mono_nonneg; [| | lia |apply AlignUp_mono; lia].
      - apply Z.mul_nonneg_nonneg; [|lia]. apply Z.mul_nonneg_nonneg; lia.
      - apply Z.mul_le_mono_nonneg; [| | lia|].
        + apply Z.mul_nonneg_nonneg; lia.
        + apply Z.mul_le_mono_nonneg_r; [lia|]. apply AlignUp_mono; [lia|].
          apply Z.mul_le_mono_nonneg_r; [lia|]. apply DivideCeil_mono; lia.
        + apply DivideCeil_mono; [lia|]. apply DivideCeil_mono; lia. }
    rewrite (layer_size_exact w h d fmtBw fmtBh bpb gbh gbd) by lia.
    rewrite (layer_size_exact w' h' d' fmtBw fmtBh bpb gbh gbd) by lia.
    exact Hle.
  Qed.

  (** X4. For one level and a single layer the eight-argument
      [GetBlockLinearLayerSize], whose format block height comes before the
      width, returns what the six-argument overload returns, when the size
      is representable. *)
Theorem layer_size_overloads_agree :
    forall w h d fmtBw fmtBh bpb gbh gbd,
      0 <= w < 2 ^ 32 -> 0 <= h < 2 ^ 32 -> 0 <= d < 2 ^ 32 ->
      1 <= fmtBw -> 1 <= fmtBh -> 0 <= bpb < 2 ^ 32 ->
      1 <= gbh < 2 ^ 32 -> 1 <= gbd < 2 ^ 32 ->
      AlignUp (DivideCeil w fmtBw * bpb) 64 * (8 * gbh)
        * DivideCeil (DivideCeil h fmtBh) (8 * gbh) * AlignUp d gbd < 2 ^ 64 ->
      GetBlockLinearLayerSizeLevels (mkDimensions w h d) fmtBh fmtBw bpb gbh gbd 1 false
      = GetBlockLinearLayerSize (mkDimensions w h d) fmtBw fmtBh bpb gbh gbd.
  Proof.
    intros w h d fmtBw fmtBh bpb gbh gbd Hw Hh Hd Hfw Hfh Hbpb Hgh Hgd Hfit.
    rewrite (layer_size_exact w h d fmtBw fmtBh bpb gbh gbd) by assumption.
    destruct (level_parts w h d fmtBw fmtBh bpb gbh gbd) as (HW & HH & HWb & HA & HR & HD);
      try assumption.
    unfold GetBlockLinearLayerSizeLevels.
    change (Z.to_nat 1) with 1%nat. cbn [for_loop layer_size_body ls_totalSize ls_gobsWidth
      ls_gobsHeight ls_gobsDepth ls_gobBlockHeight ls_gobBlockDepth width height depth].
    unfold GobWidth, GobHeight.
    pose proof (DivideCeil_nonneg (DivideCeil w fmtBw * bpb) 64 ltac:(lia) ltac:(lia)) as HG0.
    pose proof (DivideCeil_le (DivideCeil w fmtBw * bpb) 64 ltac:(lia) ltac:(lia)) as HG1.
    pose proof (DivideCeil_nonneg (DivideCeil h fmtBh) 8 ltac:(lia) ltac:(lia)) as HG2.
    pose proof (DivideCeil_le (DivideCeil h fmtBh) 8 ltac:(lia) ltac:(lia)) as HG3.
    rewrite (size_t_small (DivideCeil w fmtBw)) by lia.
    rewrite (size_t_small (DivideCeil w fmtBw * bpb)) by lia.
    rewrite (size_t_small (DivideCeil _ 64)) by lia.
    rewrite (size_t_small (DivideCeil h fmtBh)) by lia.
    rewrite (size_t_small (DivideCeil _ 8)) by lia.
    rewrite (size_t_small (AlignUp d gbd)) by lia.
    assert (EH : AlignUp (DivideCeil (DivideCeil h fmtBh) 8) gbh
                 = DivideCeil (DivideCeil h fmtBh) (8 * gbh) * gbh).
    { unfold AlignUp. now rewrite DivideCeil_DivideCeil by lia. }
    rewrite EH.
    rewrite (size_t_small (_ * gbh)).
    2: { split; [apply Z.mul_nonneg_nonneg; lia|].
         apply Z.le_lt_trans with ((2 ^ 32 - 1) * (2 ^ 32 - 1)); [|reflexivity].
         apply Z.mul_le_mono_nonneg; lia. }
    replace (0 + 64 * DivideCeil (DivideCeil w fmtBw * bpb) 64
                 * (8 * (DivideCeil (DivideCeil h fmtBh) (8 * gbh) * gbh)) * AlignUp d gbd)
      with (AlignUp (DivideCeil w fmtBw * bpb) 64 * (8 * gbh)
            * DivideCeil (DivideCeil h fmtBh) (8 * gbh) * AlignUp d gbd)
      by (unfold AlignUp; ring).
    apply size_t_small. split; [|exact Hfit].
    apply Z.mul_nonneg_nonneg; [|lia].
    apply Z.mul_nonneg_nonneg; [|lia].
    apply Z.mul_nonneg_nonneg; lia.
  Qed.

  (** *** The levels of a mip chain *)

Lemma for_loop_iter {St : Type} (step : St -> St) n : forall i s,
    for_loop n i (fun _ => step) s = Nat.iter n step s.
  Proof.
    induction n as [|n IH]; intros i s; [reflexivity|].
    cbn [for_loop]. rewrite IH. symmetry. apply Nat.iter_succ_r.
  Qed.

  (** Halving [k] times, never below 1. *)
Lemma iter_halve k x :
    1 <= x -> Nat.iter k (fun v => Z.max (v / 2) 1) x = Z.max (x / 2 ^ Z.of_nat k) 1.
  Proof.
    intros Hx. induction k as [|k IH].
    - change (Nat.iter 0 (fun v => Z.max (v / 2) 1) x) with x.
      change (2 ^ Z.of_nat 0) with 1. rewrite Z.div_1_r. lia.
    - rewrite Nat.iter_succ, IH. rewrite Nat2Z.inj_succ, Z.pow_succ_r by lia.
      assert (Hp : 0 < 2 ^ Z.of_nat k) by (apply Z.pow_pos_nonneg; lia).
      rewrite (Z.mul_comm 2), <- Z.div_div by lia.
      pose proof (Z.div_pos x (2 ^ Z.of_nat k) ltac:(lia) Hp) as Hq.
      destruct (Z_lt_le_dec (x / 2 ^ Z.of_nat k) 1) as [Hlt|Hge].
      + assert (E0 : x / 2 ^ Z.of_nat k = 0) by lia. rewrite E0. reflexivity.
      + rewrite (Z.max_l _ 1 Hge). reflexivity.
  Qed.

Section MipLevels.
Variables formatBlockHeight formatBlockWidth formatBpb : Z.
Variables targetFormatBlockHeight targetFormatBlockWidth targetFormatBpb : Z.
Variable s0 : MipState.
Hypothesis Hempty : ms_mipLevels s0 = [].

Let step := mip_layout_body formatBlockHeight formatBlockWidth formatBpb
                  targetFormatBlockHeight targetFormatBlockWidth targetFormatBpb 0.

Lemma mip_loop_iter n i :
      for_loop n i (mip_layout_body formatBlockHeight formatBlockWidth formatBpb
                      targetFormatBlockHeight targetFormatBlockWidth targetFormatBpb) s0
      = Nat.iter n step s0.
    Proof. apply (for_loop_iter step). Qed.

Lemma mip_levels_length k : length (ms_mipLevels (Nat.iter k step s0)) = k.
    Proof.
      induction k as [|k IH]; [cbn; now rewrite Hempty|].
      rewrite Nat.iter_succ. unfold step at 1, mip_layout_body. cbn [ms_mipLevels].
      rewrite length_app, IH. cbn. lia.
    Qed.

Lemma mip_levels_prefix n : forall k, (k <= n)%nat ->
      exists new, ms_mipLevels (Nat.iter n step s0) = ms_mipLevels (Nat.iter k step s0) ++ new.
    Proof.
      induction n as [|n IH]; intros k Hk.
      - assert (k = 0%nat) as -> by lia. exists []. now rewrite app_nil_r.
      - destruct (Nat.eq_dec k (S n)) as [->|Hne]; [exists []; now rewrite app_nil_r|].
        destruct (IH k ltac:(lia)) as (new & E).
        rewrite Nat.iter_succ. unfold step at 1, mip_layout_body. cbn [ms_mipLevels].
        rewrite E, <- app_assoc. eexists. reflexivity.
    Qed.

    (** The descriptor of level [k] is built from the loop's state after
        [k] rounds. *)
Lemma mip_level_of_state n k :
      (k < n)%nat ->
      let s := Nat.iter k step s0 in
      exists lv,
        nth_error (ms_mipLevels (Nat.iter n step s0)) k = Some lv /\
        dimensions lv = ms_dimensions s /\
        blockHeight lv = ms_gobBlockHeight s /\
        blockDepth lv = ms_gobBlockDepth s /\
        linearSize lv
        = size_t (size_t (DivideCeil (width (ms_dimensions s)) formatBlockWidth) * formatBpb
                  * size_t (DivideCeil (height (ms_dimensions s)) formatBlockHeight)
                  * depth (ms_dimensions s)) /\
        (targetFormatBpb = 0 -> targetLinearSize lv = linearSize lv).
    Proof.
      intros Hk. cbv zeta. destruct (mip_levels_prefix n (S k) ltac:(lia)) as (new & E).
      rewrite E, Nat.iter_succ. unfold step at 1, mip_layout_body.
      cbn [ms_mipLevels]. rewrite <- app_assoc.
      rewrite nth_error_app2 by (rewrite mip_levels_length; lia).
      rewrite mip_levels_length, Nat.sub_diag. cbn [app nth_error].
      eexists. split; [reflexivity|]. cbn [dimensions blockHeight blockDepth linearSize
                                           targetLinearSize].
      repeat split. intros ->. reflexivity.
    Qed.

Lemma mip_dimensions_after k :
      1 <= width (ms_dimensions s0) -> 1 <= height (ms_dimensions s0) ->
      1 <= depth (ms_dimensions s0) ->
      ms_dimensions (Nat.iter k step s0)
      = mkDimensions (Z.max (width (ms_dimensions s0) / 2 ^ Z.of_nat k) 1)
                     (Z.max (height (ms_dimensions s0) / 2 ^ Z.of_nat k) 1)
                     (Z.max (depth (ms_dimensions s0) / 2 ^ Z.of_nat k) 1).
    Proof.
      intros Hw Hh Hd.
      rewrite <- (iter_halve k _ Hw), <- (iter_halve k _ Hh), <- (iter_halve k _ Hd).
      induction k as [|k IH]; [unfold Nat.iter; cbn [nat_rect]; now destruct (ms_dimensions s0)|].
      rewrite !Nat.iter_succ. unfold step at 1, mip_layout_body. cbn [ms_dimensions].
      rewrite IH. reflexivity.
    Qed.

Lemma step_blockHeight s :
      ms_gobBlockHeight (step s)
      = CalculateBlockGobs (ms_gobBlockHeight s) (Z.max (ms_gobsHeight s / 2) 1).
    Proof. reflexivity. Qed.

Lemma step_blockDepth s :
      ms_gobBlockDepth (step s)
      = CalculateBlockGobs (ms_gobBlockDepth s) (Z.max (depth (ms_dimensions s) / 2) 1).
    Proof. reflexivity. Qed.

    (** The block sizes stay powers of two and never grow. *)
Lemma mip_blocks_after k :
      is_pow2 (ms_gobBlockHeight s0) -> is_pow2 (ms_gobBlockDepth s0) ->
      is_pow2 (ms_gobBlockHeight (Nat.iter k step s0)) /\
      is_pow2 (ms_gobBlockDepth (Nat.iter k step s0)) /\
      forall j, (j <= k)%nat ->
        ms_gobBlockHeight (Nat.iter k step s0) <= ms_gobBlockHeight (Nat.iter j step s0) /\
        ms_gobBlockDepth (Nat.iter k step s0) <= ms_gobBlockDepth (Nat.iter j step s0).
    Proof.
      intros Hh Hd. induction k as [|k (IHh & IHd & IHle)].
      - split; [exact Hh|]. split; [exact Hd|]. intros j Hj.
        assert (j = 0%nat) as -> by lia. lia.
      - rewrite Nat.iter_succ.
        pose proof (step_blockHeight (Nat.iter k step s0)) as Eh.
        pose proof (step_blockDepth (Nat.iter k step s0)) as Ed.
        destruct (CalculateBlockGobs_between (ms_gobBlockHeight (Nat.iter k step s0))
                    (Z.max (ms_gobsHeight (Nat.iter k step s0) / 2) 1) IHh) as (Ph & Lh & _).
        destruct (CalculateBlockGobs_between (ms_gobBlockDepth (Nat.iter k step s0))
                    (Z.max (depth (ms_dimensions (Nat.iter k step s0)) / 2) 1) IHd)
          as (Pd & Ld & _).
        rewrite <- Eh in Ph, Lh. rewrite <- Ed in Pd, Ld.
        split; [exact Ph|]. split; [exact Pd|]. intros j Hj.
        destruct (Nat.eq_dec j (S k)) as [->|Hne].
        + rewrite Nat.iter_succ. lia.
        + destruct (IHle j ltac:(lia)) as [L1 L2]. lia.
    Qed.
Lemma mip_level_size_of_state n k :
      (k < n)%nat ->
      let s := Nat.iter k step s0 in
      exists lv,
        nth_error (ms_mipLevels (Nat.iter n step s0)) k = Some lv /\
        blockLinearSize lv
        = size_t ((GobWidth * ms_gobsWidth s)
                  * (GobHeight * size_t (AlignUp (ms_gobsHeight s) (ms_gobBlockHeight s)))
                  * size_t (AlignUp (depth (ms_dimensions s)) (ms_gobBlockDepth s))).
    Proof.
      intros Hk. cbv zeta. destruct (mip_levels_prefix n (S k) ltac:(lia)) as (new & E).
      rewrite E, Nat.iter_succ. unfold step at 1, mip_layout_body.
      cbn [ms_mipLevels]. rewrite <- app_assoc.
      rewrite nth_error_app2 by (rewrite mip_levels_length; lia).
      rewrite mip_levels_length, Nat.sub_diag. cbn [app nth_error].
      eexists. split; reflexivity.
    Qed.

Lemma mip_gobs_after k :
      1 <= ms_gobsWidth s0 -> 1 <= ms_gobsHeight s0 ->
      ms_gobsWidth (Nat.iter k step s0) = Z.max (ms_gobsWidth s0 / 2 ^ Z.of_nat k) 1 /\
      ms_gobsHeight (Nat.iter k step s0) = Z.max (ms_gobsHeight s0 / 2 ^ Z.of_nat k) 1.
    Proof.
      intros Hw Hh. rewrite <- (iter_halve k _ Hw), <- (iter_halve k _ Hh).
      induction k as [|k [IH1 IH2]]; [split; reflexivity|].
      rewrite !Nat.iter_succ. unfold step at 1 3, mip_layout_body.
      cbn [ms_gobsWidth ms_gobsHeight]. rewrite IH1, IH2. split; reflexivity.
    Qed.
End MipLevels.

  (** X5. When the three dimensions are at least 1, the descriptor of mip
      level [k] has each dimension of the texture divided by [2^k], never
      below 1; its linear size is that of these dimensions with the rows
      packed, and its target linear size is the same when no target format
      is given. *)
Theorem mip_level_dimensions :
    forall w h d fmtBh fmtBw bpb tfmtBh tfmtBw tbpb gbh gbd levelCount k,
      1 <= w -> 1 <= h -> 1 <= d -> (k < Z.to_nat levelCount)%nat ->
      exists lv,
        nth_error (GetBlockLinearMipLayout (mkDimensions w h d) fmtBh fmtBw bpb
                     tfmtBh tfmtBw tbpb gbh gbd levelCount) k = Some lv /\
        dimensions lv = mkDimensions (Z.max (w / 2 ^ Z.of_nat k) 1)
                                     (Z.max (h / 2 ^ Z.of_nat k) 1)
                                     (Z.max (d / 2 ^ Z.of_nat k) 1) /\
        linearSize lv
        = size_t (size_t (DivideCeil (width (dimensions lv)) fmtBw) * bpb
                  * size_t (DivideCeil (height (dimensions lv)) fmtBh)
                  * depth (dimensions lv)) /\
        (tbpb = 0 -> targetLinearSize lv = linearSize lv).
  Proof.
    intros w h d fmtBh fmtBw bpb tfmtBh tfmtBw tbpb gbh gbd levelCount k Hw Hh Hd Hk.
    unfold GetBlockLinearMipLayout. rewrite mip_loop_iter.
    match goal with |- context [Nat.iter _ _ ?s] => set (s0 := s) end.
    destruct (mip_level_of_state fmtBh fmtBw bpb tfmtBh tfmtBw tbpb s0 eq_refl
                (Z.to_nat levelCount) k Hk) as (lv & Hn & Ed & _ & _ & El & Et).
    exists lv. split; [exact Hn|].
    rewrite (mip_dimensions_after fmtBh fmtBw bpb tfmtBh tfmtBw tbpb s0 k) in Ed, El
      by (cbn; lia).
    cbn [ms_dimensions s0 width height depth] in Ed, El.
    split; [exact Ed|]. split; [|exact Et].
    rewrite Ed. cbn [width height depth]. exact El.
  Qed.

  (** X6. With power-of-two GOB block height and depth, the block height
      and depth of every mip level are powers of two, and from one level
      to a later one they never grow. *)
Theorem mip_block_sizes_shrink :
    forall dims fmtBh fmtBw bpb tfmtBh tfmtBw tbpb gbh gbd levelCount i j li lj,
      is_pow2 gbh -> is_pow2 gbd -> (i <= j)%nat ->
      nth_error (GetBlockLinearMipLayout dims fmtBh fmtBw bpb tfmtBh tfmtBw tbpb
                   gbh gbd levelCount) i = Some li ->
      nth_error (GetBlockLinearMipLayout dims fmtBh fmtBw bpb tfmtBh tfmtBw tbpb
                   gbh gbd levelCount) j = Some lj ->
      is_pow2 (blockHeight lj) /\ is_pow2 (blockDepth lj) /\
      blockHeight lj <= blockHeight li <= gbh /\
      blockDepth lj <= blockDepth li <= gbd.
  Proof.
    intros dims fmtBh fmtBw bpb tfmtBh tfmtBw tbpb gbh gbd levelCount i j li lj Hgh Hgd Hij.
    unfold GetBlockLinearMipLayout. rewrite mip_loop_iter.
    match goal with |- context [Nat.iter _ _ ?s] => set (s0 := s) end.
    intros Hi Hj.
    assert (Hjn : (j < Z.to_nat levelCount)%nat).
    { rewrite <- (mip_levels_length fmtBh fmtBw bpb tfmtBh tfmtBw tbpb s0 eq_refl
                    (Z.to_nat levelCount)).
      apply nth_error_Some. rewrite Hj. discriminate. }
    destruct (mip_level_of_state fmtBh fmtBw bpb tfmtBh tfmtBw tbpb s0 eq_refl
                (Z.to_nat levelCount) i ltac:(lia)) as (li' & Hi' & _ & Ehi & Edi & _).
    destruct (mip_level_of_state fmtBh fmtBw bpb tfmtBh tfmtBw tbpb s0 eq_refl
                (Z.to_nat levelCount) j Hjn) as (lj' & Hj' & _ & Ehj & Edj & _).
    rewrite Hi in Hi'. injection Hi' as <-. rewrite Hj in Hj'. injection Hj' as <-.
    destruct (mip_blocks_after fmtBh fmtBw bpb tfmtBh tfmtBw tbpb s0 j Hgh Hgd)
      as (Pj & Qj & Lj).
    destruct (mip_blocks_after fmtBh fmtBw bpb tfmtBh tfmtBw tbpb s0 i Hgh Hgd)
      as (_ & _ & Li).
    destruct (Lj i Hij) as [L1 L2]. destruct (Li 0%nat ltac:(lia)) as [L3 L4].
    rewrite Ehi, Ehj, Edi, Edj. cbn [Nat.iter nat_rect s0 ms_gobBlockHeight ms_gobBlockDepth]
      in L3, L4.
    split; [exact Pj|]. split; [exact Qj|]. split; split; assumption.
  Qed.

  (** X7. The block-linear size of mip level [k] is computed from the GOB
      counts of the texture halved [k] times, never below 1, and from the
      depth and the block sizes of that level. *)
Theorem mip_level_block_linear_size :
    forall w h d fmtBh fmtBw bpb tfmtBh tfmtBw tbpb gbh gbd levelCount k,
      1 <= w < 2 ^ 32 -> 1 <= h < 2 ^ 32 -> 1 <= fmtBw -> 1 <= fmtBh -> 1 <= bpb < 2 ^ 32 ->
      (k < Z.to_nat levelCount)%nat ->
      let gobsWidth := DivideCeil (DivideCeil w fmtBw * bpb) GobWidth in
      let gobsHeight := DivideCeil (DivideCeil h fmtBh) GobHeight in
      exists lv,
        nth_error (GetBlockLinearMipLayout (mkDimensions w h d) fmtBh fmtBw bpb
                     tfmtBh tfmtBw tbpb gbh gbd levelCount) k = Some lv /\
        blockLinearSize lv
        = size_t ((GobWidth * Z.max (gobsWidth / 2 ^ Z.of_nat k) 1)
                  * (GobHeight * size_t (AlignUp (Z.max (gobsHeight / 2 ^ Z.of_nat k) 1)
                                           (blockHeight lv)))
                  * size_t (AlignUp (depth (dimensions lv)) (blockDepth lv))).
  Proof.
    intros w h d fmtBh fmtBw bpb tfmtBh tfmtBw tbpb gbh gbd levelCount k Hw Hh Hfw Hfh Hbpb Hk
           gobsWidth gobsHeight.
    unfold GetBlockLinearMipLayout. rewrite mip_loop_iter. cbn [width height].
    pose proof (DivideCeil_pos w fmtBw ltac:(lia) ltac:(lia)) as HW0.
    pose proof (DivideCeil_le w fmtBw ltac:(lia) ltac:(lia)) as HW1.
    pose proof (DivideCeil_pos h fmtBh ltac:(lia) ltac:(lia)) as HH0.
    pose proof (DivideCeil_le h fmtBh ltac:(lia) ltac:(lia)) as HH1.
    assert (HWb : 0 < DivideCeil w fmtBw * bpb < 2 ^ 64).
    { split; [apply Z.mul_pos_pos; lia|].
      apply Z.le_lt_trans with ((2 ^ 32 - 1) * (2 ^ 32 - 1)); [|reflexivity].
      apply Z.mul_le_mono_nonneg; lia. }
    pose proof (DivideCeil_pos (DivideCeil w fmtBw * bpb) 64 ltac:(lia) ltac:(lia)) as HG0.
    pose proof (DivideCeil_le (DivideCeil w fmtBw * bpb) 64 ltac:(lia) ltac:(lia)) as HG1.
    pose proof (DivideCeil_pos (DivideCeil h fmtBh) 8 ltac:(lia) ltac:(lia)) as HG2.
    pose proof (DivideCeil_le (DivideCeil h fmtBh) 8 ltac:(lia) ltac:(lia)) as HG3.
    unfold GobWidth, GobHeight in *.
    rewrite (size_t_small (DivideCeil w fmtBw)) by lia.
    rewrite (size_t_small (DivideCeil w fmtBw * bpb)) by lia.
    rewrite (size_t_small (DivideCeil _ 64)) by lia.
    rewrite (size_t_small (DivideCeil h fmtBh)) by lia.
    rewrite (size_t_small (DivideCeil _ 8)) by lia.
    fold gobsWidth gobsHeight.
    match goal with |- context [Nat.iter _ _ ?s] => set (s0 := s) end.
    destruct (mip_level_size_of_state fmtBh fmtBw bpb tfmtBh tfmtBw tbpb s0 eq_refl
                (Z.to_nat levelCount) k Hk) as (lv & Hn & Es).
    destruct (mip_level_of_state fmtBh fmtBw bpb tfmtBh tfmtBw tbpb s0 eq_refl
                (Z.to_nat levelCount) k Hk) as (lv' & Hn' & Ed & Ebh & Ebd & _).
    rewrite Hn in Hn'. injection Hn' as <-.
    destruct (mip_gobs_after fmtBh fmtBw bpb tfmtBh tfmtBw tbpb s0 k) as [Ew Eh];
      [cbn; unfold gobsWidth; lia | cbn; unfold gobsHeight; lia |].
    exists lv. split; [exact Hn|].
    rewrite Es, Ew, Eh, Ed, Ebh, Ebd. reflexivity.
  Qed.

End SizeExtras.

(** ** Loops as lists of moves *)

Module MoveFacts.
Import util layout aux UtilFacts.

Lemma for_loop_ext {S : Type} (f g : Z -> S -> S) :
    (forall i s, f i s = g i s) ->
    forall n i s, for_loop n i f s = for_loop n i g s.
  Proof.
    intros Hfg. induction n as [|n IH]; intros i s; cbn [for_loop]; [reflexivity|].
    now rewrite Hfg, IH.
  Qed.

Lemma run_moves_app dir l1 l2 m :
    run_moves dir (l1 ++ l2) m = run_moves dir l2 (run_moves dir l1 m).
  Proof. unfold run_moves. apply fold_left_app. Qed.

Lemma loop_moves_S {P : Type} (step : P -> P) M n i p :
    loop_moves step M (S n) i p = M i p ++ loop_moves step M n (i + 1) (step p).
  Proof.
    unfold loop_moves. cbn [seq flat_map]. rewrite Z.add_0_r. cbn [Nat.iter]. f_equal.
    rewrite <- seq_shift, flat_map_concat_map, map_map, <- flat_map_concat_map.
    apply flat_map_ext. intros j. f_equal; [lia|]. apply Nat.iter_succ_r.
  Qed.

  (** A loop whose body performs the moves [M j p] and advances the pointer
      state performs [loop_moves]. *)
Lemma for_loop_moves {P : Type} dir (step : P -> P) (M : Z -> P -> list move) n :
    forall i p m,
      for_loop n i (fun j st => (step (fst st), run_moves dir (M j (fst st)) (snd st))) (p, m)
      = (Nat.iter n step p, run_moves dir (loop_moves step M n i p) m).
  Proof.
    induction n as [|n IH]; intros i p m.
    - reflexivity.
    - cbn [for_loop fst snd]. rewrite IH, loop_moves_S, run_moves_app. f_equal.
      symmetry. apply Nat.iter_succ_r.
  Qed.

Lemma iter_add n c p : Nat.iter n (fun q => q + c) p = p + Z.of_nat n * c.
  Proof.
    induction n as [|n IH]; [cbn; lia|]. rewrite Nat.iter_succ, IH. lia.
  Qed.

Lemma iter_add2 n c1 c2 p1 p2 :
    Nat.iter n (fun q : Z * Z => (fst q + c1, snd q + c2)) (p1, p2)
    = (p1 + Z.of_nat n * c1, p2 + Z.of_nat n * c2).
  Proof.
    induction n as [|n IH]; [cbn; f_equal; lia|]. rewrite Nat.iter_succ, IH.
    cbn [fst snd]. f_equal; lia.
  Qed.

  (** *** Reading a buffer after a list of moves *)

Lemma last_to_app a l1 l2 :
    last_to a (l1 ++ l2) = match last_to a l2 with Some x => Some x | None => last_to a l1 end.
  Proof.
    induction l1 as [|[t f] l1 IH]; cbn [app last_to].
    - now destruct (last_to a l2).
    - rewrite IH. now destruct (last_to a l2).
  Qed.

Lemma last_to_range a s d k :
    last_to a (map (fun j => (s + Z.of_nat j, d + Z.of_nat j)) (seq 0 k))
    = if (s <=? a) && (a <? s + Z.of_nat k) then Some (d + (a - s)) else None.
  Proof.
    induction k as [|k IH].
    - cbn. destruct (s <=? a) eqn:E1, (a <? s + 0) eqn:E2; try reflexivity. lia.
    - rewrite seq_S, map_app, last_to_app. cbn [map last_to Nat.add]. rewrite IH.
      destruct (s + Z.of_nat k =? a) eqn:E.
      + apply Z.eqb_eq in E.
        replace ((s <=? a) && (a <? s + Z.of_nat (S k))) with true
          by (symmetry; apply andb_true_iff; split; [apply Z.leb_le | apply Z.ltb_lt]; lia).
        f_equal. lia.
      + apply Z.eqb_neq in E.
        destruct (s <=? a) eqn:E1; cbn [andb]; [|reflexivity].
        apply Z.leb_le in E1.
        destruct (a <? s + Z.of_nat k) eqn:E2.
        * apply Z.ltb_lt in E2.
          replace (a <? s + Z.of_nat (S k)) with true by (symmetry; apply Z.ltb_lt; lia).
          reflexivity.
        * apply Z.ltb_ge in E2.
          replace (a <? s + Z.of_nat (S k)) with false by (symmetry; apply Z.ltb_ge; lia).
          reflexivity.
  Qed.

Lemma zrange_nat n : spec.zrange (Z.of_nat n) = map Z.of_nat (seq 0 n).
  Proof. unfold spec.zrange. now rewrite Nat2Z.id. Qed.

Lemma last_to_move_bytes a s d n :
    last_to a (move_bytes (s, d, n))
    = if (s <=? a) && (a <? s + n) then Some (d + (a - s)) else None.
  Proof.
    unfold move_bytes, spec.zrange. rewrite map_map, last_to_range.
    destruct (Z_le_gt_dec 0 n) as [Hn|Hn].
    - now rewrite Z2Nat.id by lia.
    - replace (Z.to_nat n) with 0%nat by lia.
      destruct (s <=? a) eqn:E1; cbn [andb]; [|reflexivity]. apply Z.leb_le in E1.
      replace (a <? s + Z.of_nat 0) with false by (symmetry; apply Z.ltb_ge; lia).
      replace (a <? s + n) with false by (symmetry; apply Z.ltb_ge; lia).
      reflexivity.
  Qed.

Lemma last_to_swap_move_bytes a s d n :
    last_to a (map swap (move_bytes (s, d, n)))
    = if (d <=? a) && (a <? d + n) then Some (s + (a - d)) else None.
  Proof.
    rewrite <- (last_to_move_bytes a d s n). unfold move_bytes.
    rewrite map_map. reflexivity.
  Qed.

  (** Pitch to block-linear: the pitch buffer is unchanged and every
      block-linear byte is the source of the last byte move that wrote it. *)
Lemma run_moves_to_blockLinear ms : forall m,
    pitchMem (run_moves false ms m) = pitchMem m /\
    forall a, blockLinearMem (run_moves false ms m) a
              = after_bytes (pitchMem m) (byte_moves ms) (blockLinearMem m) a.
  Proof.
    induction ms as [|[[s d] n] ms IH]; intros m.
    - split; reflexivity.
    - change (run_moves false ((s, d, n) :: ms) m)
        with (run_moves false ms (copy_range false n s d m)).
      destruct (IH (copy_range false n s d m)) as [IHp IHb].
      split; [rewrite IHp; reflexivity|].
      intros a. rewrite IHb. unfold after_bytes.
      change (byte_moves ((s, d, n) :: ms)) with (move_bytes (s, d, n) ++ byte_moves ms).
      rewrite last_to_app.
      destruct (last_to a (byte_moves ms)); [reflexivity|].
      rewrite last_to_move_bytes. cbn [copy_range blockLinearMem]. unfold copy_bytes.
      now destruct ((s <=? a) && (a <? s + n)).
  Qed.

  (** Block-linear to pitch: the symmetric statement. *)
Lemma run_moves_to_pitch ms : forall m,
    blockLinearMem (run_moves true ms m) = blockLinearMem m /\
    forall a, pitchMem (run_moves true ms m) a
              = after_bytes (blockLinearMem m) (map swap (byte_moves ms)) (pitchMem m) a.
  Proof.
    induction ms as [|[[s d] n] ms IH]; intros m.
    - split; reflexivity.
    - change (run_moves true ((s, d, n) :: ms) m)
        with (run_moves true ms (copy_range true n s d m)).
      destruct (IH (copy_range true n s d m)) as [IHp IHb].
      split; [rewrite IHp; reflexivity|].
      intros a. rewrite IHb. unfold after_bytes.
      change (byte_moves ((s, d, n) :: ms)) with (move_bytes (s, d, n) ++ byte_moves ms).
      rewrite map_app, last_to_app.
      destruct (last_to a (map swap (byte_moves ms))); [reflexivity|].
      rewrite last_to_swap_move_bytes. cbn [copy_range pitchMem]. unfold copy_bytes.
      now destruct ((d <=? a) && (a <? d + n)).
  Qed.

  (** Two lists of element moves with the same byte moves leave the same
      buffers. *)
Lemma run_moves_same_bytes dir ms1 ms2 m :
    byte_moves ms1 = byte_moves ms2 ->
    forall a, blockLinearMem (run_moves dir ms1 m) a = blockLinearMem (run_moves dir ms2 m) a
           /\ pitchMem (run_moves dir ms1 m) a = pitchMem (run_moves dir ms2 m) a.
  Proof.
    intros Hb a. destruct dir.
    - destruct (run_moves_to_pitch ms1 m) as [H1 H1'], (run_moves_to_pitch ms2 m) as [H2 H2'].
      rewrite H1, H2, H1', H2', Hb. split; reflexivity.
    - destruct (run_moves_to_blockLinear ms1 m) as [H1 H1'],
               (run_moves_to_blockLinear ms2 m) as [H2 H2'].
      rewrite H1, H2, H1', H2', Hb. split; reflexivity.
  Qed.

End MoveFacts.

(** ** The copy loops as lists of moves *)

Module LoopFacts.
Import util layout aux UtilFacts MoveFacts.

Lemma flat_map_single {A B : Type} (f : A -> B) l :
    flat_map (fun x => [f x]) l = map f l.
  Proof. induction l as [|x l IH]; cbn; [reflexivity | now rewrite IH]. Qed.

Lemma flat_map_ext_in {A B : Type} (f g : A -> list B) l :
    (forall x, In x l -> f x = g x) -> flat_map f l = flat_map g l.
  Proof.
    induction l as [|x l IH]; intros H; cbn; [reflexivity|].
    rewrite (H x (or_introl eq_refl)), IH; [reflexivity|].
    intros y Hy. apply H. now right.
  Qed.

Ltac loop_to_moves dir step M n p m :=
    let E := fresh "E" in
    pose proof (for_loop_moves dir step M n 0 p m) as E; cbv beta in E; rewrite E; clear E.

Lemma copyTextureSubrect_pixels_moves dir W bpb blockSize ox YZ po m :
    copyTextureSubrect_pixels dir W bpb blockSize ox YZ po m
    = run_moves dir (code_row bpb blockSize ox YZ po (Z.to_nat W)) m.
  Proof.
    unfold copyTextureSubrect_pixels.
    rewrite (for_loop_ext _
      (fun j st => (fst st + bpb,
                    run_moves dir [(YZ + code_x blockSize (size_t (ox + j * bpb)), fst st, sizeof_element bpb)]
                      (snd st)))).
    2: { intros i [p b]. cbn [fst snd run_moves fold_left]. unfold copy_element.
         f_equal. f_equal. unfold code_x, code_gob_x. lia. }
    loop_to_moves dir (fun q => q + bpb)
      (fun (j p : Z) => [(YZ + code_x blockSize (size_t (ox + j * bpb)), p, sizeof_element bpb)])
      (Z.to_nat W) po m.
    cbn [snd]. f_equal.
    unfold loop_moves, code_row. rewrite flat_map_single.
    apply map_ext. intros x. now rewrite iter_add, Z.add_0_l.
  Qed.

Lemma copyTexture_pixels_moves dir W bpb blockSize YZ po m :
    copyTexture_pixels dir W bpb blockSize YZ po m
    = run_moves dir (code_row bpb blockSize 0 YZ po (Z.to_nat W)) m.
  Proof.
    unfold copyTexture_pixels.
    rewrite (for_loop_ext _
      (fun j st => (fst st + bpb,
                    run_moves dir [(YZ + code_x blockSize (size_t (j * bpb)), fst st, sizeof_element bpb)]
                      (snd st)))).
    2: { intros i [p b]. cbn [fst snd run_moves fold_left]. unfold copy_element.
         f_equal. f_equal. unfold code_x, code_gob_x. lia. }
    loop_to_moves dir (fun q => q + bpb)
      (fun (j p : Z) => [(YZ + code_x blockSize (size_t (j * bpb)), p, sizeof_element bpb)])
      (Z.to_nat W) po m.
    cbn [snd]. f_equal.
    unfold loop_moves, code_row. rewrite flat_map_single.
    apply map_ext. intros x. now rewrite iter_add, !Z.add_0_l.
  Qed.

Lemma copyTextureSubrect_lines_moves dir W H bpb A robHeight alignedDepth pitchBytes
      blockSize ox oy bl po m :
    copyTextureSubrect_lines dir W H bpb A robHeight alignedDepth pitchBytes blockSize
      ox oy bl po m
    = (po + Z.of_nat (Z.to_nat H) * pitchBytes,
       run_moves dir (code_slice bpb blockSize A robHeight alignedDepth pitchBytes ox oy bl po
                        (Z.to_nat W) (Z.to_nat H)) m).
  Proof.
    unfold copyTextureSubrect_lines.
    rewrite (for_loop_ext _
      (fun j st => (fst st + pitchBytes,
                    run_moves dir
                      (code_row bpb blockSize ox
                         (bl + code_yz A robHeight alignedDepth (size_t (oy + j)))
                         (fst st) (Z.to_nat W)) (snd st)))).
    2: { intros i [p b]. cbn [fst snd]. rewrite copyTextureSubrect_pixels_moves.
         f_equal. f_equal. f_equal. unfold code_yz. lia. }
    loop_to_moves dir (fun q => q + pitchBytes)
      (fun (j p : Z) => code_row bpb blockSize ox
                          (bl + code_yz A robHeight alignedDepth (size_t (oy + j)))
                          p (Z.to_nat W))
      (Z.to_nat H) po m.
    rewrite iter_add. f_equal. f_equal.
    unfold loop_moves, code_slice. apply flat_map_ext. intros y.
    now rewrite iter_add, Z.add_0_l.
  Qed.

  (** In [CopyBlockLinearInternal] the line is used as it is; it is below
      [2^64] like the height. *)
Lemma copyTexture_lines_moves dir W H bpb A robHeight alignedDepth pitchBytes
      blockSize bl po m :
    H <= 2 ^ 64 ->
    copyTexture_lines dir W H bpb A robHeight alignedDepth pitchBytes blockSize bl po m
    = (po + Z.of_nat (Z.to_nat H) * pitchBytes,
       run_moves dir (code_slice bpb blockSize A robHeight alignedDepth pitchBytes 0 0 bl po
                        (Z.to_nat W) (Z.to_nat H)) m).
  Proof.
    intros HH. unfold copyTexture_lines.
    rewrite (for_loop_ext _
      (fun j st => (fst st + pitchBytes,
                    run_moves dir
                      (code_row bpb blockSize 0 (bl + code_yz A robHeight alignedDepth j)
                         (fst st) (Z.to_nat W)) (snd st)))).
    2: { intros i [p b]. cbn [fst snd]. rewrite copyTexture_pixels_moves.
         f_equal. f_equal. f_equal. unfold code_yz. lia. }
    loop_to_moves dir (fun q => q + pitchBytes)
      (fun (j p : Z) => code_row bpb blockSize 0 (bl + code_yz A robHeight alignedDepth j)
                          p (Z.to_nat W))
      (Z.to_nat H) po m.
    rewrite iter_add. f_equal. f_equal.
    unfold loop_moves, code_slice. apply flat_map_ext_in. intros y Hy.
    apply in_seq in Hy.
    rewrite iter_add, !Z.add_0_l. rewrite size_t_small by lia. reflexivity.
  Qed.

Lemma copyTextureSubrect_moves dir D W H bpb A robHeight alignedDepth pitchBytes blockSize
      ox oy gbh bl po m :
    copyTextureSubrect dir D W H bpb A robHeight alignedDepth pitchBytes blockSize
      ox oy gbh bl po m
    = run_moves dir (code_moves bpb blockSize A robHeight alignedDepth pitchBytes gbh ox oy
                       bl po (Z.to_nat W) (Z.to_nat H) (Z.to_nat D)) m.
  Proof.
    unfold copyTextureSubrect.
    rewrite (for_loop_ext _
      (fun j st => ((fst (fst st) + size_t (GobHeight * GobWidth * gbh),
                     snd (fst st) + Z.of_nat (Z.to_nat H) * pitchBytes),
                    run_moves dir
                      (code_slice bpb blockSize A robHeight alignedDepth pitchBytes ox oy
                         (fst (fst st)) (snd (fst st)) (Z.to_nat W) (Z.to_nat H)) (snd st)))).
    2: { intros i [[b p] mm]. cbn [fst snd]. now rewrite copyTextureSubrect_lines_moves. }
    loop_to_moves dir
      (fun q : Z * Z => (fst q + size_t (GobHeight * GobWidth * gbh),
                         snd q + Z.of_nat (Z.to_nat H) * pitchBytes))
      (fun (j : Z) (p : Z * Z) =>
         code_slice bpb blockSize A robHeight alignedDepth pitchBytes ox oy
           (fst p) (snd p) (Z.to_nat W) (Z.to_nat H))
      (Z.to_nat D) (bl, po) m.
    cbn [snd]. f_equal.
    unfold loop_moves, code_moves. apply flat_map_ext. intros z.
    now rewrite iter_add2.
  Qed.

Lemma copyTexture_moves dir D W H bpb A robHeight alignedDepth pitchBytes blockSize
      gbh bl po m :
    H <= 2 ^ 64 ->
    copyTexture dir D W H bpb A robHeight alignedDepth pitchBytes blockSize gbh bl po m
    = run_moves dir (code_moves bpb blockSize A robHeight alignedDepth pitchBytes gbh 0 0
                       bl po (Z.to_nat W) (Z.to_nat H) (Z.to_nat D)) m.
  Proof.
    intros HH. unfold copyTexture.
    rewrite (for_loop_ext _
      (fun j st => ((fst (fst st) + size_t (GobHeight * GobWidth * gbh),
                     snd (fst st) + Z.of_nat (Z.to_nat H) * pitchBytes),
                    run_moves dir
                      (code_slice bpb blockSize A robHeight alignedDepth pitchBytes 0 0
                         (fst (fst st)) (snd (fst st)) (Z.to_nat W) (Z.to_nat H)) (snd st)))).
    2: { intros i [[b p] mm]. cbn [fst snd]. now rewrite copyTexture_lines_moves. }
    loop_to_moves dir
      (fun q : Z * Z => (fst q + size_t (GobHeight * GobWidth * gbh),
                         snd q + Z.of_nat (Z.to_nat H) * pitchBytes))
      (fun (j : Z) (p : Z * Z) =>
         code_slice bpb blockSize A robHeight alignedDepth pitchBytes 0 0
           (fst p) (snd p) (Z.to_nat W) (Z.to_nat H))
      (Z.to_nat D) (bl, po) m.
    cbn [snd]. f_equal.
    unfold loop_moves, code_moves. apply flat_map_ext. intros z.
    now rewrite iter_add2.
  Qed.

End LoopFacts.

(** ** Bytes inside a sector, and coalescing *)

Module ByteFacts.
Import util layout aux UtilFacts MoveFacts LoopFacts.

Lemma land_mod a n : 0 <= n -> Z.land a (2 ^ n - 1) = a mod 2 ^ n.
  Proof. intros. rewrite <- Z.land_ones by lia. f_equal. rewrite Z.ones_equiv. lia. Qed.

Lemma code_gob_x_eq xb : 0 <= xb -> code_gob_x xb = gob_x xb.
  Proof.
    intros H. unfold code_gob_x, gob_x.
    change 63 with (2 ^ 6 - 1). change 15 with (2 ^ 4 - 1). change 31 with (2 ^ 5 - 1).
    rewrite !land_mod by lia.
    rewrite !Z.shiftr_div_pow2, !Z.shiftl_mul_pow2 by lia.
    change (2 ^ 6) with 64. change (2 ^ 5) with 32. change (2 ^ 4) with 16.
    change (2 ^ 8) with 256.
    apply size_t_small. change (2 ^ 64) with 18446744073709551616.
    Z.div_mod_to_equations. lia.
  Qed.

  (** Inside an aligned element of 1, 2, 4, 8 or 16 bytes the swizzle is
      the identity: the element's bytes stay together and in order. *)
Lemma gob_x_chunk e x k : coalescable e -> 0 <= x -> 0 <= k < e ->
    gob_x (x * e + k) = gob_x (x * e) + k /\ (x * e + k) / 64 = x * e / 64.
  Proof.
    intros He Hx Hk. unfold gob_x.
    cbn in He. destruct He as [ <- | [ <- | [ <- | [ <- | [ <- | [] ] ] ] ] ].
    all: Z.div_mod_to_equations; lia.
  Qed.

Lemma coalescable_pos e : coalescable e -> 1 <= e <= 16.
  Proof.
    intros He. cbn in He. destruct He as [ <- | [ <- | [ <- | [ <- | [ <- | [] ] ] ] ] ]; lia.
  Qed.

  (** The element types of 1, 2, 4, 8 and 16 bytes are as wide as the
      stride. *)
Lemma sizeof_element_coalescable e : coalescable e -> sizeof_element e = e.
  Proof.
    intros He. cbn in He. destruct He as [ <- | [ <- | [ <- | [ <- | [ <- | [] ] ] ] ] ];
      reflexivity.
  Qed.

Lemma code_x_chunk blockSize e x k : coalescable e -> 0 <= x -> 0 <= k < e ->
    code_x blockSize (x * e + k) = code_x blockSize (x * e) + k.
  Proof.
    intros He Hx Hk. pose proof (coalescable_pos e He).
    destruct (gob_x_chunk e x k He Hx Hk) as [Hg Hd].
    unfold code_x, GobWidth. rewrite Hd, !code_gob_x_eq by nia. rewrite Hg. lia.
  Qed.

  (** *** Lists of consecutive numbers *)

Lemma seq_shift_add a n : seq a n = map (Nat.add a) (seq 0 n).
  Proof.
    revert a. induction n as [|n IH]; intros a; [reflexivity|].
    cbn [seq map]. rewrite Nat.add_0_r. f_equal.
    rewrite (IH (S a)), (IH 1%nat), map_map. apply map_ext. intros x. lia.
  Qed.

Lemma zrange_app a b : 0 <= a -> 0 <= b ->
    spec.zrange (a + b) = spec.zrange a ++ map (Z.add a) (spec.zrange b).
  Proof.
    intros Ha Hb. unfold spec.zrange.
    rewrite Z2Nat.inj_add, seq_app, map_app by lia. f_equal.
    cbn [Nat.add]. rewrite seq_shift_add, !map_map. apply map_ext. intros x. lia.
  Qed.

Lemma regroup {A : Type} (F : Z -> A) e n : 0 <= e ->
    flat_map (fun x => map (fun k => F (Z.of_nat x * e + k)) (spec.zrange e)) (seq 0 n)
    = map F (spec.zrange (Z.of_nat n * e)).
  Proof.
    intros He. induction n as [|n IH].
    - reflexivity.
    - rewrite seq_S, flat_map_app, IH. cbn [flat_map Nat.add]. rewrite app_nil_r.
      replace (Z.of_nat (S n) * e) with (Z.of_nat n * e + e) by lia.
      rewrite zrange_app, map_app, map_map by nia. reflexivity.
  Qed.

Lemma byte_moves_flat_map {A : Type} (f : A -> list move) l :
    byte_moves (flat_map f l) = flat_map (fun x => byte_moves (f x)) l.
  Proof.
    unfold byte_moves. induction l as [|x l IH]; cbn [flat_map]; [reflexivity|].
    now rewrite flat_map_app, IH.
  Qed.

Lemma byte_moves_map {A : Type} (f : A -> move) l :
    byte_moves (map f l) = flat_map (fun x => move_bytes (f x)) l.
  Proof.
    unfold byte_moves. induction l as [|x l IH]; cbn [flat_map map]; [reflexivity|].
    now rewrite IH.
  Qed.

Lemma In_zrange k n : In k (spec.zrange n) <-> 0 <= k < n.
  Proof.
    unfold spec.zrange. rewrite in_map_iff. split.
    - intros (j & <- & Hj). apply in_seq in Hj. lia.
    - intros Hk. exists (Z.to_nat k). split; [lia|]. apply in_seq. lia.
  Qed.

  (** The bytes of a row of elements of a coalescable size: the bytes of
      the row, one after the other. *)
Lemma code_row_bytes bpb blockSize o YZ po W :
    coalescable bpb -> 0 <= o -> (o + Z.of_nat W) * bpb < 2 ^ 64 ->
    byte_moves (code_row bpb blockSize (o * bpb) YZ po W)
    = row_bytes blockSize (o * bpb) YZ po (Z.of_nat W * bpb).
  Proof.
    intros Hb Ho Hfit. pose proof (coalescable_pos bpb Hb) as Hbpb.
    unfold code_row, row_bytes. rewrite (sizeof_element_coalescable bpb Hb), byte_moves_map.
    rewrite <- (regroup (fun j => (YZ + code_x blockSize (o * bpb + j), po + j))) by lia.
    apply flat_map_ext_in. intros x Hx. apply in_seq in Hx.
    unfold move_bytes. apply map_ext_in. intros k Hk. apply In_zrange in Hk.
    rewrite size_t_small by nia.
    replace (o * bpb + Z.of_nat x * bpb) with ((o + Z.of_nat x) * bpb) by ring.
    replace (o * bpb + (Z.of_nat x * bpb + k)) with ((o + Z.of_nat x) * bpb + k) by ring.
    rewrite (code_x_chunk blockSize bpb (o + Z.of_nat x) k) by (auto; lia).
    f_equal; lia.
  Qed.

Lemma code_moves_bytes bpb blockSize A robHeight alignedDepth pitchBytes gbh o oy bl po W H D :
    coalescable bpb -> 0 <= o -> (o + Z.of_nat W) * bpb < 2 ^ 64 ->
    byte_moves (code_moves bpb blockSize A robHeight alignedDepth pitchBytes gbh
                  (o * bpb) oy bl po W H D)
    = code_bytes blockSize A robHeight alignedDepth pitchBytes gbh (o * bpb) oy bl po
        (Z.of_nat W * bpb) H D.
  Proof.
    intros Hb Ho Hfit. unfold code_moves, code_bytes.
    rewrite byte_moves_flat_map. apply flat_map_ext. intros z.
    unfold code_slice. rewrite byte_moves_flat_map. apply flat_map_ext. intros y.
    now apply code_row_bytes.
  Qed.

  (** *** The coalescing loops *)

Lemma IsAligned_even v b : 0 <= v -> 1 <= b -> IsAligned v (2 * b) = true ->
    v / b / 2 * (2 * b) = v.
  Proof.
    unfold IsAligned. intros Hv Hb H. apply Z.eqb_eq in H.
    rewrite Z.div_div by lia.
    pose proof (Z.div_mod v (b * 2) ltac:(lia)).
    replace (2 * b) with (b * 2) in * by lia. lia.
  Qed.

Lemma shl1 b : coalescable b -> b <> 16 ->
    size_t (Z.shiftl b 1) = 2 * b /\ coalescable (2 * b).
  Proof.
    intros Hb Hne. cbn in Hb.
    destruct Hb as [ <- | [ <- | [ <- | [ <- | [ <- | [] ] ] ] ] ];
      try (exfalso; apply Hne; reflexivity); (split; [reflexivity | cbn; tauto]).
  Qed.

  (** The running state of a coalescing loop: [bpb] is coalescable, below
      [16] by at most [fuel - 1] doublings, and the row has
      [textureWidth * bpb = bytes] bytes. *)
Lemma coalesce_total fuel : forall bytes W bpb,
    coalescable bpb -> 16 <= bpb * 2 ^ (Z.of_nat fuel - 1) -> (1 <= fuel)%nat ->
    0 <= W -> W * bpb = bytes ->
    exists W' bpb', coalesce fuel bytes W bpb = Some (W', bpb') /\
      coalescable bpb' /\ 0 <= W' /\ W' * bpb' = bytes.
  Proof.
    induction fuel as [|fuel IH]; intros bytes W bpb Hb Hfuel Hpos HW Hbytes; [lia|].
    cbn [coalesce].
    destruct (bpb =? 16) eqn:E16.
    - exists W, bpb. auto.
    - apply Z.eqb_neq in E16. destruct (shl1 bpb Hb E16) as [Hs Hb2]. rewrite Hs.
      pose proof (coalescable_pos bpb Hb) as Hbpb.
      destruct (IsAligned bytes (2 * bpb)) eqn:EA.
      + assert (Hhalf : W / 2 * (2 * bpb) = bytes).
        { pose proof (IsAligned_even bytes bpb ltac:(nia) ltac:(lia) EA) as Hev.
          rewrite <- Hbytes in Hev at 1. rewrite Z.div_mul in Hev by lia. exact Hev. }
        apply IH; auto.
        * replace (Z.of_nat (S fuel) - 1) with (Z.of_nat fuel) in Hfuel by lia.
          destruct fuel as [|fuel]; [cbn in Hfuel; lia|].
          replace (Z.of_nat (S fuel) - 1) with (Z.of_nat fuel) by lia.
          rewrite Nat2Z.inj_succ, Z.pow_succ_r in Hfuel by lia. lia.
        * destruct fuel as [|fuel]; [|lia]. cbn in Hfuel. lia.
        * apply Z.div_pos; lia.
      + exists W, bpb. auto.
  Qed.

Lemma coalesce_v1_total fuel : forall bytes W bpb,
    coalescable bpb -> 16 <= bpb * 2 ^ (Z.of_nat fuel - 1) -> (1 <= fuel)%nat ->
    0 <= W -> W * bpb = bytes ->
    exists W' bpb', coalesce_v1 fuel W bpb = Some (W', bpb') /\
      coalescable bpb' /\ 0 <= W' /\ W' * bpb' = bytes.
  Proof.
    induction fuel as [|fuel IH]; intros bytes W bpb Hb Hfuel Hpos HW Hbytes; [lia|].
    cbn [coalesce_v1].
    destruct (bpb =? 16) eqn:E16.
    - exists W, bpb. auto.
    - apply Z.eqb_neq in E16. destruct (shl1 bpb Hb E16) as [Hs Hb2]. rewrite Hs.
      pose proof (coalescable_pos bpb Hb) as Hbpb.
      destruct (IsAligned W (2 * bpb)) eqn:EA.
      + assert (Hhalf : W / 2 * (2 * bpb) = bytes).
        { unfold IsAligned in EA. apply Z.eqb_eq in EA.
          pose proof (Z.div_mod W (2 * bpb) ltac:(lia)) as Hq. rewrite EA in Hq.
          set (q := W / (2 * bpb)) in *.
          assert (HW2 : W / 2 = bpb * q).
          { replace W with (bpb * q * 2) by lia. apply Z.div_mul. lia. }
          rewrite HW2, <- Hbytes. nia. }
        apply (IH bytes); auto.
        * replace (Z.of_nat (S fuel) - 1) with (Z.of_nat fuel) in Hfuel by lia.
          destruct fuel as [|fuel]; [cbn in Hfuel; lia|].
          replace (Z.of_nat (S fuel) - 1) with (Z.of_nat fuel) by lia.
          rewrite Nat2Z.inj_succ, Z.pow_succ_r in Hfuel by lia. lia.
        * destruct fuel as [|fuel]; [|lia]. cbn in Hfuel. lia.
        * apply Z.div_pos; lia.
      + exists W, bpb. auto.
  Qed.

Lemma enough_fuel fuel bpb : coalescable bpb -> (5 <= fuel)%nat ->
    16 <= bpb * 2 ^ (Z.of_nat fuel - 1).
  Proof.
    intros Hb Hf. pose proof (coalescable_pos bpb Hb).
    assert (2 ^ 4 <= 2 ^ (Z.of_nat fuel - 1)) by (apply Z.pow_le_mono_r; lia).
    change (2 ^ 4) with 16 in *. nia.
  Qed.

End ByteFacts.

(** ** Width coalescing *)

Module CoalesceFacts.
Import util layout aux UtilFacts MoveFacts LoopFacts ByteFacts.

Lemma code_moves_bytes0 bpb blockSize A robHeight alignedDepth pitchBytes gbh oy bl po W H D :
    coalescable bpb -> Z.of_nat W * bpb < 2 ^ 64 ->
    byte_moves (code_moves bpb blockSize A robHeight alignedDepth pitchBytes gbh 0 oy bl po W H D)
    = code_bytes blockSize A robHeight alignedDepth pitchBytes gbh 0 oy bl po
        (Z.of_nat W * bpb) H D.
  Proof.
    intros Hb Hfit.
    pose proof (code_moves_bytes bpb blockSize A robHeight alignedDepth pitchBytes gbh
                  0 oy bl po W H D Hb ltac:(lia) ltac:(lia)) as E.
    rewrite Z.mul_0_l in E. exact E.
  Qed.

  (** The body shared by the two revisions, as a list of moves. *)
Lemma CopyBlockLinearInternal_body_moves dir dims fmtBh pitchAmount gbh gbd bl po
      bytes A W bpb m :
    In bpb [1; 2; 4; 8; 12; 16] ->
    CopyBlockLinearInternal_body dir dims fmtBh pitchAmount gbh gbd bl po bytes A W bpb m
    = run_moves dir
        (code_moves bpb
           (size_t (size_t (gbh * GobHeight) * GobWidth * size_t (AlignUp (depth dims) gbd)))
           A (size_t (gbh * GobHeight)) (size_t (AlignUp (depth dims) gbd))
           (if pitchAmount =? 0 then bytes else pitchAmount) gbh 0 0 bl po
           (Z.to_nat W) (Z.to_nat (size_t (DivideCeil (height dims) fmtBh)))
           (Z.to_nat (depth dims))) m.
  Proof.
    intros Hb. unfold CopyBlockLinearInternal_body.
    pose proof (size_t_range (DivideCeil (height dims) fmtBh)) as HH.
    cbn in Hb.
    destruct Hb as [ <- | [ <- | [ <- | [ <- | [ <- | [ <- | [] ] ] ] ] ] ];
      apply copyTexture_moves; lia.
  Qed.

Lemma coalescable_supported bpb : coalescable bpb -> In bpb [1; 2; 4; 8; 12; 16].
  Proof. cbn. tauto. Qed.

Lemma coalescable_not_12 bpb : coalescable bpb -> (bpb =? 12) = false.
  Proof.
    intros Hb. apply Z.eqb_neq. intros ->. cbn in Hb.
    repeat (destruct Hb as [Hb|Hb]; [discriminate|]). exact Hb.
  Qed.

  (** Two element sizes over the same row bytes copy the same bytes. *)
Lemma body_same_bytes dir dims fmtBh pitchAmount gbh gbd bl po bytes A W bpb W' bpb' m :
    coalescable bpb -> coalescable bpb' -> 0 <= W -> 0 <= W' ->
    W * bpb = bytes -> W' * bpb' = bytes -> bytes < 2 ^ 64 ->
    forall a,
      blockLinearMem (CopyBlockLinearInternal_body dir dims fmtBh pitchAmount gbh gbd bl po
                        bytes A W' bpb' m) a
      = blockLinearMem (CopyBlockLinearInternal_body dir dims fmtBh pitchAmount gbh gbd bl po
                          bytes A W bpb m) a /\
      pitchMem (CopyBlockLinearInternal_body dir dims fmtBh pitchAmount gbh gbd bl po
                  bytes A W' bpb' m) a
      = pitchMem (CopyBlockLinearInternal_body dir dims fmtBh pitchAmount gbh gbd bl po
                    bytes A W bpb m) a.
  Proof.
    intros Hb Hb' HW HW' Hbytes Hbytes' Hfit.
    rewrite !CopyBlockLinearInternal_body_moves by now apply coalescable_supported.
    apply run_moves_same_bytes.
    rewrite !code_moves_bytes0 by (auto; rewrite Z2Nat.id by lia; lia).
    rewrite !Z2Nat.id by lia. now rewrite Hbytes, Hbytes'.
  Qed.

Lemma texture_width_small w fmtBw : 0 <= w < 2 ^ 32 -> 1 <= fmtBw ->
    0 <= size_t (DivideCeil w fmtBw) <= w.
  Proof.
    intros Hw Hb.
    pose proof (DivideCeil_nonneg w fmtBw ltac:(lia) ltac:(lia)).
    pose proof (DivideCeil_le w fmtBw ltac:(lia) ltac:(lia)).
    rewrite size_t_small; lia.
  Qed.

Lemma CopyBlockLinearInternal_reference fuel dir dims fmtBw fmtBh bpb pitchAmount gbh gbd
      bl po m :
    (5 <= fuel)%nat -> coalescable bpb -> 0 <= width dims < 2 ^ 32 -> 1 <= fmtBw ->
    exists r,
      CopyBlockLinearInternal fuel dir dims fmtBw fmtBh bpb pitchAmount gbh gbd bl po m
        = Some r /\
      forall a,
        blockLinearMem r a
        = blockLinearMem (CopyBlockLinearReference dir dims fmtBw fmtBh bpb pitchAmount
                            gbh gbd bl po m) a /\
        pitchMem r a
        = pitchMem (CopyBlockLinearReference dir dims fmtBw fmtBh bpb pitchAmount
                      gbh gbd bl po m) a.
  Proof.
    intros Hfuel Hb Hw Hfw.
    pose proof (texture_width_small _ _ Hw Hfw) as HW.
    pose proof (coalescable_pos bpb Hb) as Hbpb.
    set (W := size_t (DivideCeil (width dims) fmtBw)) in *.
    assert (Hbytes : size_t (W * bpb) = W * bpb) by (apply size_t_small; nia).
    assert (Hfit : W * bpb < 2 ^ 64) by nia.
    destruct (coalesce_total fuel (W * bpb) W bpb Hb (enough_fuel fuel bpb Hb Hfuel)
                ltac:(lia) ltac:(lia) eq_refl) as (W' & bpb' & Hc & Hb' & HW' & Hbytes').
    unfold CopyBlockLinearInternal. fold W. rewrite (coalescable_not_12 bpb Hb), Hbytes, Hc.
    eexists. split; [reflexivity|].
    unfold CopyBlockLinearReference. fold W. rewrite Hbytes.
    apply body_same_bytes; auto; lia.
  Qed.

Lemma CopyBlockLinearInternal_v1_reference fuel dir dims fmtBw fmtBh bpb pitchAmount gbh gbd
      bl po m :
    (5 <= fuel)%nat -> coalescable bpb -> 0 <= width dims < 2 ^ 32 -> 1 <= fmtBw ->
    exists r,
      CopyBlockLinearInternal_v1 fuel dir dims fmtBw fmtBh bpb pitchAmount gbh gbd bl po m
        = Some r /\
      forall a,
        blockLinearMem r a
        = blockLinearMem (CopyBlockLinearReference dir dims fmtBw fmtBh bpb pitchAmount
                            gbh gbd bl po m) a /\
        pitchMem r a
        = pitchMem (CopyBlockLinearReference dir dims fmtBw fmtBh bpb pitchAmount
                      gbh gbd bl po m) a.
  Proof.
    intros Hfuel Hb Hw Hfw.
    pose proof (texture_width_small _ _ Hw Hfw) as HW.
    pose proof (coalescable_pos bpb Hb) as Hbpb.
    set (W := size_t (DivideCeil (width dims) fmtBw)) in *.
    assert (Hbytes : size_t (W * bpb) = W * bpb) by (apply size_t_small; nia).
    assert (Hfit : W * bpb < 2 ^ 64) by nia.
    destruct (coalesce_v1_total fuel (W * bpb) W bpb Hb (enough_fuel fuel bpb Hb Hfuel)
                ltac:(lia) ltac:(lia) eq_refl) as (W' & bpb' & Hc & Hb' & HW' & Hbytes').
    unfold CopyBlockLinearInternal_v1. fold W. rewrite (coalescable_not_12 bpb Hb), Hc.
    eexists. split; [reflexivity|].
    unfold CopyBlockLinearReference. fold W. rewrite Hbytes.
    apply body_same_bytes; auto; lia.
  Qed.

  (** C4. For [bpb] in {1, 2, 4, 8, 16} and every texture width (those
      divisible by 16 among them), the full-surface copier with its
      width-coalescing loop terminates and leaves both buffers
      byte-identical, in both copy directions, to the reference copier that
      moves [bpb] bytes per element without coalescing; this holds for the
      coalescing test of either revision of [CopyBlockLinearInternal]. *)
Theorem coalescing_equivalence :
    forall fuel dir dims fmtBw fmtBh bpb pitchAmount gbh gbd bl po m,
      (5 <= fuel)%nat -> coalescable bpb ->
      0 <= width dims < 2 ^ 32 -> 1 <= fmtBw ->
      let ref := CopyBlockLinearReference dir dims fmtBw fmtBh bpb pitchAmount gbh gbd bl po m in
      (exists r,
         CopyBlockLinearInternal fuel dir dims fmtBw fmtBh bpb pitchAmount gbh gbd bl po m
           = Some r /\
         forall a, blockLinearMem r a = blockLinearMem ref a /\ pitchMem r a = pitchMem ref a)
      /\
      (exists r,
         CopyBlockLinearInternal_v1 fuel dir dims fmtBw fmtBh bpb pitchAmount gbh gbd bl po m
           = Some r /\
         forall a, blockLinearMem r a = blockLinearMem ref a /\ pitchMem r a = pitchMem ref a).
  Proof.
    intros fuel dir dims fmtBw fmtBh bpb pitchAmount gbh gbd bl po m Hfuel Hb Hw Hfw ref.
    split.
    - now apply CopyBlockLinearInternal_reference.
    - now apply CopyBlockLinearInternal_v1_reference.
  Qed.

End CoalesceFacts.

(** ** The address formula *)

Module OffsetFacts.
Import util layout aux UtilFacts MoveFacts LoopFacts ByteFacts CoalesceFacts.

Lemma mul3_le a b c a' b' c' :
    0 <= a <= a' -> 0 <= b <= b' -> 0 <= c <= c' -> a * b * c <= a' * b' * c'.
  Proof.
    intros Ha Hb Hc.
    assert (0 <= a * b) by (apply Z.mul_nonneg_nonneg; lia).
    assert (a * b <= a' * b') by (apply Z.mul_le_mono_nonneg; lia).
    apply Z.mul_le_mono_nonneg; lia.
  Qed.

Lemma forallb_zrange (P : Z -> bool) n :
    forallb P (spec.zrange n) = true -> forall r, 0 <= r < n -> P r = true.
  Proof.
    intros H r Hr. rewrite forallb_forall in H. apply H. now apply In_zrange.
  Qed.

Lemma land_land_mask x a b : Z.land a b = b -> Z.land (Z.land x a) b = Z.land x b.
  Proof. intros H. now rewrite <- Z.land_assoc, H. Qed.

Lemma gob_y_mod y : gob_y (y mod 8) = gob_y y.
  Proof. unfold gob_y. Z.div_mod_to_equations. lia. Qed.

Lemma gob_x_mod xb : gob_x (xb mod 64) = gob_x xb.
  Proof. unfold gob_x. Z.div_mod_to_equations. lia. Qed.

Lemma lor_gob_y_eq y : lor_gob_y y = gob_y y.
  Proof.
    assert (Hr : forall r, 0 <= r < 8 -> lor_gob_y r = gob_y r).
    { intros r Hr. apply Z.eqb_eq.
      apply (forallb_zrange (fun r => lor_gob_y r =? gob_y r) 8); [reflexivity | exact Hr]. }
    rewrite <- gob_y_mod, <- Hr by (apply Z.mod_pos_bound; lia).
    replace (y mod 8) with (Z.land y 7) by (apply (land_mod y 3); lia).
    unfold lor_gob_y. rewrite !land_land_mask by reflexivity. reflexivity.
  Qed.

Lemma lor_gob_x_eq xb : lor_gob_x xb = gob_x xb.
  Proof.
    assert (Hr : forall r, 0 <= r < 64 -> lor_gob_x r = gob_x r).
    { intros r Hr. apply Z.eqb_eq.
      apply (forallb_zrange (fun r => lor_gob_x r =? gob_x r) 64); [reflexivity | exact Hr]. }
    rewrite <- gob_x_mod, <- Hr by (apply Z.mod_pos_bound; lia).
    replace (xb mod 64) with (Z.land xb 63) by (apply (land_mod xb 6); lia).
    unfold lor_gob_x. rewrite !land_land_mask by reflexivity. reflexivity.
  Qed.

Lemma sum_gob_y_eq y :
    Z.shiftl (Z.shiftr (Z.land y 7) 1) 6 + Z.shiftl (Z.land y 1) 4 = gob_y y.
  Proof.
    unfold gob_y.
    replace (Z.land y 7) with (y mod 2 ^ 3) by (symmetry; apply (land_mod y 3); lia).
    replace (Z.land y 1) with (y mod 2 ^ 1) by (symmetry; apply (land_mod y 1); lia).
    now rewrite !Z.shiftr_div_pow2, !Z.shiftl_mul_pow2 by lia.
  Qed.

Lemma gob_y_range y : 0 <= gob_y y < 512.
  Proof. unfold gob_y. Z.div_mod_to_equations. lia. Qed.

Lemma gob_x_range xb : 0 <= gob_x xb < 512.
  Proof. unfold gob_x. Z.div_mod_to_equations. lia. Qed.

  (** The geometry of a block-linear surface whose size is representable:
      [Aw] is the aligned row width in bytes, [Dz] the aligned depth. *)
Section Geometry.
Variables Aw H Dz gbh gbd : Z.
Hypothesis Hgbh : is_pow2 gbh.
Hypothesis Hgbd : is_pow2 gbd.
Hypothesis HA : 0 <= Aw.
Hypothesis HA64 : Aw mod 64 = 0.
Hypothesis HD : 1 <= Dz.
Hypothesis HH : 0 <= H.
Hypothesis Hfit : Aw * (8 * gbh) * DivideCeil H (8 * gbh) * Dz < 2 ^ 64.

Let RH := 8 * gbh.

Lemma gbh_pos : 0 < gbh.
    Proof. now apply is_pow2_pos. Qed.

Lemma rob_height_pow2 : exists k, 0 <= k /\ RH = 2 ^ k.
    Proof.
      destruct (is_pow2_exp gbh Hgbh) as (k & Hk & E). exists (k + 3). split; [lia|].
      unfold RH. rewrite E, Z.pow_add_r by lia. change (2 ^ 3) with 8. ring.
    Qed.

Lemma land_rob_height y : Z.land y (RH - 1) = y mod RH.
    Proof.
      destruct rob_height_pow2 as (k & Hk & E). rewrite E. now apply land_mod.
    Qed.

    (** A surface with a texel block in it. *)
Section InRange.
Variables xb y : Z.
Hypothesis Hxb : 0 <= xb < Aw.
Hypothesis Hy : 0 <= y < H.

Lemma rows_bound : y / RH * RH + RH <= DivideCeil H RH * RH.
      Proof.
        pose proof gbh_pos.
        pose proof (DivideCeil_bounds H RH ltac:(unfold RH; lia) ltac:(lia)) as Hb.
        pose proof (Z.div_mod y RH ltac:(unfold RH; lia)) as Hdm.
        pose proof (Z.mod_pos_bound y RH ltac:(unfold RH; lia)) as Hm.
        assert (Hlt : y / RH < DivideCeil H RH) by nia. nia.
      Qed.

Lemma geometry_bounds :
        64 <= Aw /\ 1 <= DivideCeil H RH /\
        Aw * RH * Dz <= Aw * RH * DivideCeil H RH * Dz /\
        RH * 64 * Dz <= Aw * RH * Dz.
      Proof.
        pose proof gbh_pos.
        assert (64 <= Aw).
        { pose proof (Z.div_mod Aw 64 ltac:(lia)). lia. }
        assert (1 <= DivideCeil H RH).
        { pose proof (DivideCeil_pos H RH ltac:(unfold RH; lia) ltac:(lia)). lia. }
        repeat split; try lia.
        - assert (0 <= Aw * RH * Dz) by (unfold RH; nia).
          replace (Aw * RH * DivideCeil H RH * Dz) with (Aw * RH * Dz * DivideCeil H RH) by ring.
          nia.
        - unfold RH. nia.
      Qed.

Lemma size_t_rob_height : size_t (gbh * GobHeight) = RH.
      Proof.
        destruct geometry_bounds as (H1 & H2 & H3 & H4). pose proof gbh_pos.
        unfold GobHeight. replace (gbh * 8) with RH by (unfold RH; lia).
        apply size_t_small. fold RH in Hfit. split; [unfold RH; lia|].
        pose proof (mul3_le 1 RH 1 Aw RH Dz ltac:(lia) ltac:(unfold RH; lia) ltac:(lia)). lia.
      Qed.

Lemma size_t_slice_stride : size_t (GobHeight * GobWidth * gbh) = 512 * gbh.
      Proof.
        destruct geometry_bounds as (H1 & H2 & H3 & H4). pose proof gbh_pos.
        unfold GobHeight, GobWidth. replace (8 * 64 * gbh) with (512 * gbh) by lia.
        apply size_t_small. fold RH in Hfit. split; [lia|].
        pose proof (mul3_le 64 RH 1 Aw RH Dz ltac:(lia) ltac:(unfold RH; lia) ltac:(lia)).
        unfold RH in *. lia.
      Qed.

Lemma size_t_aligned_width : size_t Aw = Aw.
      Proof.
        destruct geometry_bounds as (H1 & H2 & H3 & H4). pose proof gbh_pos.
        apply size_t_small. fold RH in Hfit. split; [lia|].
        pose proof (mul3_le Aw 1 1 Aw RH Dz ltac:(lia) ltac:(unfold RH; lia) ltac:(lia)). lia.
      Qed.

Lemma size_t_aligned_depth : size_t Dz = Dz.
      Proof.
        destruct geometry_bounds as (H1 & H2 & H3 & H4). pose proof gbh_pos.
        apply size_t_small. fold RH in Hfit. split; [lia|].
        pose proof (mul3_le 1 1 Dz Aw RH Dz ltac:(lia) ltac:(unfold RH; lia) ltac:(lia)). lia.
      Qed.

Lemma size_t_block_size : size_t (RH * GobWidth * Dz) = RH * 64 * Dz.
      Proof.
        destruct geometry_bounds as (H1 & H2 & H3 & H4). pose proof gbh_pos.
        unfold GobWidth. apply size_t_small. fold RH in Hfit. split; [unfold RH; nia | lia].
      Qed.

      (** The line part of the swizzled offset. *)
Lemma code_yz_eq :
        code_yz Aw RH Dz y
        = Aw * (y / RH * RH) * Dz + (y mod RH / 8 * 512 + gob_y y).
      Proof.
        destruct geometry_bounds as (H1 & H2 & H3 & H4). pose proof gbh_pos as Hg.
        pose proof rows_bound as Hrows. fold RH in Hfit.
        pose proof (Z.mod_pos_bound y RH ltac:(unfold RH; lia)) as Hm.
        pose proof (gob_y_range y) as Hgy.
        assert (Hq : 0 <= y / RH) by (apply Z.div_pos; unfold RH; lia).
        assert (Hr8 : 0 <= y mod RH / 8 < gbh).
        { split; [apply Z.div_pos; lia|]. apply Z.div_lt_upper_bound; unfold RH in *; lia. }
        unfold code_yz, AlignDown, GobHeight, GobWidth.
        rewrite sum_gob_y_eq.
        rewrite (size_t_small (RH - 1)).
        2: { pose proof (mul3_le 1 RH 1 Aw RH Dz ltac:(lia) ltac:(unfold RH; lia) ltac:(lia)).
             unfold RH in *. lia. }
        rewrite land_rob_height.
        assert (Hgobs : 512 * gbh <= Aw * RH * Dz).
        { pose proof (mul3_le 64 RH 1 Aw RH Dz ltac:(lia) ltac:(unfold RH; lia) ltac:(lia)).
          unfold RH in *. lia. }
        rewrite (size_t_small (y mod RH / 8 * 64 * 8)) by lia.
        rewrite (size_t_small (y mod RH / 8 * 64 * 8 + gob_y y)) by lia.
        rewrite size_t_small; [lia|].
        assert (Hle : Aw * (y / RH * RH) * Dz <= Aw * RH * DivideCeil H RH * Dz).
        { replace (Aw * RH * DivideCeil H RH * Dz) with (Aw * (DivideCeil H RH * RH) * Dz) by ring.
          apply Z.mul_le_mono_nonneg_r; [lia|].
          apply Z.mul_le_mono_nonneg_l; lia. }
        split; [|eapply Z.le_lt_trans; [exact Hle | exact Hfit]].
        apply Z.mul_nonneg_nonneg; [|lia]. apply Z.mul_nonneg_nonneg; [lia|].
        apply Z.mul_nonneg_nonneg; [exact Hq | unfold RH; lia].
      Qed.

      (** The pixel part of the swizzled offset. *)
Lemma code_x_eq :
        code_x (RH * 64 * Dz) xb = xb / 64 * (RH * 64 * Dz) + gob_x xb.
      Proof.
        destruct geometry_bounds as (H1 & H2 & H3 & H4). pose proof gbh_pos as Hg.
        fold RH in Hfit.
        unfold code_x, GobWidth. rewrite code_gob_x_eq by lia. f_equal.
        apply size_t_small.
        assert (Hq : 0 <= xb / 64) by (apply Z.div_pos; lia).
        assert (Hq' : xb / 64 * 64 + 64 <= Aw).
        { pose proof (Z.div_mod xb 64 ltac:(lia)). pose proof (Z.mod_pos_bound xb 64 ltac:(lia)).
          pose proof (Z.div_mod Aw 64 ltac:(lia)).
          assert (xb / 64 < Aw / 64) by (apply Z.div_lt_upper_bound; lia). lia. }
        split; [apply Z.mul_nonneg_nonneg; [lia | unfold RH; nia]|].
        assert (xb / 64 * (RH * 64 * Dz) <= Aw * RH * Dz).
        { replace (xb / 64 * (RH * 64 * Dz)) with ((xb / 64 * 64) * (RH * Dz)) by ring.
          replace (Aw * RH * Dz) with (Aw * (RH * Dz)) by ring.
          apply Z.mul_le_mono_nonneg_r; [unfold RH; nia | lia]. }
        lia.
      Qed.

End InRange.
End Geometry.

  (** The offset of section 4.B with its in-GOB parts by division and the
      slice and GOB selection added up. *)
Lemma spec_offset_eq Aw Dz gbh gbd bpb x y z :
    0 < gbh -> 0 < gbd ->
    spec.offset Aw Dz gbh gbd bpb x y z
    = z * (512 * gbh) + (Aw * (y / (8 * gbh) * (8 * gbh)) * Dz
                         + (y mod (8 * gbh) / 8 * 512 + gob_y y))
      + (x * bpb / 64 * (8 * gbh * 64 * Dz) + gob_x (x * bpb)).
  Proof.
    intros Hg Hd. unfold spec.offset, spec.align_down.
    fold (lor_gob_y y). fold (lor_gob_x (x * bpb)).
    rewrite lor_gob_y_eq, lor_gob_x_eq.
    assert (Hq : (y - y mod (8 * gbh)) / (8 * gbh) = y / (8 * gbh)).
    { pose proof (Z.div_mod y (8 * gbh) ltac:(lia)) as E.
      replace (y - y mod (8 * gbh)) with (y / (8 * gbh) * (8 * gbh)) by lia.
      apply Z.div_mul. lia. }
    rewrite Hq.
    pose proof (Z.div_mod z gbd ltac:(lia)) as Ez.
    rewrite Ez at 3. ring.
  Qed.

End OffsetFacts.

(** ** The full-surface copier against the specification *)

Module CopyFacts.
Import util layout aux UtilFacts MoveFacts LoopFacts ByteFacts CoalesceFacts OffsetFacts.

Lemma AlignUp_mod v m : 0 < m -> AlignUp v m mod m = 0.
  Proof. intros. unfold AlignUp. now apply Z.mod_mul; lia. Qed.

  (** The swizzled offset the loops compute for the texel block [(X, Y, z)]
      of a surface of [W x H x d] blocks is the offset of section 4.B. *)
Lemma swizzle_eq W H d bpb gbh gbd X Y z :
    is_pow2 gbh -> is_pow2 gbd -> 1 <= bpb ->
    0 <= X < W -> 0 <= Y < H -> 0 <= z < d ->
    AlignUp (W * bpb) 64 * (8 * gbh) * DivideCeil H (8 * gbh) * AlignUp d gbd < 2 ^ 64 ->
    z * size_t (GobHeight * GobWidth * gbh)
    + code_yz (size_t (AlignUp (W * bpb) 64)) (size_t (gbh * GobHeight))
              (size_t (AlignUp d gbd)) Y
    + code_x (size_t (size_t (gbh * GobHeight) * GobWidth * size_t (AlignUp d gbd))) (X * bpb)
    = spec.offset (AlignUp (W * bpb) 64) (AlignUp d gbd) gbh gbd bpb X Y z.
  Proof.
    intros Hgh Hgd Hbpb HX HY Hz Hfit.
    pose proof (is_pow2_pos _ Hgh) as Hgh0. pose proof (is_pow2_pos _ Hgd) as Hgd0.
    set (Aw := AlignUp (W * bpb) 64) in *. set (Dz := AlignUp d gbd) in *.
    assert (HWb : 0 <= W * bpb) by nia.
    pose proof (AlignUp_bounds (W * bpb) 64 ltac:(lia) HWb) as HAw. fold Aw in HAw.
    pose proof (AlignUp_bounds d gbd Hgd0 ltac:(lia)) as HDz. fold Dz in HDz.
    assert (HA64 : Aw mod 64 = 0) by (apply AlignUp_mod; lia).
    assert (Hxb : 0 <= X * bpb < Aw) by nia.
    assert (HA0 : 0 <= Aw) by lia. assert (HD1 : 1 <= Dz) by lia.
    rewrite (size_t_rob_height Aw H Dz gbh Hgh HA0 HA64 HD1 Hfit (X * bpb) Y Hxb HY).
    rewrite (size_t_aligned_width Aw H Dz gbh Hgh HA0 HA64 HD1 Hfit (X * bpb) Y Hxb HY).
    rewrite (size_t_aligned_depth Aw H Dz gbh Hgh HA0 HA64 HD1 Hfit (X * bpb) Y Hxb HY).
    rewrite (size_t_slice_stride Aw H Dz gbh Hgh HA0 HA64 HD1 Hfit (X * bpb) Y Hxb HY).
    rewrite (size_t_block_size Aw H Dz gbh Hgh HA0 HA64 HD1 Hfit (X * bpb) Y Hxb HY).
    rewrite (code_yz_eq Aw H Dz gbh Hgh HA0 HA64 HD1 ltac:(lia) Hfit (X * bpb) Y Hxb HY).
    rewrite (code_x_eq Aw H Dz gbh Hgh HA0 HA64 HD1 Hfit (X * bpb) Y Hxb HY).
    rewrite spec_offset_eq by lia. ring.
  Qed.

End CopyFacts.

(** ** The swizzle is one to one *)

Module InjectFacts.
Import util layout aux UtilFacts MoveFacts LoopFacts ByteFacts CoalesceFacts OffsetFacts
         CopyFacts.

  (** A digit [d < K] in the place of weight [M] over a lower part
      [t < M] stays below [K * M]. *)
Lemma digit_range d t M K : 0 <= d < K -> 0 <= t < M -> 0 <= d * M + t < K * M.
  Proof. intros Hd Ht. nia. Qed.

Lemma radix_unique a r a' r' M :
    0 <= r < M -> 0 <= r' < M -> a * M + r = a' * M + r' -> a = a' /\ r = r'.
  Proof.
    intros Hr Hr' E.
    assert (a = a').
    { destruct (Z.lt_trichotomy a a') as [Hlt | [Heq | Hgt]]; [exfalso | exact Heq | exfalso].
      - assert (a * M + M <= a' * M) by nia. lia.
      - assert (a' * M + M <= a * M) by nia. lia. }
    subst a'. split; [reflexivity | lia].
  Qed.

Lemma gob_decode_check :
    forallb (fun a => forallb (fun b =>
        (gob_line (gob_y a + gob_x b) =? a) && (gob_byte (gob_y a + gob_x b) =? b))
      (spec.zrange 64)) (spec.zrange 8) = true.
  Proof. vm_compute. reflexivity. Qed.

Lemma gob_decode y xb :
    gob_line (gob_y y + gob_x xb) = y mod 8 /\ gob_byte (gob_y y + gob_x xb) = xb mod 64.
  Proof.
    rewrite <- (gob_y_mod y), <- (gob_x_mod xb).
    pose proof (Z.mod_pos_bound y 8 ltac:(lia)) as Hy.
    pose proof (Z.mod_pos_bound xb 64 ltac:(lia)) as Hx.
    pose proof (forallb_zrange _ _ (forallb_zrange _ _ gob_decode_check (y mod 8) Hy)
                  (xb mod 64) Hx) as H.
    cbv beta in H. apply andb_true_iff in H. destruct H as [H1 H2].
    apply Z.eqb_eq in H1, H2. split; assumption.
  Qed.

Lemma gob_sum_range y xb : 0 <= gob_y y + gob_x xb < 512.
  Proof. unfold gob_y, gob_x. Z.div_mod_to_equations. lia. Qed.

Section Injective.
Variables Aw Dz gbh : Z.
Hypothesis Hgbh : 0 < gbh.
Hypothesis HA64 : Aw mod 64 = 0.
Hypothesis HD : 1 <= Dz.

Lemma swz_inj xb y z xb' y' z' :
      0 <= xb < Aw -> 0 <= xb' < Aw -> 0 <= y -> 0 <= y' ->
      0 <= z < Dz -> 0 <= z' < Dz ->
      swz Aw Dz gbh xb y z = swz Aw Dz gbh xb' y' z' ->
      xb = xb' /\ y = y' /\ z = z'.
    Proof.
      intros Hxb Hxb' Hy Hy' Hz Hz' E. unfold swz in E.
      set (RH := 8 * gbh) in *.
      assert (HRH : 0 < RH) by (unfold RH; lia).
      (* the digits *)
      set (g := gob_y y + gob_x xb) in *. set (g' := gob_y y' + gob_x xb') in *.
      pose proof (gob_sum_range y xb) as Hg. fold g in Hg.
      pose proof (gob_sum_range y' xb') as Hg'. fold g' in Hg'.
      set (r8 := y mod RH / 8) in *. set (r8' := y' mod RH / 8) in *.
      assert (Hr8 : 0 <= r8 < gbh).
      { unfold r8. pose proof (Z.mod_pos_bound y RH HRH).
        split; [apply Z.div_pos; lia | apply Z.div_lt_upper_bound; unfold RH in *; lia]. }
      assert (Hr8' : 0 <= r8' < gbh).
      { unfold r8'. pose proof (Z.mod_pos_bound y' RH HRH).
        split; [apply Z.div_pos; lia | apply Z.div_lt_upper_bound; unfold RH in *; lia]. }
      set (bx := xb / 64) in *. set (bx' := xb' / 64) in *.
      assert (Hbx : 0 <= bx < Aw / 64).
      { unfold bx. split; [apply Z.div_pos; lia|].
        apply Z.div_lt_upper_bound; [lia|]. pose proof (Z.div_mod Aw 64 ltac:(lia)). lia. }
      assert (Hbx' : 0 <= bx' < Aw / 64).
      { unfold bx'. split; [apply Z.div_pos; lia|].
        apply Z.div_lt_upper_bound; [lia|]. pose proof (Z.div_mod Aw 64 ltac:(lia)). lia. }
      set (q := y / RH) in *. set (q' := y' / RH) in *.
      (* the places *)
      set (k := Aw / 64) in *.
      assert (HAw : Aw = k * 64) by (unfold k; pose proof (Z.div_mod Aw 64 ltac:(lia)); lia).
      set (M2 := 512 * gbh).
      set (M3 := M2 * Dz).
      set (M4 := k * M3).
      set (t1 := r8 * 512 + g). set (t1' := r8' * 512 + g').
      set (t2 := z * M2 + t1). set (t2' := z' * M2 + t1').
      set (t3 := bx * M3 + t2). set (t3' := bx' * M3 + t2').
      assert (Ht1 : 0 <= t1 < M2) by (unfold t1, M2; lia).
      assert (Ht1' : 0 <= t1' < M2) by (unfold t1', M2; lia).
      assert (HM2 : 0 < M2) by (unfold M2; lia).
      assert (Ht2 : 0 <= t2 < M3).
      { unfold t2, M3. rewrite (Z.mul_comm M2 Dz). apply digit_range; [lia | exact Ht1]. }
      assert (Ht2' : 0 <= t2' < M3).
      { unfold t2', M3. rewrite (Z.mul_comm M2 Dz). apply digit_range; [lia | exact Ht1']. }
      assert (Ht3 : 0 <= t3 < M4) by (unfold t3, M4; apply digit_range; assumption).
      assert (Ht3' : 0 <= t3' < M4) by (unfold t3', M4; apply digit_range; assumption).
      assert (E4 : q * M4 + t3 = q' * M4 + t3').
      { unfold t3, t3', t2, t2', t1, t1', M4, M3, M2, g, g'.
        rewrite HAw in E. unfold RH in E. lia. }
      destruct (radix_unique _ _ _ _ _ Ht3 Ht3' E4) as [Eq E3].
      destruct (radix_unique _ _ _ _ _ Ht2 Ht2' E3) as [Ebx E2].
      destruct (radix_unique _ _ _ _ _ Ht1 Ht1' E2) as [Ez E1].
      destruct (radix_unique _ _ _ _ _ Hg Hg' E1) as [Er8 Eg].
      destruct (gob_decode y xb) as [Dy Dx]. destruct (gob_decode y' xb') as [Dy' Dx'].
      fold g in Dy, Dx. fold g' in Dy', Dx'. rewrite Eg in Dy, Dx.
      assert (Ey8 : y mod 8 = y' mod 8) by congruence.
      assert (Ex64 : xb mod 64 = xb' mod 64) by congruence.
      split; [|split].
      - pose proof (Z.div_mod xb 64 ltac:(lia)) as H1.
        pose proof (Z.div_mod xb' 64 ltac:(lia)) as H2.
        fold bx in H1. fold bx' in H2. lia.
      - assert (Hsplit : forall v, v = v / RH * RH + (v mod RH / 8 * 8 + v mod 8)).
        { intros v. pose proof (Z.div_mod v RH ltac:(lia)) as H1.
          pose proof (Z.div_mod (v mod RH) 8 ltac:(lia)) as H2.
          assert (H3 : (v mod RH) mod 8 = v mod 8).
          { apply Z.mod_mod_divide. exists gbh. unfold RH. ring. }
          lia. }
        rewrite (Hsplit y), (Hsplit y'). fold q q' r8 r8'. rewrite Eq, Er8, Ey8. reflexivity.
      - exact Ez.
    Qed.
End Injective.

End InjectFacts.

(** ** Round trips *)

Module RoundTripFacts.
Import util layout aux UtilFacts MoveFacts LoopFacts ByteFacts CoalesceFacts OffsetFacts
         CopyFacts InjectFacts.

Lemma last_to_In a l f : last_to a l = Some f -> In (a, f) l.
  Proof.
    induction l as [|[t g] l IH]; cbn [last_to]; [discriminate|].
    destruct (last_to a l) as [x|].
    - intros E. right. apply IH. exact E.
    - destruct (t =? a) eqn:Et; [|discriminate].
      apply Z.eqb_eq in Et. intros E. injection E as <-. left. now subst.
  Qed.

Lemma In_last_to a f l : In (a, f) l -> exists f', last_to a l = Some f'.
  Proof.
    induction l as [|[t g] l IH]; cbn [In last_to]; [tauto|].
    intros [E | Hin].
    - injection E as -> ->. destruct (last_to a l) as [x|]; [now exists x|].
      rewrite Z.eqb_refl. now exists f.
    - destruct (IH Hin) as (f' & ->). now exists f'.
  Qed.

Lemma last_to_not_In a l : (forall f, ~ In (a, f) l) -> last_to a l = None.
  Proof.
    intros H. destruct (last_to a l) as [f|] eqn:E; [|reflexivity].
    apply last_to_In in E. now apply H in E.
  Qed.

Lemma In_swap s d l : In (d, s) (map swap l) <-> In (s, d) l.
  Proof.
    rewrite in_map_iff. split.
    - intros ([s' d'] & E & Hin). unfold swap in E. cbn in E. now injection E as -> ->.
    - intros Hin. now exists (s, d).
  Qed.

  (** When no two byte moves of [L] share a swizzled address without
      sharing the pitch address, writing and reading back restores every
      pitch byte that was copied and touches no other. *)
Lemma round_trip_bytes L B BL0 P0 :
    (forall s d d', In (s, d) L -> In (s, d') L -> d = d') ->
    forall a,
      after_bytes (after_bytes B L BL0) (map swap L) P0 a
      = match last_to a (map swap L) with Some _ => B a | None => P0 a end.
  Proof.
    intros Hfun a. unfold after_bytes at 1.
    destruct (last_to a (map swap L)) as [s|] eqn:E; [|reflexivity].
    apply last_to_In in E. apply (proj1 (In_swap s a L)) in E.
    destruct (In_last_to s a L E) as (d & Hd).
    unfold after_bytes. rewrite Hd. apply last_to_In in Hd.
    now rewrite (Hfun s d a Hd E).
  Qed.

Lemma run_moves_run_bytes dir ms m :
    same_buffers (run_moves dir ms m) (run_bytes dir (byte_moves ms) m).
  Proof.
    intros a. destruct dir; cbn [run_bytes blockLinearMem pitchMem].
    - destruct (run_moves_to_pitch ms m) as [-> H]. now rewrite H.
    - destruct (run_moves_to_blockLinear ms m) as [-> H]. now rewrite H.
  Qed.

  (** The members of [code_bytes]. *)
Lemma In_code_bytes s d blockSize A robHeight alignedDepth pitchBytes gbh ox oy bl po n H D :
    In (s, d) (code_bytes blockSize A robHeight alignedDepth pitchBytes gbh ox oy bl po n H D)
    <-> exists z y j, (z < D)%nat /\ (y < H)%nat /\ 0 <= j < n /\
          s = bl + Z.of_nat z * size_t (GobHeight * GobWidth * gbh)
              + code_yz A robHeight alignedDepth (size_t (oy + Z.of_nat y))
              + code_x blockSize (ox + j) /\
          d = po + Z.of_nat z * (Z.of_nat H * pitchBytes) + Z.of_nat y * pitchBytes + j.
  Proof.
    unfold code_bytes, row_bytes. rewrite in_flat_map. split.
    - intros (z & Hz & Hin). apply in_flat_map in Hin. destruct Hin as (y & Hy & Hin).
      apply in_map_iff in Hin. destruct Hin as (j & E & Hj).
      apply in_seq in Hz, Hy. apply In_zrange in Hj. injection E as <- <-.
      exists z, y, j. repeat split; lia.
    - intros (z & y & j & Hz & Hy & Hj & -> & ->).
      exists z. split; [apply in_seq; lia|]. apply in_flat_map.
      exists y. split; [apply in_seq; lia|]. apply in_map_iff.
      exists j. split; [reflexivity | now apply In_zrange].
  Qed.

  (** The byte moves of a copy into a block-linear surface of [Hbl] lines
      whose size is representable: a rectangle of [n] bytes by [H] lines at
      byte [ox] of line [oy], over [D] slices. *)
Section Rectangle.
Variables Aw Hbl Dz gbh ox oy n : Z.
Variables H D : nat.
Hypothesis Hgbh : is_pow2 gbh.
Hypothesis HA0 : 0 <= Aw.
Hypothesis HA64 : Aw mod 64 = 0.
Hypothesis HD1 : 1 <= Dz.
Hypothesis HHbl : 0 <= Hbl.
Hypothesis Hfit : Aw * (8 * gbh) * DivideCeil Hbl (8 * gbh) * Dz < 2 ^ 64.
Hypothesis Hox : 0 <= ox.
Hypothesis Hoy : 0 <= oy.
Hypothesis Hwide : ox + n <= Aw.
Hypothesis Hhigh : oy + Z.of_nat H <= Hbl.
Hypothesis Hdeep : Z.of_nat D <= Dz.

Variables pitchBytes bl po : Z.

Let L := code_bytes (size_t (size_t (gbh * GobHeight) * GobWidth * size_t Dz))
               (size_t Aw) (size_t (gbh * GobHeight)) (size_t Dz) pitchBytes gbh
               ox oy bl po n H D.

Lemma In_rectangle s d :
      In (s, d) L
      <-> exists z y j, (z < D)%nat /\ (y < H)%nat /\ 0 <= j < n /\
            s = bl + swz Aw Dz gbh (ox + j) (oy + Z.of_nat y) (Z.of_nat z) /\
            d = po + Z.of_nat z * (Z.of_nat H * pitchBytes) + Z.of_nat y * pitchBytes + j.
    Proof.
      unfold L. rewrite In_code_bytes.
      assert (Hswz : forall z y j, (z < D)%nat -> (y < H)%nat -> 0 <= j < n ->
                bl + Z.of_nat z * size_t (GobHeight * GobWidth * gbh)
                + code_yz (size_t Aw) (size_t (gbh * GobHeight)) (size_t Dz)
                    (size_t (oy + Z.of_nat y))
                + code_x (size_t (size_t (gbh * GobHeight) * GobWidth * size_t Dz)) (ox + j)
                = bl + swz Aw Dz gbh (ox + j) (oy + Z.of_nat y) (Z.of_nat z)).
      { intros z y j Hz Hy Hj.
        assert (Hxb : 0 <= ox + j < Aw) by lia.
        assert (HY : 0 <= oy + Z.of_nat y < Hbl) by lia.
        rewrite (size_t_rob_height Aw Hbl Dz gbh Hgbh HA0 HA64 HD1 Hfit _ _ Hxb HY).
        rewrite (size_t_aligned_width Aw Hbl Dz gbh Hgbh HA0 HA64 HD1 Hfit _ _ Hxb HY).
        rewrite (size_t_aligned_depth Aw Hbl Dz gbh Hgbh HA0 HA64 HD1 Hfit _ _ Hxb HY).
        rewrite (size_t_slice_stride Aw Hbl Dz gbh Hgbh HA0 HA64 HD1 Hfit _ _ Hxb HY).
        rewrite (size_t_block_size Aw Hbl Dz gbh Hgbh HA0 HA64 HD1 Hfit _ _ Hxb HY).
        rewrite (size_t_small (oy + Z.of_nat y)).
        2: { pose proof (DivideCeil_bounds Hbl (8 * gbh) ltac:(pose proof (is_pow2_pos _ Hgbh); lia) HHbl).
             destruct (geometry_bounds Aw Hbl Dz gbh Hgbh HA0 HA64 HD1 _ _ Hxb HY)
               as (G1 & G2 & G3 & G4).
             pose proof (mul3_le 1 (DivideCeil Hbl (8 * gbh) * (8 * gbh)) 1
                           Aw (DivideCeil Hbl (8 * gbh) * (8 * gbh)) Dz
                           ltac:(lia) ltac:(lia) ltac:(lia)) as G5.
             replace (Aw * (DivideCeil Hbl (8 * gbh) * (8 * gbh)) * Dz)
               with (Aw * (8 * gbh) * DivideCeil Hbl (8 * gbh) * Dz) in G5 by ring.
             lia. }
        rewrite (code_yz_eq Aw Hbl Dz gbh Hgbh HA0 HA64 HD1 HHbl Hfit _ _ Hxb HY).
        rewrite (code_x_eq Aw Hbl Dz gbh Hgbh HA0 HA64 HD1 Hfit _ _ Hxb HY).
        unfold swz. ring. }
      split.
      - intros (z & y & j & Hz & Hy & Hj & -> & ->). exists z, y, j.
        repeat split; try lia. now apply Hswz.
      - intros (z & y & j & Hz & Hy & Hj & -> & ->). exists z, y, j.
        repeat split; try lia. symmetry. now apply Hswz.
    Qed.

    (** One swizzled address, one pitch address. *)
Lemma rectangle_functional s d d' : In (s, d) L -> In (s, d') L -> d = d'.
    Proof.
      rewrite !In_rectangle.
      intros (z & y & j & Hz & Hy & Hj & Es & ->) (z' & y' & j' & Hz' & Hy' & Hj' & Es' & ->).
      assert (E : swz Aw Dz gbh (ox + j) (oy + Z.of_nat y) (Z.of_nat z)
                  = swz Aw Dz gbh (ox + j') (oy + Z.of_nat y') (Z.of_nat z')) by lia.
      apply (swz_inj Aw Dz gbh (is_pow2_pos _ Hgbh) HA64) in E; lia.
    Qed.

    (** Pitch to block-linear and back: every pitch byte of the rectangle
        is restored, and no other pitch byte is written. *)
Lemma rectangle_round_trip B BL0 P0 a :
      pitchMem (run_bytes true L (mkBuffers (blockLinearMem (run_bytes false L (mkBuffers BL0 B))) P0)) a
      = match last_to a (map swap L) with Some _ => B a | None => P0 a end.
    Proof.
      cbn [run_bytes blockLinearMem pitchMem].
      apply round_trip_bytes. exact rectangle_functional.
    Qed.

Lemma rectangle_copied z y j s :
      (z < D)%nat -> (y < H)%nat -> 0 <= j < n ->
      s = po + Z.of_nat z * (Z.of_nat H * pitchBytes) + Z.of_nat y * pitchBytes + j ->
      exists f, last_to s (map swap L) = Some f.
    Proof.
      intros Hz Hy Hj ->.
      apply (In_last_to _ (bl + swz Aw Dz gbh (ox + j) (oy + Z.of_nat y) (Z.of_nat z))).
      apply (proj2 (In_swap _ _ L)), In_rectangle. exists z, y, j. repeat split; lia.
    Qed.

    (** Pitch to block-linear: a block-linear byte that is not the swizzled
        address of a byte of the rectangle keeps its value. *)
Lemma rectangle_frame B BL0 a :
      (forall z y j, (z < D)%nat -> (y < H)%nat -> 0 <= j < n ->
         a <> bl + swz Aw Dz gbh (ox + j) (oy + Z.of_nat y) (Z.of_nat z)) ->
      blockLinearMem (run_bytes false L (mkBuffers BL0 B)) a = BL0 a.
    Proof.
      intros Hout. cbn [run_bytes blockLinearMem pitchMem]. unfold after_bytes.
      rewrite last_to_not_In; [reflexivity|].
      intros f Hin. apply In_rectangle in Hin.
      destruct Hin as (z & y & j & Hz & Hy & Hj & Es & _). now apply (Hout z y j).
    Qed.

End Rectangle.

  (** *** The copiers as byte moves *)

Lemma same_buffers_trans r1 r2 r3 : same_buffers r1 r2 -> same_buffers r2 r3 -> same_buffers r1 r3.
  Proof.
    intros H12 H23 a. destruct (H12 a) as [-> ->]. apply H23.
  Qed.

Lemma same_buffers_refl r : same_buffers r r.
  Proof. intros a. split; reflexivity. Qed.

Lemma CopyBlockLinearInternal_bytes fuel dir dims fmtBw fmtBh bpb pitch gbh gbd bl po m :
    (5 <= fuel)%nat -> coalescable bpb -> 0 <= width dims < 2 ^ 32 -> 1 <= fmtBw ->
    exists r,
      CopyBlockLinearInternal fuel dir dims fmtBw fmtBh bpb pitch gbh gbd bl po m = Some r /\
      same_buffers r
        (run_bytes dir
           (code_bytes
              (size_t (size_t (gbh * GobHeight) * GobWidth * size_t (AlignUp (depth dims) gbd)))
              (size_t (AlignUp (DivideCeil (width dims) fmtBw * bpb) GobWidth))
              (size_t (gbh * GobHeight)) (size_t (AlignUp (depth dims) gbd))
              (if pitch =? 0 then DivideCeil (width dims) fmtBw * bpb else pitch) gbh 0 0 bl po
              (DivideCeil (width dims) fmtBw * bpb)
              (Z.to_nat (size_t (DivideCeil (height dims) fmtBh)))
              (Z.to_nat (depth dims))) m).
  Proof.
    intros Hfuel Hb Hw Hfw.
    destruct (CopyBlockLinearInternal_reference fuel dir dims fmtBw fmtBh bpb pitch gbh gbd
                bl po m Hfuel Hb Hw Hfw) as (r & Hr & Hsame).
    exists r. split; [exact Hr|].
    eapply same_buffers_trans; [exact Hsame|].
    unfold CopyBlockLinearReference.
    rewrite CopyBlockLinearInternal_body_moves by now apply coalescable_supported.
    pose proof (texture_width_small _ _ Hw Hfw) as HW.
    pose proof (coalescable_pos bpb Hb) as Hbpb.
    assert (EW : size_t (DivideCeil (width dims) fmtBw) = DivideCeil (width dims) fmtBw).
    { apply size_t_small.
      pose proof (DivideCeil_nonneg (width dims) fmtBw ltac:(lia) ltac:(lia)).
      pose proof (DivideCeil_le (width dims) fmtBw ltac:(lia) ltac:(lia)). lia. }
    rewrite EW in *.
    rewrite (size_t_small (DivideCeil (width dims) fmtBw * bpb)) by nia.
    eapply same_buffers_trans; [apply run_moves_run_bytes|].
    rewrite code_moves_bytes0 by (auto; rewrite Z2Nat.id by lia; nia).
    rewrite Z2Nat.id by lia. apply same_buffers_refl.
  Qed.

  (** The coalescing loop of the sub-rectangle copier: it keeps the row
      bytes, and [originXBytes] stays a multiple of the element size. *)
Lemma mod_size_t v m : (m | 2 ^ 64) -> size_t v mod m = v mod m.
  Proof. intros H. unfold size_t. now apply Z.mod_mod_divide. Qed.

Lemma double_divides b : coalescable b -> b <> 16 -> (2 * b | 64) /\ (2 * b | 2 ^ 64).
  Proof.
    intros Hb Hne. cbn in Hb.
    destruct Hb as [ <- | [ <- | [ <- | [ <- | [ <- | [] ] ] ] ] ];
      try (exfalso; apply Hne; reflexivity).
    - split; [exists 32 | exists (2 ^ 63)]; reflexivity.
    - split; [exists 16 | exists (2 ^ 62)]; reflexivity.
    - split; [exists 8 | exists (2 ^ 61)]; reflexivity.
    - split; [exists 4 | exists (2 ^ 60)]; reflexivity.
  Qed.

Lemma coalesce_subrect_total fuel : forall bytes oxb W bpb,
    coalescable bpb -> 16 <= bpb * 2 ^ (Z.of_nat fuel - 1) -> (1 <= fuel)%nat ->
    0 <= W -> W * bpb = bytes -> 0 <= oxb -> oxb mod bpb = 0 ->
    exists W' bpb',
      coalesce_subrect fuel bytes (size_t (AlignUp oxb GobWidth - oxb)) W bpb = Some (W', bpb') /\
      coalescable bpb' /\ 0 <= W' /\ W' * bpb' = bytes /\ oxb mod bpb' = 0.
  Proof.
    induction fuel as [|fuel IH]; intros bytes oxb W bpb Hb Hfuel Hpos HW Hbytes Hox Hdiv; [lia|].
    cbn [coalesce_subrect].
    destruct (bpb =? 16) eqn:E16.
    - exists W, bpb. auto.
    - apply Z.eqb_neq in E16. destruct (shl1 bpb Hb E16) as [Hs Hb2]. rewrite Hs.
      pose proof (coalescable_pos bpb Hb) as Hbpb.
      destruct (double_divides bpb Hb E16) as [H64 H264].
      destruct (IsAligned (size_t (bytes - size_t (AlignUp oxb GobWidth - oxb))) (2 * bpb)
                && IsAligned (size_t (AlignUp oxb GobWidth - oxb)) (2 * bpb)) eqn:EA.
      + apply andb_true_iff in EA. destruct EA as [EA1 EA2].
        unfold IsAligned in EA1, EA2. apply Z.eqb_eq in EA1, EA2.
        pose proof EA2 as EA3.
        rewrite mod_size_t in EA1, EA2 by exact H264.
        assert (Hup : AlignUp oxb GobWidth mod (2 * bpb) = 0).
        { unfold AlignUp, GobWidth. destruct H64 as (c & ->).
          replace (DivideCeil oxb (c * (2 * bpb)) * (c * (2 * bpb)))
            with (DivideCeil oxb (c * (2 * bpb)) * c * (2 * bpb)) by ring.
          apply Z.mod_mul. lia. }
        assert (Hox2 : oxb mod (2 * bpb) = 0).
        { apply Z.mod_divide in Hup, EA2; try lia. apply Z.mod_divide; [lia|].
          destruct Hup as (u & Hu), EA2 as (v & Hv). exists (u - v). clear - Hu Hv. lia. }
        assert (Hb2' : bytes mod (2 * bpb) = 0).
        { apply Z.mod_divide in EA1, EA3; try lia. apply Z.mod_divide; [lia|].
          destruct EA1 as (u & Hu), EA3 as (v & Hv). exists (u + v). clear - Hu Hv. lia. }
        assert (Hhalf : W / 2 * (2 * bpb) = bytes).
        { assert (EAb : IsAligned bytes (2 * bpb) = true) by (unfold IsAligned; now apply Z.eqb_eq).
          pose proof (IsAligned_even bytes bpb ltac:(nia) ltac:(lia) EAb) as Hev.
          rewrite <- Hbytes in Hev at 1. rewrite Z.div_mul in Hev by lia. exact Hev. }
        apply IH; auto.
        * replace (Z.of_nat (S fuel) - 1) with (Z.of_nat fuel) in Hfuel by lia.
          destruct fuel as [|fuel]; [cbn in Hfuel; lia|].
          replace (Z.of_nat (S fuel) - 1) with (Z.of_nat fuel) by lia.
          rewrite Nat2Z.inj_succ, Z.pow_succ_r in Hfuel by lia. lia.
        * destruct fuel as [|fuel]; [|lia]. cbn in Hfuel. lia.
        * apply Z.div_pos; lia.
      + exists W, bpb. auto.
  Qed.

Lemma u32_small x : 0 <= x < 2 ^ 32 -> u32 x = x.
  Proof. intros H. unfold u32. now apply Z.mod_small. Qed.

Lemma CopyBlockLinearSubrectInternal_bytes fuel dir pitchDims blockLinearDims
      fmtBw fmtBh bpb pitch gbh gbd bl po originX originY m :
    (5 <= fuel)%nat -> coalescable bpb ->
    0 <= width pitchDims < 2 ^ 32 -> 1 <= fmtBw < 2 ^ 32 -> 0 <= originX < 2 ^ 32 ->
    exists r,
      CopyBlockLinearSubrectInternal fuel dir pitchDims blockLinearDims fmtBw fmtBh bpb pitch
        gbh gbd bl po originX originY m = Some r /\
      same_buffers r
        (run_bytes dir
           (code_bytes
              (size_t (size_t (gbh * GobHeight) * GobWidth
                       * size_t (AlignUp (depth blockLinearDims) gbd)))
              (size_t (AlignUp (size_t (size_t (DivideCeil (width blockLinearDims) fmtBw) * bpb))
                               GobWidth))
              (size_t (gbh * GobHeight)) (size_t (AlignUp (depth blockLinearDims) gbd))
              (if pitch =? 0 then DivideCeil (width pitchDims) fmtBw * bpb else pitch) gbh
              (DivideCeil originX fmtBw * bpb) (size_t (DivideCeil originY fmtBh)) bl po
              (DivideCeil (width pitchDims) fmtBw * bpb)
              (Z.to_nat (size_t (DivideCeil (height pitchDims) fmtBh)))
              (Z.to_nat (depth blockLinearDims))) m).
  Proof.
    intros Hfuel Hb Hw Hfw Hox.
    pose proof (coalescable_pos bpb Hb) as Hbpb.
    pose proof (DivideCeil_nonneg (width pitchDims) fmtBw ltac:(lia) ltac:(lia)) as HW0.
    pose proof (DivideCeil_le (width pitchDims) fmtBw ltac:(lia) ltac:(lia)) as HW1.
    pose proof (DivideCeil_nonneg originX fmtBw ltac:(lia) ltac:(lia)) as HO0.
    pose proof (DivideCeil_le originX fmtBw ltac:(lia) ltac:(lia)) as HO1.
    set (W := DivideCeil (width pitchDims) fmtBw) in *.
    set (o := DivideCeil originX fmtBw) in *.
    unfold CopyBlockLinearSubrectInternal. cbv zeta.
    rewrite (u32_small fmtBw) by lia. fold o. fold W. rewrite (u32_small o) by lia.
    rewrite (size_t_small W) by lia.
    rewrite (size_t_small (W * bpb)) by nia.
    rewrite (size_t_small (o * bpb)) by nia.
    rewrite (coalescable_not_12 bpb Hb).
    destruct (coalesce_subrect_total fuel (W * bpb) (o * bpb) W bpb Hb
                (enough_fuel fuel bpb Hb Hfuel) ltac:(lia) ltac:(lia) eq_refl ltac:(nia)
                (Z.mod_mul o bpb ltac:(lia)))
      as (W' & bpb' & Hc & Hb' & HW' & Hbytes' & Hdiv').
    rewrite Hc.
    pose proof (coalescable_pos bpb' Hb') as Hbpb'.
    eexists. split; [reflexivity|].
    assert (Hmatch : forall (X Y : Buffers),
              match bpb' with 1 | 2 | 4 | 8 | 12 | 16 => X | _ => Y end = X).
    { intros X Y. cbn in Hb'.
      destruct Hb' as [ <- | [ <- | [ <- | [ <- | [ <- | [] ] ] ] ] ]; reflexivity. }
    rewrite Hmatch, copyTextureSubrect_moves.
    eapply same_buffers_trans; [apply run_moves_run_bytes|].
    assert (Eo : o * bpb = (o * bpb / bpb') * bpb').
    { pose proof (Z.div_mod (o * bpb) bpb' ltac:(lia)). lia. }
    rewrite Eo at 1.
    rewrite code_moves_bytes.
    - rewrite <- Eo, Z2Nat.id, Hbytes' by lia. apply same_buffers_refl.
    - exact Hb'.
    - apply Z.div_pos; nia.
    - rewrite Z2Nat.id by lia. rewrite Z.mul_add_distr_r, <- Eo, Hbytes'. nia.
  Qed.

Lemma after_bytes_ext src src' l dst a :
    (forall s, src s = src' s) -> after_bytes src l dst a = after_bytes src' l dst a.
  Proof. intros H. unfold after_bytes. destruct (last_to a l); [apply H | reflexivity]. Qed.

Lemma spec_offset_swz Aw Dz gbh gbd bpb x y z :
    0 < gbh -> 0 < gbd ->
    spec.offset Aw Dz gbh gbd bpb x y z = swz Aw Dz gbh (x * bpb) y z.
  Proof. intros Hg Hd. now rewrite spec_offset_eq. Qed.

Lemma swz_chunk Aw Dz gbh e X k y z :
    coalescable e -> 0 <= X -> 0 <= k < e ->
    swz Aw Dz gbh (X * e + k) y z = swz Aw Dz gbh (X * e) y z + k.
  Proof.
    intros He HX Hk. destruct (gob_x_chunk e X k He HX Hk) as [Hg Hd].
    unfold swz. rewrite Hg, Hd. ring.
  Qed.

  (** The bytes of the rows of a format: byte [j] of a row is byte
      [j mod bpb] of element [j / bpb]. *)
Lemma row_byte_element bpb W j :
    1 <= bpb -> 0 <= j < W * bpb ->
    0 <= j / bpb < W /\ 0 <= j mod bpb < bpb /\ j = j / bpb * bpb + j mod bpb.
  Proof.
    intros Hb Hj. pose proof (Z.div_mod j bpb ltac:(lia)) as E.
    pose proof (Z.mod_pos_bound j bpb ltac:(lia)) as Hm.
    split; [|split; [exact Hm | lia]].
    split; [apply Z.div_pos; lia | apply Z.div_lt_upper_bound; nia].
  Qed.

  (** X24: the round trip of the full-surface copiers restores every byte of
      every element when the elements have 1, 2, 4, 8 or 16 bytes, and
      writes nothing else. *)
Theorem round_trip_restores_coalescable :
    forall fuel w h d fmtBw fmtBh bpb pitch gbh gbd B dst fresh,
      (5 <= fuel)%nat -> coalescable bpb ->
      0 <= w < 2 ^ 32 -> 0 <= h < 2 ^ 32 -> 1 <= d < 2 ^ 32 ->
      1 <= fmtBw -> 1 <= fmtBh -> is_pow2 gbh -> is_pow2 gbd ->
      spec.blockLinearLayerSize w h d fmtBw fmtBh bpb gbh gbd < 2 ^ 64 ->
      let W := spec.ceil_div w fmtBw in
      let H := spec.ceil_div h fmtBh in
      let pitchBytes := if pitch =? 0 then W * bpb else pitch in
      exists B',
        scenarios.round_trip fuel (mkDimensions w h d) fmtBw fmtBh bpb pitch gbh gbd B dst fresh
          = Some B' /\
        (forall x y z k, 0 <= x < W -> 0 <= y < H -> 0 <= z < d -> 0 <= k < bpb ->
           B' ((z * H + y) * pitchBytes + x * bpb + k)
           = B ((z * H + y) * pitchBytes + x * bpb + k)) /\
        (forall a, B' a = B a \/ B' a = fresh a).
  Proof.
    intros fuel w h d fmtBw fmtBh bpb pitch gbh gbd B dst fresh Hfuel Hb Hw Hh Hd Hfw Hfh
           Hgh Hgd Hfit W H pitchBytes.
    pose proof (coalescable_pos bpb Hb) as Hbpb.
    pose proof (is_pow2_pos _ Hgd) as Hgd0.
    unfold scenarios.round_trip, layout.CopyPitchToBlockLinear, layout.CopyBlockLinearToPitch.
    destruct (CopyBlockLinearInternal_bytes fuel false (mkDimensions w h d) fmtBw fmtBh bpb pitch
                gbh gbd 0 0 (mkBuffers dst B) Hfuel Hb Hw Hfw) as (r1 & E1 & S1).
    rewrite E1.
    destruct (CopyBlockLinearInternal_bytes fuel true (mkDimensions w h d) fmtBw fmtBh bpb pitch
                gbh gbd 0 0 (mkBuffers (blockLinearMem r1) fresh) Hfuel Hb Hw Hfw)
      as (r2 & E2 & S2).
    rewrite E2. cbn [width height depth] in S1, S2.
    change spec.ceil_div with DivideCeil in *.
    unfold spec.blockLinearLayerSize in Hfit. cbv zeta in Hfit.
    change spec.ceil_div with DivideCeil in Hfit. change spec.align_up with AlignUp in Hfit.
    fold W in S1, S2, Hfit. fold pitchBytes in S1, S2.
    pose proof (DivideCeil_nonneg w fmtBw ltac:(lia) ltac:(lia)) as HW0. fold W in HW0.
    pose proof (DivideCeil_nonneg h fmtBh ltac:(lia) ltac:(lia)) as HH0. fold H in HH0.
    pose proof (DivideCeil_le h fmtBh ltac:(lia) ltac:(lia)) as HH1. fold H in HH1.
    fold H in S1, S2, Hfit. rewrite (size_t_small H) in S1, S2 by lia.
    assert (HWb : 0 <= W * bpb) by nia.
    pose proof (AlignUp_bounds (W * bpb) 64 ltac:(lia) HWb) as HAw.
    pose proof (AlignUp_bounds d gbd Hgd0 ltac:(lia)) as HDz.
    assert (HA64 : AlignUp (W * bpb) 64 mod 64 = 0) by (apply AlignUp_mod; lia).
    set (L := code_bytes _ _ _ _ pitchBytes gbh 0 0 0 0 (W * bpb) (Z.to_nat H) (Z.to_nat d))
      in S1, S2.
    assert (Hkey : forall a, pitchMem r2 a
                     = match last_to a (map swap L) with Some _ => B a | None => fresh a end).
    { intros a. destruct (S2 a) as [_ ->]. cbn [run_bytes pitchMem blockLinearMem].
      rewrite (after_bytes_ext _ (after_bytes B L dst)).
      2: { intros s. destruct (S1 s) as [-> _]. reflexivity. }
      apply round_trip_bytes. unfold L, GobWidth.
      apply (rectangle_functional (AlignUp (W * bpb) 64) H (AlignUp d gbd) gbh 0 0 (W * bpb)
               (Z.to_nat H) (Z.to_nat d)); try lia; auto. }
    eexists. split; [reflexivity|]. split.
    - intros x y z k Hx Hy Hz Hk. rewrite Hkey.
      destruct (rectangle_copied (AlignUp (W * bpb) 64) H (AlignUp d gbd) gbh 0 0 (W * bpb)
                  (Z.to_nat H) (Z.to_nat d) Hgh ltac:(lia) HA64 ltac:(lia) HH0 Hfit
                  ltac:(lia) ltac:(lia) ltac:(lia) ltac:(lia) pitchBytes 0 0
                  (Z.to_nat z) (Z.to_nat y) (x * bpb + k)
                  ((z * H + y) * pitchBytes + x * bpb + k)) as (f & Hf).
      + clear - Hz. lia.
      + clear - Hy. lia.
      + clear - Hx Hk Hbpb. nia.
      + rewrite !Z2Nat.id by (clear - Hz Hy HH0; lia). ring.
      + change (last_to ((z * H + y) * pitchBytes + x * bpb + k) (map swap L) = Some f) in Hf.
        now rewrite Hf.
    - intros a. rewrite Hkey. destruct (last_to a (map swap L)); auto.
  Qed.

  (** X25: the round trip of the sub-rectangle copiers restores every byte of
      every element of the rectangle when the elements have 1, 2, 4, 8 or
      16 bytes and the rectangle lies inside the surface; the first copy
      writes only the swizzled bytes of the rectangle's elements. *)
Theorem subrect_round_trip_restores_coalescable :
    forall fuel pw ph pd bw bh bd fmtBw fmtBh bpb pitch gbh gbd originX originY B dst fresh,
      (5 <= fuel)%nat -> coalescable bpb ->
      0 <= pw < 2 ^ 32 -> 0 <= ph < 2 ^ 32 ->
      0 <= bw < 2 ^ 32 -> 0 <= bh < 2 ^ 32 -> 1 <= bd < 2 ^ 32 ->
      1 <= fmtBw < 2 ^ 32 -> 1 <= fmtBh ->
      0 <= originX < 2 ^ 32 -> 0 <= originY < 2 ^ 32 ->
      is_pow2 gbh -> is_pow2 gbd ->
      spec.blockLinearLayerSize bw bh bd fmtBw fmtBh bpb gbh gbd < 2 ^ 64 ->
      let W := spec.ceil_div pw fmtBw in
      let H := spec.ceil_div ph fmtBh in
      let ox := spec.ceil_div originX fmtBw in
      let oy := spec.ceil_div originY fmtBh in
      let Aw := spec.align_up (spec.ceil_div bw fmtBw * bpb) 64 in
      let Dz := spec.align_up bd gbd in
      let pitchBytes := if pitch =? 0 then W * bpb else pitch in
      ox + W <= spec.ceil_div bw fmtBw ->
      oy + H <= spec.ceil_div bh fmtBh ->
      exists m1 B',
        layout.CopyPitchToBlockLinearSubrect fuel (mkDimensions pw ph pd) (mkDimensions bw bh bd)
          fmtBw fmtBh bpb pitch gbh gbd 0 0 originX originY (mkBuffers dst B) = Some m1 /\
        scenarios.round_trip_subrect fuel (mkDimensions pw ph pd) (mkDimensions bw bh bd)
          fmtBw fmtBh bpb pitch gbh gbd originX originY B dst fresh = Some B' /\
        (forall x y z k, 0 <= x < W -> 0 <= y < H -> 0 <= z < bd -> 0 <= k < bpb ->
           B' ((z * H + y) * pitchBytes + x * bpb + k)
           = B ((z * H + y) * pitchBytes + x * bpb + k)) /\
        (forall a,
           (forall x y z k, 0 <= x < W -> 0 <= y < H -> 0 <= z < bd -> 0 <= k < bpb ->
              a <> spec.offset Aw Dz gbh gbd bpb (ox + x) (oy + y) z + k) ->
           blockLinearMem m1 a = dst a).
  Proof.
    intros fuel pw ph pd bw bh bd fmtBw fmtBh bpb pitch gbh gbd originX originY B dst fresh
           Hfuel Hb Hpw Hph Hbw Hbh Hbd Hfw Hfh HoX HoY Hgh Hgd Hfit
           W H ox oy Aw Dz pitchBytes Hinx Hiny.
    pose proof (coalescable_pos bpb Hb) as Hbpb.
    assert (Hb16 : bpb <= 16).
    { unfold coalescable in Hb. cbn [In] in Hb. lia. }
    pose proof (is_pow2_pos _ Hgd) as Hgd0.
    pose proof (is_pow2_pos _ Hgh) as Hgh0.
    unfold scenarios.round_trip_subrect, layout.CopyPitchToBlockLinearSubrect,
      layout.CopyBlockLinearToPitchSubrect.
    destruct (CopyBlockLinearSubrectInternal_bytes fuel false (mkDimensions pw ph pd)
                (mkDimensions bw bh bd) fmtBw fmtBh bpb pitch gbh gbd 0 0 originX originY
                (mkBuffers dst B) Hfuel Hb Hpw Hfw HoX) as (r1 & E1 & S1).
    rewrite E1.
    destruct (CopyBlockLinearSubrectInternal_bytes fuel true (mkDimensions pw ph pd)
                (mkDimensions bw bh bd) fmtBw fmtBh bpb pitch gbh gbd 0 0 originX originY
                (mkBuffers (blockLinearMem r1) fresh) Hfuel Hb Hpw Hfw HoX) as (r2 & E2 & S2).
    rewrite E2. cbn [width height depth] in S1, S2.
    unfold spec.blockLinearLayerSize in Hfit. cbv zeta in Hfit.
    change spec.ceil_div with DivideCeil in *. change spec.align_up with AlignUp in *.
    set (Wbl := DivideCeil bw fmtBw) in *. set (Hbl := DivideCeil bh fmtBh) in *.
    fold W in S1, S2. fold pitchBytes in S1, S2. fold H in S1, S2. fold ox in S1, S2.
    fold oy in S1, S2. fold Dz in S1, S2, Hfit.
    pose proof (DivideCeil_nonneg pw fmtBw ltac:(lia) ltac:(lia)) as HW0. fold W in HW0.
    pose proof (DivideCeil_nonneg ph fmtBh ltac:(lia) ltac:(lia)) as HH0. fold H in HH0.
    pose proof (DivideCeil_le ph fmtBh ltac:(lia) ltac:(lia)) as HH1. fold H in HH1.
    pose proof (DivideCeil_nonneg bw fmtBw ltac:(lia) ltac:(lia)) as HWb0. fold Wbl in HWb0.
    pose proof (DivideCeil_le bw fmtBw ltac:(lia) ltac:(lia)) as HWb1. fold Wbl in HWb1.
    pose proof (DivideCeil_nonneg bh fmtBh ltac:(lia) ltac:(lia)) as HHb0. fold Hbl in HHb0.
    pose proof (DivideCeil_nonneg originX fmtBw ltac:(lia) ltac:(lia)) as Hox0. fold ox in Hox0.
    pose proof (DivideCeil_nonneg originY fmtBh ltac:(lia) ltac:(lia)) as Hoy0. fold oy in Hoy0.
    pose proof (DivideCeil_le originY fmtBh ltac:(lia) ltac:(lia)) as Hoy1. fold oy in Hoy1.
    rewrite (size_t_small H), (size_t_small oy), (size_t_small Wbl) in S1, S2 by lia.
    rewrite (size_t_small (Wbl * bpb)) in S1, S2 by nia.
    fold Aw in S1, S2, Hfit.
    assert (HWbb : 0 <= Wbl * bpb) by nia.
    pose proof (AlignUp_bounds (Wbl * bpb) 64 ltac:(lia) HWbb) as HAw. fold Aw in HAw.
    pose proof (AlignUp_bounds bd gbd Hgd0 ltac:(lia)) as HDz. fold Dz in HDz.
    assert (HA64 : Aw mod 64 = 0) by (apply AlignUp_mod; lia).
    assert (Hwide : ox * bpb + W * bpb <= Aw) by nia.
    set (L := code_bytes _ _ _ _ pitchBytes gbh (ox * bpb) oy 0 0 (W * bpb) (Z.to_nat H)
                (Z.to_nat bd)) in S1, S2.
    assert (Hkey : forall a, pitchMem r2 a
                     = match last_to a (map swap L) with Some _ => B a | None => fresh a end).
    { intros a. destruct (S2 a) as [_ ->]. cbn [run_bytes pitchMem blockLinearMem].
      rewrite (after_bytes_ext _ (after_bytes B L dst)).
      2: { intros s. destruct (S1 s) as [-> _]. reflexivity. }
      apply round_trip_bytes. unfold L, GobWidth.
      apply (rectangle_functional Aw Hbl Dz gbh (ox * bpb) oy (W * bpb)
               (Z.to_nat H) (Z.to_nat bd)); try lia; auto. }
    assert (Hhigh : oy + Z.of_nat (Z.to_nat H) <= Hbl) by lia.
    assert (Hoxb : 0 <= ox * bpb) by nia.
    assert (HA0 : 0 <= Aw) by lia.
    assert (HD1 : 1 <= Dz) by lia.
    eexists. eexists. split; [reflexivity|]. split; [reflexivity|]. split.
    - intros x y z k Hx Hy Hz Hk. rewrite Hkey.
      destruct (rectangle_copied Aw Hbl Dz gbh (ox * bpb) oy (W * bpb)
                  (Z.to_nat H) (Z.to_nat bd) Hgh HA0 HA64 HD1 HHb0 Hfit
                  Hoxb Hoy0 Hwide Hhigh pitchBytes 0 0
                  (Z.to_nat z) (Z.to_nat y) (x * bpb + k)
                  ((z * H + y) * pitchBytes + x * bpb + k)) as (f & Hf).
      + clear - Hz. lia.
      + clear - Hy. lia.
      + clear - Hx Hk Hbpb. nia.
      + rewrite !Z2Nat.id by (clear - Hz Hy HH0; lia). ring.
      + change (last_to ((z * H + y) * pitchBytes + x * bpb + k) (map swap L) = Some f) in Hf.
        now rewrite Hf.
    - intros a Hout. destruct (S1 a) as [-> _].
      apply (rectangle_frame Aw Hbl Dz gbh (ox * bpb) oy (W * bpb)
               (Z.to_nat H) (Z.to_nat bd) Hgh HA0 HA64 HD1 HHb0 Hfit
               Hoxb Hoy0 Hwide Hhigh pitchBytes 0 0).
      intros z y j Hz Hy Hj.
      destruct (row_byte_element bpb W j ltac:(lia) Hj) as (Hq & Hr & Ej).
      specialize (Hout (j / bpb) (Z.of_nat y) (Z.of_nat z) (j mod bpb) Hq ltac:(lia) ltac:(lia) Hr).
      rewrite (spec_offset_swz Aw Dz gbh gbd bpb _ _ _ Hgh0 Hgd0) in Hout.
      rewrite <- (swz_chunk Aw Dz gbh bpb (ox + j / bpb) (j mod bpb) _ _ Hb ltac:(lia) Hr) in Hout.
      replace (ox * bpb + j) with ((ox + j / bpb) * bpb + j mod bpb) by lia.
      cbn [Z.add]. exact Hout.
  Qed.

End RoundTripFacts.

(** ** What a copy reads and writes *)

Module CopyExtras.
Import util layout aux UtilFacts ByteFacts CoalesceFacts OffsetFacts CopyFacts InjectFacts
         RoundTripFacts.

  (** The value of a buffer after byte moves that write every address from
      one source only. *)
Lemma after_bytes_In src l dst t f :
    (forall t f f', In (t, f) l -> In (t, f') l -> f = f') ->
    In (t, f) l -> after_bytes src l dst t = src f.
  Proof.
    intros Hfun Hin. unfold after_bytes.
    destruct (In_last_to t f l Hin) as (f' & E). rewrite E.
    apply last_to_In in E. now rewrite (Hfun t f f' Hin E).
  Qed.

Lemma after_bytes_not_In src l dst t :
    (forall f, ~ In (t, f) l) -> after_bytes src l dst t = dst t.
  Proof. intros H. unfold after_bytes. now rewrite last_to_not_In. Qed.

  (** The byte moves of a copy of a whole surface, element by element. *)
Lemma surface_bytes fuel dir w h d fmtBw fmtBh bpb pitch gbh gbd bl po m :
    (5 <= fuel)%nat -> coalescable bpb ->
    0 <= w < 2 ^ 32 -> 0 <= h < 2 ^ 32 -> 1 <= d ->
    1 <= fmtBw -> 1 <= fmtBh -> is_pow2 gbh -> is_pow2 gbd ->
    AlignUp (DivideCeil w fmtBw * bpb) 64 * (8 * gbh)
      * DivideCeil (DivideCeil h fmtBh) (8 * gbh) * AlignUp d gbd < 2 ^ 64 ->
    let W := DivideCeil w fmtBw in
    let H := DivideCeil h fmtBh in
    let pitchBytes := if pitch =? 0 then W * bpb else pitch in
    let Aw := AlignUp (W * bpb) 64 in
    let Dz := AlignUp d gbd in
    exists r L,
      CopyBlockLinearInternal fuel dir (mkDimensions w h d) fmtBw fmtBh bpb pitch gbh gbd
        bl po m = Some r /\
      same_buffers r (run_bytes dir L m) /\
      (forall s t, In (s, t) L <->
         exists x y z k, 0 <= x < W /\ 0 <= y < H /\ 0 <= z < d /\ 0 <= k < bpb /\
           s = bl + spec.offset Aw Dz gbh gbd bpb x y z + k /\
           t = po + (z * H + y) * pitchBytes + x * bpb + k) /\
      (forall s t t', In (s, t) L -> In (s, t') L -> t = t').
  Proof.
    intros Hfuel Hb Hw Hh Hd Hfw Hfh Hgh Hgd Hfit W H pitchBytes Aw Dz.
    pose proof (coalescable_pos bpb Hb) as Hbpb.
    pose proof (is_pow2_pos _ Hgd) as Hgd0. pose proof (is_pow2_pos _ Hgh) as Hgh0.
    destruct (CopyBlockLinearInternal_bytes fuel dir (mkDimensions w h d) fmtBw fmtBh bpb pitch
                gbh gbd bl po m Hfuel Hb Hw Hfw) as (r & E & S).
    cbn [width height depth] in S. fold W in S. fold pitchBytes in S. fold H in S.
    pose proof (DivideCeil_nonneg w fmtBw ltac:(lia) ltac:(lia)) as HW0. fold W in HW0.
    pose proof (DivideCeil_nonneg h fmtBh ltac:(lia) ltac:(lia)) as HH0. fold H in HH0.
    pose proof (DivideCeil_le h fmtBh ltac:(lia) ltac:(lia)) as HH1. fold H in HH1.
    rewrite (size_t_small H) in S by lia.
    assert (HWb : 0 <= W * bpb) by (apply Z.mul_nonneg_nonneg; lia).
    pose proof (AlignUp_bounds (W * bpb) 64 ltac:(lia) HWb) as HAw. fold Aw in HAw.
    pose proof (AlignUp_bounds d gbd Hgd0 ltac:(lia)) as HDz. fold Dz in HDz.
    assert (HA64 : Aw mod 64 = 0) by (apply AlignUp_mod; lia).
    assert (HA0 : 0 <= Aw) by lia. assert (HD1 : 1 <= Dz) by lia.
    assert (Hwide : 0 + W * bpb <= Aw) by lia.
    assert (Hhigh : 0 + Z.of_nat (Z.to_nat H) <= H) by lia.
    assert (Hdeep : Z.of_nat (Z.to_nat d) <= Dz) by lia.
    change (AlignUp (W * bpb) GobWidth) with Aw in S. fold Dz in S.
    set (L := code_bytes _ _ _ _ pitchBytes gbh 0 0 bl po (W * bpb) (Z.to_nat H) (Z.to_nat d))
      in S.
    exists r, L. split; [exact E|]. split; [exact S|]. split.
    - intros s t. unfold L.
      rewrite (In_rectangle Aw H Dz gbh 0 0 (W * bpb) (Z.to_nat H) (Z.to_nat d) Hgh HA0 HA64
                 HD1 HH0 Hfit (Z.le_refl 0) (Z.le_refl 0) Hwide Hhigh pitchBytes bl po s t).
      split.
      + intros (z & y & j & Hz & Hy & Hj & -> & ->).
        destruct (row_byte_element bpb W j ltac:(lia) Hj) as (Hq & Hr & Ej).
        exists (j / bpb), (Z.of_nat y), (Z.of_nat z), (j mod bpb).
        split; [exact Hq|]. split; [lia|]. split; [lia|]. split; [exact Hr|].
        rewrite (spec_offset_swz Aw Dz gbh gbd bpb _ _ _ Hgh0 Hgd0).
        rewrite <- Z.add_assoc.
        rewrite <- (swz_chunk Aw Dz gbh bpb (j / bpb) (j mod bpb) _ _ Hb ltac:(lia) Hr).
        rewrite <- Ej. cbn [Z.add]. split; [reflexivity|].
        rewrite Z2Nat.id by lia. rewrite Ej at 1. ring.
      + intros (x & y & z & k & Hx & Hy & Hz & Hk & -> & ->).
        exists (Z.to_nat z), (Z.to_nat y), (x * bpb + k).
        split; [lia|]. split; [lia|]. split; [clear - Hx Hk Hbpb; nia|].
        rewrite !Z2Nat.id by lia.
        rewrite (spec_offset_swz Aw Dz gbh gbd bpb _ _ _ Hgh0 Hgd0).
        rewrite (swz_chunk Aw Dz gbh bpb x k _ _ Hb ltac:(lia) Hk).
        cbn [Z.add]. split; ring.
    - intros s t t'. unfold L.
      apply (rectangle_functional Aw H Dz gbh 0 0 (W * bpb) (Z.to_nat H) (Z.to_nat d) Hgh HA0
               HA64 HD1 HH0 Hfit (Z.le_refl 0) (Z.le_refl 0) Hwide Hhigh Hdeep pitchBytes bl po).
  Qed.

  (** The swizzled offset of a byte of the surface lies inside the layer. *)
Lemma swz_range Aw Hbl Dz gbh xb y z :
    0 < gbh -> Aw mod 64 = 0 -> 0 <= xb < Aw -> 0 <= y < Hbl -> 0 <= z < Dz ->
    0 <= swz Aw Dz gbh xb y z < Aw * (8 * gbh) * DivideCeil Hbl (8 * gbh) * Dz.
  Proof.
    intros Hg HA Hxb Hy Hz. unfold swz.
    pose proof (gob_sum_range y xb) as Hgs.
    set (g := gob_y y + gob_x xb) in *.
    set (RH := 8 * gbh) in *. assert (HRH : 0 < RH) by (unfold RH; lia).
    pose proof (Z.mod_pos_bound y RH HRH) as Hm.
    assert (Hr8 : 0 <= y mod RH / 8 < gbh).
    { split; [apply Z.div_pos; lia | apply Z.div_lt_upper_bound; unfold RH in *; lia]. }
    set (r8 := y mod RH / 8) in *.
    assert (HAw : Aw = Aw / 64 * 64) by (pose proof (Z.div_mod Aw 64 ltac:(lia)); lia).
    set (k := Aw / 64) in *.
    assert (Hbx : 0 <= xb / 64 < k).
    { split; [apply Z.div_pos; lia | apply Z.div_lt_upper_bound; lia]. }
    set (bx := xb / 64) in *.
    pose proof (DivideCeil_bounds Hbl RH HRH ltac:(lia)) as Hrows.
    assert (Hq : 0 <= y / RH < DivideCeil Hbl RH).
    { split; [apply Z.div_pos; lia|]. apply Z.div_lt_upper_bound; [lia|]. lia. }
    set (q := y / RH) in *. set (rows := DivideCeil Hbl RH) in *.
    pose proof (digit_range r8 g 512 gbh Hr8 Hgs) as Ht1.
    pose proof (digit_range z (r8 * 512 + g) (gbh * 512) Dz Hz Ht1) as Ht2.
    pose proof (digit_range bx (z * (gbh * 512) + (r8 * 512 + g)) (Dz * (gbh * 512)) k Hbx Ht2)
      as Ht3.
    pose proof (digit_range q (bx * (Dz * (gbh * 512)) + (z * (gbh * 512) + (r8 * 512 + g)))
                  (k * (Dz * (gbh * 512))) rows Hq Ht3) as Ht4.
    rewrite HAw. unfold RH, g in *. clear - Ht4. lia.
  Qed.

Lemma flat_map_nil {A B : Type} (f : A -> list B) l :
    (forall a, In a l -> f a = []) -> flat_map f l = [].
  Proof.
    induction l as [|a l IH]; intros H; [reflexivity|].
    cbn [flat_map]. rewrite (H a (or_introl eq_refl)), IH; [reflexivity|].
    intros b Hb. apply H. now right.
  Qed.

Lemma run_bytes_nil dir m : same_buffers (run_bytes dir [] m) m.
  Proof. intros a. destruct dir; split; reflexivity. Qed.

  (** Rows that do not overlap: a pitch byte is written from one
      block-linear byte only. *)
Lemma pitch_side_functional (L : list (Z * Z)) W H d bpb pitchBytes bl po
      (off : Z -> Z -> Z -> Z) :
    1 <= bpb -> W * bpb <= pitchBytes ->
    (forall s t, In (s, t) L <->
       exists x y z k, 0 <= x < W /\ 0 <= y < H /\ 0 <= z < d /\ 0 <= k < bpb /\
         s = bl + off x y z + k /\
         t = po + (z * H + y) * pitchBytes + x * bpb + k) ->
    forall t s s', In (t, s) (map swap L) -> In (t, s') (map swap L) -> s = s'.
  Proof.
    intros Hbpb Hrows HL t s s' H1 H2.
    apply (proj1 (In_swap _ _ L)) in H1, H2. apply HL in H1, H2.
    destruct H1 as (x & y & z & k & Hx & Hy & Hz & Hk & -> & Et).
    destruct H2 as (x' & y' & z' & k' & Hx' & Hy' & Hz' & Hk' & -> & Et').
    assert (Hj : 0 <= x * bpb + k < pitchBytes) by (clear - Hx Hk Hbpb Hrows; nia).
    assert (Hj' : 0 <= x' * bpb + k' < pitchBytes) by (clear - Hx' Hk' Hbpb Hrows; nia).
    assert (E1 : (z * H + y) * pitchBytes + (x * bpb + k)
                 = (z' * H + y') * pitchBytes + (x' * bpb + k')) by lia.
    destruct (radix_unique _ _ _ _ _ Hj Hj' E1) as [E2 E3].
    destruct (radix_unique _ _ _ _ _ Hy Hy' E2) as [-> ->].
    destruct (radix_unique _ _ _ _ _ Hk Hk' E3) as [-> ->]. reflexivity.
  Qed.

  (** X8. Pitch to block-linear, elements of 1, 2, 4, 8 or 16 bytes:
      byte [k] of element [(x, y, z)] is written at the offset of
      section 4.B plus [k], every other block-linear byte keeps its value,
      and the pitch buffer is not written. *)
Theorem pitch_to_block_linear_scatters :
    forall fuel w h d fmtBw fmtBh bpb pitch gbh gbd po bl BL0 B,
      (5 <= fuel)%nat -> coalescable bpb ->
      0 <= w < 2 ^ 32 -> 0 <= h < 2 ^ 32 -> 1 <= d ->
      1 <= fmtBw -> 1 <= fmtBh -> is_pow2 gbh -> is_pow2 gbd ->
      AlignUp (DivideCeil w fmtBw * bpb) 64 * (8 * gbh)
        * DivideCeil (DivideCeil h fmtBh) (8 * gbh) * AlignUp d gbd < 2 ^ 64 ->
      let W := DivideCeil w fmtBw in
      let H := DivideCeil h fmtBh in
      let pitchBytes := if pitch =? 0 then W * bpb else pitch in
      let Aw := AlignUp (W * bpb) 64 in
      let Dz := AlignUp d gbd in
      exists r,
        layout.CopyPitchToBlockLinear fuel (mkDimensions w h d) fmtBw fmtBh bpb pitch gbh gbd
          po bl (mkBuffers BL0 B) = Some r /\
        (forall x y z k, 0 <= x < W -> 0 <= y < H -> 0 <= z < d -> 0 <= k < bpb ->
           blockLinearMem r (bl + spec.offset Aw Dz gbh gbd bpb x y z + k)
           = B (po + (z * H + y) * pitchBytes + x * bpb + k)) /\
        (forall a,
           (forall x y z k, 0 <= x < W -> 0 <= y < H -> 0 <= z < d -> 0 <= k < bpb ->
              a <> bl + spec.offset Aw Dz gbh gbd bpb x y z + k) ->
           blockLinearMem r a = BL0 a) /\
        (forall a, pitchMem r a = B a).
  Proof.
    intros fuel w h d fmtBw fmtBh bpb pitch gbh gbd po bl BL0 B Hfuel Hb Hw Hh Hd Hfw Hfh
           Hgh Hgd Hfit W H pitchBytes Aw Dz.
    destruct (surface_bytes fuel false w h d fmtBw fmtBh bpb pitch gbh gbd bl po
                (mkBuffers BL0 B) Hfuel Hb Hw Hh Hd Hfw Hfh Hgh Hgd Hfit)
      as (r & L & E & S & HL & Hfun).
    exists r. split; [exact E|]. split; [|split].
    - intros x y z k Hx Hy Hz Hk. destruct (S (bl + spec.offset Aw Dz gbh gbd bpb x y z + k))
        as [-> _]. cbn [run_bytes blockLinearMem pitchMem].
      apply (after_bytes_In _ _ _ _ _ Hfun). apply HL. exists x, y, z, k. auto 10.
    - intros a Hout. destruct (S a) as [-> _]. cbn [run_bytes blockLinearMem pitchMem].
      apply after_bytes_not_In. intros f Hin. apply HL in Hin.
      destruct Hin as (x & y & z & k & Hx & Hy & Hz & Hk & Ea & _).
      now apply (Hout x y z k).
    - intros a. destruct (S a) as [_ ->]. reflexivity.
  Qed.

  (** X9. Block-linear to pitch, elements of 1, 2, 4, 8 or 16 bytes, rows
      that do not overlap: byte [k] of element [(x, y, z)] of the pitch
      buffer receives the block-linear byte at the offset of section 4.B
      plus [k]; the padding of the rows and every other pitch byte keep
      their values, and the block-linear buffer is not written. *)
Theorem block_linear_to_pitch_gathers :
    forall fuel w h d fmtBw fmtBh bpb pitch gbh gbd bl po BL P0,
      (5 <= fuel)%nat -> coalescable bpb ->
      0 <= w < 2 ^ 32 -> 0 <= h < 2 ^ 32 -> 1 <= d ->
      1 <= fmtBw -> 1 <= fmtBh -> is_pow2 gbh -> is_pow2 gbd ->
      AlignUp (DivideCeil w fmtBw * bpb) 64 * (8 * gbh)
        * DivideCeil (DivideCeil h fmtBh) (8 * gbh) * AlignUp d gbd < 2 ^ 64 ->
      let W := DivideCeil w fmtBw in
      let H := DivideCeil h fmtBh in
      let pitchBytes := if pitch =? 0 then W * bpb else pitch in
      let Aw := AlignUp (W * bpb) 64 in
      let Dz := AlignUp d gbd in
      W * bpb <= pitchBytes ->
      exists r,
        layout.CopyBlockLinearToPitch fuel (mkDimensions w h d) fmtBw fmtBh bpb pitch gbh gbd
          bl po (mkBuffers BL P0) = Some r /\
        (forall x y z k, 0 <= x < W -> 0 <= y < H -> 0 <= z < d -> 0 <= k < bpb ->
           pitchMem r (po + (z * H + y) * pitchBytes + x * bpb + k)
           = BL (bl + spec.offset Aw Dz gbh gbd bpb x y z + k)) /\
        (forall a,
           (forall x y z k, 0 <= x < W -> 0 <= y < H -> 0 <= z < d -> 0 <= k < bpb ->
              a <> po + (z * H + y) * pitchBytes + x * bpb + k) ->
           pitchMem r a = P0 a) /\
        (forall a, blockLinearMem r a = BL a).
  Proof.
    intros fuel w h d fmtBw fmtBh bpb pitch gbh gbd bl po BL P0 Hfuel Hb Hw Hh Hd Hfw Hfh
           Hgh Hgd Hfit W H pitchBytes Aw Dz Hrows.
    pose proof (coalescable_pos bpb Hb) as Hbpb.
    destruct (surface_bytes fuel true w h d fmtBw fmtBh bpb pitch gbh gbd bl po
                (mkBuffers BL P0) Hfuel Hb Hw Hh Hd Hfw Hfh Hgh Hgd Hfit)
      as (r & L & E & S & HL & _).
    fold W H pitchBytes Aw Dz in HL.
    assert (Hfun : forall t s s', In (t, s) (map swap L) -> In (t, s') (map swap L) -> s = s')
      by (apply (pitch_side_functional L W H d bpb pitchBytes bl po
                   (spec.offset Aw Dz gbh gbd bpb)); [lia | exact Hrows | exact HL]).
    exists r. split; [exact E|]. split; [|split].
    - intros x y z k Hx Hy Hz Hk.
      destruct (S (po + (z * H + y) * pitchBytes + x * bpb + k)) as [_ ->].
      cbn [run_bytes blockLinearMem pitchMem].
      apply (after_bytes_In _ _ _ _ _ Hfun). apply (proj2 (In_swap _ _ L)), HL.
      exists x, y, z, k. auto 10.
    - intros a Hout. destruct (S a) as [_ ->]. cbn [run_bytes blockLinearMem pitchMem].
      apply after_bytes_not_In. intros f Hin. apply (proj1 (In_swap _ _ L)), HL in Hin.
      destruct Hin as (x & y & z & k & Hx & Hy & Hz & Hk & _ & Ea).
      now apply (Hout x y z k).
    - intros a. destruct (S a) as [-> _]. reflexivity.
  Qed.

  (** X10. Pitch to block-linear writes no byte outside the
      [GetBlockLinearLayerSize] bytes that start at the block-linear
      pointer. *)
Theorem pitch_to_block_linear_stays_inside_layer :
    forall fuel w h d fmtBw fmtBh bpb pitch gbh gbd po bl BL0 B,
      (5 <= fuel)%nat -> coalescable bpb ->
      0 <= w < 2 ^ 32 -> 0 <= h < 2 ^ 32 -> 1 <= d < 2 ^ 32 ->
      1 <= fmtBw -> 1 <= fmtBh ->
      is_pow2 gbh -> gbh < 2 ^ 32 -> is_pow2 gbd -> gbd < 2 ^ 32 ->
      AlignUp (DivideCeil w fmtBw * bpb) 64 * (8 * gbh)
        * DivideCeil (DivideCeil h fmtBh) (8 * gbh) * AlignUp d gbd < 2 ^ 64 ->
      exists r,
        layout.CopyPitchToBlockLinear fuel (mkDimensions w h d) fmtBw fmtBh bpb pitch gbh gbd
          po bl (mkBuffers BL0 B) = Some r /\
        forall a,
          ~ (bl <= a < bl + GetBlockLinearLayerSize (mkDimensions w h d) fmtBw fmtBh bpb
                              gbh gbd) ->
          blockLinearMem r a = BL0 a.
  Proof.
    intros fuel w h d fmtBw fmtBh bpb pitch gbh gbd po bl BL0 B Hfuel Hb Hw Hh Hd Hfw Hfh
           Hgh Hgh32 Hgd Hgd32 Hfit.
    pose proof (coalescable_pos bpb Hb) as Hbpb.
    pose proof (is_pow2_pos _ Hgd) as Hgd0. pose proof (is_pow2_pos _ Hgh) as Hgh0.
    destruct (surface_bytes fuel false w h d fmtBw fmtBh bpb pitch gbh gbd bl po
                (mkBuffers BL0 B) Hfuel Hb Hw Hh ltac:(lia) Hfw Hfh Hgh Hgd Hfit)
      as (r & L & E & S & HL & _).
    exists r. split; [exact E|]. intros a Hout.
    destruct (S a) as [-> _]. cbn [run_bytes blockLinearMem pitchMem].
    apply after_bytes_not_In. intros f Hin. apply HL in Hin.
    destruct Hin as (x & y & z & k & Hx & Hy & Hz & Hk & Ea & _).
    apply Hout. rewrite Ea.
    rewrite (SizeExtras.layer_size_exact w h d fmtBw fmtBh bpb gbh gbd) by (try lia; assumption).
    rewrite (spec_offset_swz _ _ gbh gbd bpb _ _ _ Hgh0 Hgd0).
    rewrite <- Z.add_assoc.
    rewrite <- (swz_chunk _ _ gbh bpb x k _ _ Hb ltac:(lia) Hk).
    pose proof (DivideCeil_nonneg w fmtBw ltac:(lia) ltac:(lia)) as HW0.
    assert (HWb : 0 <= DivideCeil w fmtBw * bpb) by (apply Z.mul_nonneg_nonneg; lia).
    pose proof (AlignUp_bounds (DivideCeil w fmtBw * bpb) 64 ltac:(lia) HWb) as HAw.
    pose proof (AlignUp_bounds d gbd Hgd0 ltac:(lia)) as HDz.
    pose proof (swz_range (AlignUp (DivideCeil w fmtBw * bpb) 64) (DivideCeil h fmtBh)
                  (AlignUp d gbd) gbh (x * bpb + k) y z Hgh0
                  ltac:(apply AlignUp_mod; lia)
                  ltac:(clear - Hx Hk Hbpb HAw; nia) Hy ltac:(lia)) as Hr.
    lia.
  Qed.

  (** X11. A surface with no width, no height or no depth, of elements of
      1, 2, 4, 8, 12 or 16 bytes, the sizes the [switch] handles: the copy
      returns and, in either direction, changes neither buffer. The format
      block is at least 1x1 and the width is a 32-bit number. *)
Theorem empty_surface_copies_nothing :
    forall fuel dir w h d fmtBw fmtBh bpb pitch gbh gbd bl po m,
      (5 <= fuel)%nat -> In bpb [1; 2; 4; 8; 12; 16] ->
      0 <= w < 2 ^ 32 -> 1 <= fmtBw -> 1 <= fmtBh ->
      w = 0 \/ h = 0 \/ d = 0 ->
      exists r,
        CopyBlockLinearInternal fuel dir (mkDimensions w h d) fmtBw fmtBh bpb pitch gbh gbd
          bl po m = Some r /\
        forall a, blockLinearMem r a = blockLinearMem m a /\ pitchMem r a = pitchMem m a.
  Proof.
    intros fuel dir w h d fmtBw fmtBh bpb pitch gbh gbd bl po m Hfuel Hsup Hw Hfw Hfh Hzero.
    assert (H0 : forall b, 1 <= b -> DivideCeil 0 b = 0).
    { intros b Hb. unfold DivideCeil. rewrite Z.add_0_l. apply Z.div_small. lia. }
    destruct (Z.eq_dec bpb 12) as [-> | Hne].
    - unfold CopyBlockLinearInternal. change (12 =? 12) with true. cbv iota beta.
      eexists. split; [reflexivity|].
      rewrite CopyBlockLinearInternal_body_moves by exact Hsup.
      cbn [width height depth].
      match goal with |- forall a, blockLinearMem (run_moves _ ?L _) a = _ /\ _ =>
        assert (EL : L = []) end.
      { unfold code_moves, code_slice, code_row. destruct Hzero as [-> | [-> | ->]].
        - apply flat_map_nil. intros z _. apply flat_map_nil. intros y _.
          rewrite (H0 fmtBw Hfw). reflexivity.
        - rewrite (H0 fmtBh Hfh). apply flat_map_nil. intros z _. reflexivity.
        - reflexivity. }
      rewrite EL. intros a. split; reflexivity.
    - assert (Hb : coalescable bpb).
      { cbn in Hsup |- *. clear - Hsup Hne. intuition congruence. }
      destruct (CopyBlockLinearInternal_bytes fuel dir (mkDimensions w h d) fmtBw fmtBh bpb
                  pitch gbh gbd bl po m Hfuel Hb Hw Hfw) as (r & E & S).
      exists r. split; [exact E|].
      eapply same_buffers_trans; [exact S|]. cbn [width height depth].
      match goal with |- same_buffers (run_bytes _ ?L _) _ => assert (EL : L = []) end.
      { unfold code_bytes. destruct Hzero as [-> | [-> | ->]].
        - apply flat_map_nil. intros z _. apply flat_map_nil. intros y _.
          rewrite (H0 fmtBw Hfw). reflexivity.
        - rewrite (H0 fmtBh Hfh). apply flat_map_nil. intros z _. reflexivity.
        - reflexivity. }
      rewrite EL. apply run_bytes_nil.
  Qed.

  (** The bytes of a buffer of [d] slices of [H] rows of [R] bytes. *)
Lemma packed_address t R H d :
    0 <= R -> 0 <= H -> 0 <= t < R * H * d ->
    exists z y j, 0 <= z < d /\ 0 <= y < H /\ 0 <= j < R /\ t = (z * H + y) * R + j.
  Proof.
    intros HR0 HH0 Ht.
    assert (HR : 0 < R).
    { destruct (Z.eq_dec R 0) as [E0|]; [|lia]. rewrite E0, !Z.mul_0_l in Ht. lia. }
    assert (HH : 0 < H).
    { destruct (Z.eq_dec H 0) as [E0|]; [|lia]. rewrite E0, Z.mul_0_r, Z.mul_0_l in Ht. lia. }
    pose proof (Z.div_mod t R ltac:(lia)) as E1.
    pose proof (Z.mod_pos_bound t R HR) as B1.
    pose proof (Z.div_mod (t / R) H ltac:(lia)) as E2.
    pose proof (Z.mod_pos_bound (t / R) H HH) as B2.
    assert (Hrow : 0 <= t / R < H * d).
    { split; [apply Z.div_pos; lia|]. apply Z.div_lt_upper_bound; [lia|].
      replace (R * (H * d)) with (R * H * d) by ring. lia. }
    exists (t / R / H), (t / R mod H), (t mod R).
    split; [|split; [exact B2 | split; [exact B1|]]].
    - split; [apply Z.div_pos; lia | apply Z.div_lt_upper_bound; lia].
    - replace (t / R / H * H + t / R mod H) with (t / R) by lia. lia.
  Qed.

  (** X12. For a guest texture with elements of 1, 2, 4, 8 or 16 bytes,
      [CopyLinearToBlockLinear] followed by [CopyBlockLinearToLinear]
      returns every byte of the packed linear buffer. *)
Theorem guest_linear_round_trip :
    forall fuel guest linear linear' blockLinear B dst fresh,
      let dims := guest_dimensions guest in
      let bpb := fmt_bpb (guest_format guest) in
      let W := DivideCeil (width dims) (fmt_blockWidth (guest_format guest)) in
      let H := DivideCeil (height dims) (fmt_blockHeight (guest_format guest)) in
      let gbh := tile_blockHeight (guest_tileConfig guest) in
      let gbd := tile_blockDepth (guest_tileConfig guest) in
      (5 <= fuel)%nat -> coalescable bpb ->
      0 <= width dims < 2 ^ 32 -> 0 <= height dims < 2 ^ 32 -> 1 <= depth dims ->
      1 <= fmt_blockWidth (guest_format guest) -> 1 <= fmt_blockHeight (guest_format guest) ->
      is_pow2 gbh -> is_pow2 gbd ->
      AlignUp (W * bpb) 64 * (8 * gbh) * DivideCeil H (8 * gbh) * AlignUp (depth dims) gbd
        < 2 ^ 64 ->
      exists m1 m2,
        CopyLinearToBlockLinear_guest fuel guest linear blockLinear (mkBuffers dst B)
          = Some m1 /\
        CopyBlockLinearToLinear_guest fuel guest blockLinear linear'
          (mkBuffers (blockLinearMem m1) fresh) = Some m2 /\
        forall t, 0 <= t < W * bpb * H * depth dims ->
          pitchMem m2 (linear' + t) = B (linear + t).
  Proof.
    intros fuel guest linear linear' blockLinear B dst fresh dims bpb W H gbh gbd.
    subst dims bpb W H gbh gbd.
    destruct guest as [[w h d] [fbw fbh bpb0 gs] [gbh0 gbd0 gp]].
    cbn [guest_dimensions guest_format guest_tileConfig fmt_bpb fmt_blockWidth fmt_blockHeight
         tile_blockHeight tile_blockDepth width height depth].
    intros Hfuel Hb Hw Hh Hd Hfw Hfh Hgh Hgd Hfit.
    set (W := DivideCeil w fbw) in *. set (H := DivideCeil h fbh) in *.
    pose proof (coalescable_pos bpb0 Hb) as Hbpb.
    unfold CopyLinearToBlockLinear_guest, CopyBlockLinearToLinear_guest.
    cbn [guest_dimensions guest_format guest_tileConfig fmt_bpb fmt_blockWidth fmt_blockHeight
         tile_blockHeight tile_blockDepth].
    destruct (surface_bytes fuel false w h d fbw fbh bpb0 0 gbh0 gbd0 blockLinear linear
                (mkBuffers dst B) Hfuel Hb Hw Hh Hd Hfw Hfh Hgh Hgd Hfit)
      as (m1 & L1 & E1 & S1 & HL1 & Hfun1).
    destruct (surface_bytes fuel true w h d fbw fbh bpb0 0 gbh0 gbd0 blockLinear linear'
                (mkBuffers (blockLinearMem m1) fresh) Hfuel Hb Hw Hh Hd Hfw Hfh Hgh Hgd Hfit)
      as (m2 & L2 & E2 & S2 & HL2 & _).
    change (0 =? 0) with true in HL1, HL2. cbv iota in HL1, HL2. fold W H in HL1, HL2.
    exists m1, m2. split; [exact E1|]. split; [exact E2|]. intros t Ht.
    pose proof (DivideCeil_nonneg w fbw ltac:(lia) ltac:(lia)) as HW0. fold W in HW0.
    pose proof (DivideCeil_nonneg h fbh ltac:(lia) ltac:(lia)) as HH0. fold H in HH0.
    destruct (packed_address t (W * bpb0) H d ltac:(nia) HH0 Ht)
      as (z & y & j & Hz & Hy & Hj & Et).
    destruct (row_byte_element bpb0 W j ltac:(lia) Hj) as (Hx & Hk & Ej).
    set (x := j / bpb0) in *. set (k := j mod bpb0) in *.
    set (s := blockLinear
              + spec.offset (AlignUp (W * bpb0) 64) (AlignUp d gbd0) gbh0 gbd0 bpb0 x y z + k).
    assert (In1 : In (s, linear + t) L1).
    { apply HL1. exists x, y, z, k. repeat (split; [assumption|]). split; [reflexivity|]. lia. }
    assert (In2 : In (s, linear' + t) L2).
    { apply HL2. exists x, y, z, k. repeat (split; [assumption|]). split; [reflexivity|]. lia. }
    destruct (S2 (linear' + t)) as [_ ->]. cbn [run_bytes blockLinearMem pitchMem].
    assert (Hfun2 : forall t s s', In (t, s) (map swap L2) -> In (t, s') (map swap L2) -> s = s')
      by (apply (pitch_side_functional L2 W H d bpb0 (W * bpb0) blockLinear linear'
                   (spec.offset (AlignUp (W * bpb0) 64) (AlignUp d gbd0) gbh0 gbd0 bpb0));
          [lia | lia | exact HL2]).
    rewrite (after_bytes_In _ _ _ _ s Hfun2) by (apply (proj2 (In_swap _ _ L2)); exact In2).
    destruct (S1 s) as [-> _]. cbn [run_bytes blockLinearMem pitchMem].
    apply (after_bytes_In _ _ _ _ _ Hfun1 In1).
  Qed.

End CopyExtras.

(** ** The pitch-linear helpers *)

Module LinearExtras.
Import util layout UtilFacts.

  (** A loop that copies [count] rows of [n] bytes from [src], one every
      [sa] bytes, into a buffer, one every [sb] bytes. *)
Lemma rows_loop (src : mem) (sa sb n : Z) (count : nat) : forall i from to dst,
    exists dst',
      for_loop count i
        (fun (_ : Z) (st : Z * Z * mem) =>
           let '(a, b, d) := st in (a + sa, b + sb, copy_bytes src a d b n))
        (from, to, dst)
      = (from + Z.of_nat count * sa, to + Z.of_nat count * sb, dst') /\
      (forall a,
         (forall l k, 0 <= l < Z.of_nat count -> 0 <= k < n -> a <> to + l * sb + k) ->
         dst' a = dst a) /\
      (n <= sb ->
       forall l k, 0 <= l < Z.of_nat count -> 0 <= k < n ->
         dst' (to + l * sb + k) = src (from + l * sa + k)).
  Proof.
    induction count as [|c IH]; intros i from to dst.
    - exists dst. cbn [for_loop Z.of_nat]. rewrite !Z.mul_0_l, !Z.add_0_r.
      split; [reflexivity|].
      split; [reflexivity|]. intros _ l k Hl. cbn in Hl. lia.
    - cbn [for_loop].
      destruct (IH (i + 1) (from + sa) (to + sb) (copy_bytes src from dst to n))
        as (dst' & E & Hframe & Hval).
      exists dst'. split; [rewrite E, Nat2Z.inj_succ; f_equal; f_equal; ring|].
      assert (Hfirst : forall a, (forall k, 0 <= k < n -> a <> to + k) ->
                copy_bytes src from dst to n a = dst a).
      { intros a Ha. unfold copy_bytes.
        destruct ((to <=? a) && (a <? to + n)) eqn:Ec; [|reflexivity].
        apply andb_true_iff in Ec. destruct Ec as [E1 E2].
        apply Z.leb_le in E1. apply Z.ltb_lt in E2.
        exfalso. apply (Ha (a - to)); lia. }
      split.
      + intros a Ha. rewrite Hframe.
        * apply Hfirst. intros k Hk. specialize (Ha 0 k ltac:(lia) Hk). lia.
        * intros l k Hl Hk. specialize (Ha (l + 1) k ltac:(lia) Hk). lia.
      + intros Hn l k Hl Hk.
        destruct (Z.eq_dec l 0) as [->|Hl0].
        * rewrite Hframe.
          -- unfold copy_bytes.
             replace ((to <=? to + 0 * sb + k) && (to + 0 * sb + k <? to + n)) with true
               by (symmetry; apply andb_true_iff; split; [apply Z.leb_le | apply Z.ltb_lt]; lia).
             f_equal. lia.
          -- intros l' k' Hl' Hk'. nia.
        * replace (to + l * sb + k) with (to + sb + (l - 1) * sb + k) by ring.
          rewrite (Hval Hn (l - 1) k ltac:(lia) Hk). f_equal. ring.
  Qed.

  (** An address lies in one of the rows, or in none. *)
Lemma row_member_dec (to sb n count a : Z) :
    n <= sb ->
    (exists l k, 0 <= l < count /\ 0 <= k < n /\ a = to + l * sb + k) \/
    (forall l k, 0 <= l < count -> 0 <= k < n -> a <> to + l * sb + k).
  Proof.
    intros Hn. destruct (Z_le_gt_dec n 0) as [Hn0|Hn0]; [right; intros; lia|].
    assert (Hsb : 0 < sb) by lia.
    pose proof (Z.div_mod (a - to) sb ltac:(lia)) as E.
    pose proof (Z.mod_pos_bound (a - to) sb Hsb) as Hm.
    destruct (Z_lt_dec ((a - to) / sb) 0) as [H1|H1].
    { right. intros l k Hl Hk Ea.
      assert (El : (a - to) / sb = l).
      { symmetry. apply (Z.div_unique (a - to) sb l k); lia. }
      lia. }
    destruct (Z_lt_dec ((a - to) / sb) count) as [H2|H2].
    2: { right. intros l k Hl Hk Ea.
         assert (El : (a - to) / sb = l).
         { symmetry. apply (Z.div_unique (a - to) sb l k); lia. }
         lia. }
    destruct (Z_lt_dec ((a - to) mod sb) n) as [H3|H3].
    - left. exists ((a - to) / sb), ((a - to) mod sb). repeat split; lia.
    - right. intros l k Hl Hk Ea.
      assert (Ek : (a - to) mod sb = k).
      { symmetry. apply (Z.mod_unique (a - to) sb l k); lia. }
      lia.
  Qed.

  (** The loops of the two helpers are row loops over one of the buffers. *)
Lemma pack_loop (sizeStride sizeLine : Z) (count : nat) : forall i a b m,
    for_loop count i
      (fun (line : Z) '(inputLine, outputLine, m) =>
         (inputLine + sizeStride, outputLine + sizeLine,
          mkLinearBuffers (guestMem m)
            (memcpy (linearMem m) outputLine (guestMem m) inputLine sizeLine)))
      (a, b, m)
    = let '(a', b', d') :=
        for_loop count i
          (fun (_ : Z) (st : Z * Z * mem) =>
             let '(a, b, d) := st in
             (a + sizeStride, b + sizeLine, copy_bytes (guestMem m) a d b sizeLine))
          (a, b, linearMem m) in
      (a', b', mkLinearBuffers (guestMem m) d').
  Proof.
    induction count as [|c IH]; intros i a b m; [now destruct m|].
    cbn [for_loop]. rewrite IH. reflexivity.
  Qed.

Lemma unpack_loop (sizeStride sizeLine : Z) (count : nat) : forall i a b m,
    for_loop count i
      (fun (line : Z) '(inputLine, outputLine, m) =>
         (inputLine + sizeLine, outputLine + sizeStride,
          mkLinearBuffers
            (memcpy (guestMem m) outputLine (linearMem m) inputLine sizeLine)
            (linearMem m)))
      (a, b, m)
    = let '(a', b', d') :=
        for_loop count i
          (fun (_ : Z) (st : Z * Z * mem) =>
             let '(a, b, d) := st in
             (a + sizeLine, b + sizeStride, copy_bytes (linearMem m) a d b sizeLine))
          (a, b, guestMem m) in
      (a', b', mkLinearBuffers d' (linearMem m)).
  Proof.
    induction count as [|c IH]; intros i a b m; [now destruct m|].
    cbn [for_loop]. rewrite IH. reflexivity.
  Qed.

  (** What [CopyPitchLinearToLinear] leaves. *)
Lemma pack_facts guest guestInput linearOutput m :
    let sizeLine := GetSize (guest_format guest) (width (guest_dimensions guest)) 1 in
    let sizeStride := tile_pitch (guest_tileConfig guest) in
    let lines := Z.of_nat (Z.to_nat (height (guest_dimensions guest))) in
    let r := CopyPitchLinearToLinear guest guestInput linearOutput m in
    (forall l k, 0 <= l < lines -> 0 <= k < sizeLine ->
       linearMem r (linearOutput + l * sizeLine + k)
       = guestMem m (guestInput + l * sizeStride + k)) /\
    (forall a,
       (forall l k, 0 <= l < lines -> 0 <= k < sizeLine ->
          a <> linearOutput + l * sizeLine + k) ->
       linearMem r a = linearMem m a) /\
    (forall a, guestMem r a = guestMem m a).
  Proof.
    cbv zeta. unfold CopyPitchLinearToLinear. rewrite pack_loop.
    destruct (rows_loop (guestMem m) (tile_pitch (guest_tileConfig guest))
                (GetSize (guest_format guest) (width (guest_dimensions guest)) 1)
                (GetSize (guest_format guest) (width (guest_dimensions guest)) 1)
                (Z.to_nat (height (guest_dimensions guest))) 0 guestInput linearOutput
                (linearMem m)) as (d' & E & Hframe & Hval).
    rewrite E. cbn [snd linearMem guestMem].
    split; [apply Hval; lia|]. split; [exact Hframe | reflexivity].
  Qed.

  (** What [CopyLinearToPitchLinear] leaves. *)
Lemma unpack_facts guest linearInput guestOutput m :
    let sizeLine := GetSize (guest_format guest) (width (guest_dimensions guest)) 1 in
    let sizeStride := tile_pitch (guest_tileConfig guest) in
    let lines := Z.of_nat (Z.to_nat (height (guest_dimensions guest))) in
    let r := CopyLinearToPitchLinear guest linearInput guestOutput m in
    (sizeLine <= sizeStride ->
     forall l k, 0 <= l < lines -> 0 <= k < sizeLine ->
       guestMem r (guestOutput + l * sizeStride + k)
       = linearMem m (linearInput + l * sizeLine + k)) /\
    (forall a,
       (forall l k, 0 <= l < lines -> 0 <= k < sizeLine ->
          a <> guestOutput + l * sizeStride + k) ->
       guestMem r a = guestMem m a) /\
    (forall a, linearMem r a = linearMem m a).
  Proof.
    cbv zeta. unfold CopyLinearToPitchLinear. rewrite unpack_loop.
    destruct (rows_loop (linearMem m)
                (GetSize (guest_format guest) (width (guest_dimensions guest)) 1)
                (tile_pitch (guest_tileConfig guest))
                (GetSize (guest_format guest) (width (guest_dimensions guest)) 1)
                (Z.to_nat (height (guest_dimensions guest))) 0 linearInput guestOutput
                (guestMem m)) as (d' & E & Hframe & Hval).
    rewrite E. cbn [snd linearMem guestMem].
    split; [exact Hval|]. split; [exact Hframe | reflexivity].
  Qed.

Lemma lines_of_height h l : 0 <= l < h -> 0 <= l < Z.of_nat (Z.to_nat h).
  Proof. lia. Qed.

Lemma height_of_lines h l : 0 <= l < Z.of_nat (Z.to_nat h) -> 0 <= l < h.
  Proof. lia. Qed.

  (** X13. [CopyPitchLinearToLinear] packs the rows: byte [k] of line [l]
      of the guest buffer, found at [l * pitch + k], is stored at
      [l * sizeLine + k] of the linear buffer; the other bytes of the
      linear buffer keep their values and the guest buffer is not
      written. *)
Theorem pitch_linear_to_linear_packs_rows :
    forall guest guestInput linearOutput m,
      let sizeLine := GetSize (guest_format guest) (width (guest_dimensions guest)) 1 in
      let sizeStride := tile_pitch (guest_tileConfig guest) in
      let lines := height (guest_dimensions guest) in
      let r := CopyPitchLinearToLinear guest guestInput linearOutput m in
      (forall l k, 0 <= l < lines -> 0 <= k < sizeLine ->
         linearMem r (linearOutput + l * sizeLine + k)
         = guestMem m (guestInput + l * sizeStride + k)) /\
      (forall a,
         (forall l k, 0 <= l < lines -> 0 <= k < sizeLine ->
            a <> linearOutput + l * sizeLine + k) ->
         linearMem r a = linearMem m a) /\
      (forall a, guestMem r a = guestMem m a).
  Proof.
    intros guest guestInput linearOutput m sizeLine sizeStride lines r.
    destruct (pack_facts guest guestInput linearOutput m) as (Hval & Hframe & Hsrc).
    split; [|split; [|exact Hsrc]].
    - intros l k Hl Hk. apply Hval; [now apply lines_of_height | exact Hk].
    - intros a Ha. apply Hframe. intros l k Hl Hk.
      apply Ha; [now apply height_of_lines | exact Hk].
  Qed.

  (** X14. When a line is not longer than the pitch,
      [CopyLinearToPitchLinear] spreads the rows: byte [k] of line [l] of
      the linear buffer is stored at [l * pitch + k] of the guest buffer;
      the padding between the rows and every other byte of the guest
      buffer keep their values, and the linear buffer is not written. *)
Theorem linear_to_pitch_linear_spreads_rows :
    forall guest linearInput guestOutput m,
      let sizeLine := GetSize (guest_format guest) (width (guest_dimensions guest)) 1 in
      let sizeStride := tile_pitch (guest_tileConfig guest) in
      let lines := height (guest_dimensions guest) in
      let r := CopyLinearToPitchLinear guest linearInput guestOutput m in
      sizeLine <= sizeStride ->
      (forall l k, 0 <= l < lines -> 0 <= k < sizeLine ->
         guestMem r (guestOutput + l * sizeStride + k)
         = linearMem m (linearInput + l * sizeLine + k)) /\
      (forall a,
         (forall l k, 0 <= l < lines -> 0 <= k < sizeLine ->
            a <> guestOutput + l * sizeStride + k) ->
         guestMem r a = guestMem m a) /\
      (forall a, linearMem r a = linearMem m a).
  Proof.
    intros guest linearInput guestOutput m sizeLine sizeStride lines r Hfits.
    destruct (unpack_facts guest linearInput guestOutput m) as (Hval & Hframe & Hsrc).
    split; [|split; [|exact Hsrc]].
    - intros l k Hl Hk. apply Hval; [exact Hfits | now apply lines_of_height | exact Hk].
    - intros a Ha. apply Hframe. intros l k Hl Hk.
      apply Ha; [now apply height_of_lines | exact Hk].
  Qed.

  (** X15. When a line is not longer than the pitch the two helpers undo
      each other: packing a guest buffer and spreading the result over it
      leaves every byte of the guest buffer as it was, and spreading a
      linear buffer and packing the result over it leaves every byte of
      the linear buffer as it was. *)
Theorem pitch_linear_round_trips :
    forall guest guestPtr linearPtr m,
      GetSize (guest_format guest) (width (guest_dimensions guest)) 1
        <= tile_pitch (guest_tileConfig guest) ->
      (forall a,
         guestMem (CopyLinearToPitchLinear guest linearPtr guestPtr
                     (CopyPitchLinearToLinear guest guestPtr linearPtr m)) a
         = guestMem m a) /\
      (forall a,
         linearMem (CopyPitchLinearToLinear guest guestPtr linearPtr
                      (CopyLinearToPitchLinear guest linearPtr guestPtr m)) a
         = linearMem m a).
  Proof.
    intros guest guestPtr linearPtr m Hfits.
    set (sizeLine := GetSize (guest_format guest) (width (guest_dimensions guest)) 1) in *.
    set (sizeStride := tile_pitch (guest_tileConfig guest)) in *.
    set (lines := Z.of_nat (Z.to_nat (height (guest_dimensions guest)))).
    split; intros a.
    - destruct (pack_facts guest guestPtr linearPtr m) as (Pval & _ & Psrc).
      destruct (unpack_facts guest linearPtr guestPtr
                  (CopyPitchLinearToLinear guest guestPtr linearPtr m))
        as (Uval & Uframe & _).
      fold sizeLine sizeStride lines in Pval, Uval, Uframe.
      destruct (row_member_dec guestPtr sizeStride sizeLine lines a Hfits)
        as [(l & k & Hl & Hk & ->) | Hout].
      + rewrite (Uval Hfits l k Hl Hk). apply Pval; assumption.
      + rewrite (Uframe a Hout). apply Psrc.
    - destruct (unpack_facts guest linearPtr guestPtr m) as (Uval & _ & Usrc).
      destruct (pack_facts guest guestPtr linearPtr
                  (CopyLinearToPitchLinear guest linearPtr guestPtr m))
        as (Pval & Pframe & _).
      fold sizeLine sizeStride lines in Pval, Pframe, Uval.
      destruct (row_member_dec linearPtr sizeLine sizeLine lines a (Z.le_refl _))
        as [(l & k & Hl & Hk & ->) | Hout].
      + rewrite (Pval l k Hl Hk). apply Uval; assumption.
      + rewrite (Pframe a Hout). apply Usrc.
  Qed.

End LinearExtras.

(** ** The sector copies of the other revision *)

Module SectorFacts.
Import util layout aux UtilFacts MoveFacts LoopFacts ByteFacts CoalesceFacts OffsetFacts
         CopyFacts RoundTripFacts.

  (** The loop over whole GOBs as a list of moves. *)
Lemma gobCopy_moves dir G blockSize de sw m :
    gobCopy_v1 dir G blockSize (de, sw, m)
    = (de + Z.of_nat (Z.to_nat G) * GobWidth, sw + Z.of_nat (Z.to_nat G) * blockSize,
       run_moves dir
         (flat_map (fun g => sector_moves (sw + Z.of_nat g * blockSize)
                               (de + Z.of_nat g * GobWidth))
                   (seq 0 (Z.to_nat G))) m).
  Proof.
    unfold gobCopy_v1.
    rewrite (for_loop_ext _
      (fun (j : Z) (st : Z * Z * Buffers) =>
         ((fst (fst st) + GobWidth, snd (fst st) + blockSize),
          run_moves dir (sector_moves (snd (fst st)) (fst (fst st))) (snd st)))).
    2: { intros i [[d s] b]. reflexivity. }
    loop_to_moves dir (fun q : Z * Z => (fst q + GobWidth, snd q + blockSize))
      (fun (j : Z) (p : Z * Z) => sector_moves (snd p) (fst p)) (Z.to_nat G) (de, sw) m.
    rewrite iter_add2. f_equal. f_equal.
    unfold loop_moves. apply flat_map_ext. intros g. now rewrite iter_add2.
  Qed.

  (** The bytes of the four sectors of a GOB are its 64 bytes of one line,
      each at its in-GOB offset. *)
Lemma gob_x_sectors k :
    0 <= k < 16 ->
    gob_x k = k /\ gob_x (16 + k) = 32 + k /\ gob_x (16 + (16 + k)) = 256 + k /\
    gob_x (16 + (16 + (16 + k))) = 288 + k.
  Proof. intros Hk. unfold gob_x. repeat split; Z.div_mod_to_equations; lia. Qed.

Lemma sector_bytes sw de :
    byte_moves (sector_moves sw de) = map (fun j => (sw + gob_x j, de + j)) (spec.zrange 64).
  Proof.
    change 64 with (16 + (16 + (16 + 16))).
    rewrite !zrange_app by lia. rewrite !map_app, !map_map.
    unfold sector_moves, byte_moves, move_bytes. cbn [flat_map]. rewrite app_nil_r.
    repeat (apply (f_equal2 (@app (Z * Z))));
      apply map_ext_in; intros k Hk; apply In_zrange in Hk;
      destruct (gob_x_sectors k Hk) as (E0 & E1 & E2 & E3);
      rewrite ?E0, ?E1, ?E2, ?E3; f_equal; lia.
  Qed.

  (** The bytes of the whole GOBs of one line. *)
Lemma gob_row_bytes sw de blockSize (G : nat) :
    byte_moves (flat_map (fun g => sector_moves (sw + Z.of_nat g * blockSize)
                                     (de + Z.of_nat g * GobWidth)) (seq 0 G))
    = map (fun j => (sw + j / 64 * blockSize + gob_x j, de + j))
          (spec.zrange (Z.of_nat G * 64)).
  Proof.
    rewrite byte_moves_flat_map.
    rewrite <- (regroup (fun j => (sw + j / 64 * blockSize + gob_x j, de + j)) 64 G) by lia.
    apply flat_map_ext. intros g. rewrite sector_bytes.
    apply map_ext_in. intros k Hk. apply In_zrange in Hk.
    assert (Eq : (Z.of_nat g * 64 + k) / 64 = Z.of_nat g).
    { rewrite Z.add_comm, Z.div_add by lia. rewrite Z.div_small by lia. lia. }
    assert (Eg : gob_x (Z.of_nat g * 64 + k) = gob_x k).
    { rewrite <- (gob_x_mod (Z.of_nat g * 64 + k)).
      rewrite Z.add_comm, Z.mod_add by lia. rewrite Z.mod_small by lia. reflexivity. }
    rewrite Eq, Eg. unfold GobWidth. f_equal; lia.
  Qed.

  (** [elemCopy] over no pixel only moves to the next block. *)
Lemma elemCopy_none dir ox bpb blockSize from to de sw m :
    to <= from ->
    elemCopy_v1 dir ox bpb blockSize from to (de, sw, m) = (de, sw + blockSize, m).
  Proof.
    intros H. unfold elemCopy_v1.
    replace (Z.to_nat (to - from)) with 0%nat by lia. reflexivity.
  Qed.

  (** A line that starts and ends on a GOB boundary is copied by the loop
      over whole GOBs alone. *)
Lemma aligned_line_moves dir W bpb A robHeight alignedDepth blockSize start ox oy
      xPerGOB G bl po line m :
    0 <= W < 2 ^ 64 ->
    copySubrectLine_v1 dir W bpb A robHeight alignedDepth blockSize start ox oy
      xPerGOB xPerGOB 0 G bl po line m
    = run_moves dir
        (flat_map
           (fun g =>
              sector_moves
                (bl + size_t (A * AlignDown (size_t (oy + line)) robHeight * alignedDepth)
                 + size_t (size_t (Z.land (size_t (oy + line)) (size_t (robHeight - 1))
                                   / GobHeight * GobWidth * GobHeight)
                           + (Z.shiftl (Z.shiftr (Z.land line 7) 1) 6
                              + Z.shiftl (Z.land line 1) 4))
                 + start + Z.of_nat g * blockSize)
                (po + Z.of_nat g * GobWidth))
           (seq 0 (Z.to_nat G))) m.
  Proof.
    intros HW. unfold copySubrectLine_v1. rewrite Z.eqb_refl. cbn [negb].
    rewrite gobCopy_moves.
    destruct (negb (0 =? xPerGOB)); [|reflexivity].
    rewrite elemCopy_none; [reflexivity|].
    rewrite Z.sub_0_r, size_t_small by lia. lia.
  Qed.

  (** The line and slice loops over lines that start and end on a GOB
      boundary. *)
Section AlignedLines.
Variables (dir : bool) (W bpb A robHeight alignedDepth blockSize start ox oy xPerGOB G : Z).
Variables (pitchBytes stride : Z).
Hypothesis HW : 0 <= W < 2 ^ 64.

Let line_moves (bl po line : Z) : list move :=
      flat_map
        (fun g =>
           sector_moves
             (bl + size_t (A * AlignDown (size_t (oy + line)) robHeight * alignedDepth)
              + size_t (size_t (Z.land (size_t (oy + line)) (size_t (robHeight - 1))
                                / GobHeight * GobWidth * GobHeight)
                        + (Z.shiftl (Z.shiftr (Z.land line 7) 1) 6
                           + Z.shiftl (Z.land line 1) 4))
              + start + Z.of_nat g * blockSize)
             (po + Z.of_nat g * GobWidth))
        (seq 0 (Z.to_nat G)).

Lemma aligned_lines_moves (H : nat) bl po m :
      for_loop H 0
        (fun line '(pitchOffset, m) =>
           (pitchOffset + pitchBytes,
            copySubrectLine_v1 dir W bpb A robHeight alignedDepth blockSize start ox oy
              xPerGOB xPerGOB 0 G bl pitchOffset line m))
        (po, m)
      = (po + Z.of_nat H * pitchBytes,
         run_moves dir
           (flat_map (fun y => line_moves bl (po + Z.of_nat y * pitchBytes) (Z.of_nat y))
                     (seq 0 H)) m).
    Proof.
      rewrite (for_loop_ext _
        (fun j st => (fst st + pitchBytes,
                      run_moves dir (line_moves bl (fst st) j) (snd st)))).
      2: { intros i [p b]. cbn [fst snd]. now rewrite aligned_line_moves. }
      loop_to_moves dir (fun q => q + pitchBytes)
        (fun (j p : Z) => line_moves bl p j) H po m.
      rewrite iter_add. f_equal. f_equal.
      unfold loop_moves. apply flat_map_ext. intros y.
      now rewrite iter_add, Z.add_0_l.
    Qed.

Lemma aligned_slices_moves (D H : nat) bl po m :
      snd (for_loop D 0
             (fun slice '(blockLinear, pitchOffset, m) =>
                let '(pitchOffset, m) :=
                  for_loop H 0
                    (fun line '(pitchOffset, m) =>
                       (pitchOffset + pitchBytes,
                        copySubrectLine_v1 dir W bpb A robHeight alignedDepth blockSize start
                          ox oy xPerGOB xPerGOB 0 G blockLinear pitchOffset line m))
                    (pitchOffset, m) in
                (blockLinear + stride, pitchOffset, m))
             (bl, po, m))
      = run_moves dir
          (flat_map
             (fun z =>
                flat_map
                  (fun y =>
                     line_moves (bl + Z.of_nat z * stride)
                       (po + Z.of_nat z * (Z.of_nat H * pitchBytes) + Z.of_nat y * pitchBytes)
                       (Z.of_nat y))
                  (seq 0 H))
             (seq 0 D)) m.
    Proof.
      rewrite (for_loop_ext _
        (fun j st => ((fst (fst st) + stride, snd (fst st) + Z.of_nat H * pitchBytes),
                      run_moves dir
                        (flat_map (fun y => line_moves (fst (fst st))
                                              (snd (fst st) + Z.of_nat y * pitchBytes)
                                              (Z.of_nat y))
                                  (seq 0 H)) (snd st)))).
      2: { intros i [[b p] mm]. cbn [fst snd]. now rewrite aligned_lines_moves. }
      loop_to_moves dir
        (fun q : Z * Z => (fst q + stride, snd q + Z.of_nat H * pitchBytes))
        (fun (j : Z) (p : Z * Z) =>
           flat_map (fun y => line_moves (fst p) (snd p + Z.of_nat y * pitchBytes) (Z.of_nat y))
                    (seq 0 H))
        D (bl, po) m.
      cbn [snd]. f_equal.
      unfold loop_moves. apply flat_map_ext. intros z.
      now rewrite iter_add2.
    Qed.

End AlignedLines.

Lemma land_low_bits a l k : 0 <= k -> a mod 2 ^ k = 0 ->
    Z.land l (2 ^ k - 1) = Z.land (a + l) (2 ^ k - 1).
  Proof.
    intros Hk Ha. rewrite !land_mod by exact Hk.
    rewrite Z.add_mod, Ha, Z.add_0_l, Z.mod_mod by (apply Z.pow_nonzero; lia).
    reflexivity.
  Qed.

Lemma land_low_7 a l : a mod 8 = 0 -> Z.land l 7 = Z.land (a + l) 7.
  Proof. intros Ha. apply (land_low_bits a l 3); [lia | exact Ha]. Qed.

Lemma land_low_1 a l : a mod 8 = 0 -> Z.land l 1 = Z.land (a + l) 1.
  Proof.
    intros Ha. apply (land_low_bits a l 1); [lia|].
    change (2 ^ 1) with 2. clear - Ha. Z.div_mod_to_equations. lia.
  Qed.

Lemma AlignUp_aligned v m : 0 < m -> v mod m = 0 -> AlignUp v m = v.
  Proof.
    intros Hm Hv. apply Z.mod_divide in Hv; [|lia]. destruct Hv as (p & ->).
    unfold AlignUp, DivideCeil.
    replace (p * m + m - 1) with (m - 1 + p * m) by ring.
    rewrite Z.div_add, Z.div_small by lia. ring.
  Qed.

  (** X26: on a rectangle whose rows start and end on a GOB boundary and
      whose first line is the first line of a GOB, the other revision's
      sub-rectangle copier, which copies 16-byte sectors, leaves the same
      bytes in both buffers as the sub-rectangle copier of layout.cpp. *)
Theorem sector_copy_agrees_on_aligned_rectangles :
    forall fuel dir pw ph pd bw bh bd fmtBw fmtBh bpb pitch gbh gbd bl po originX originY m,
      (5 <= fuel)%nat -> coalescable bpb ->
      0 <= pw < 2 ^ 32 -> 0 <= ph < 2 ^ 32 ->
      0 <= bw < 2 ^ 32 -> 0 <= bh < 2 ^ 32 -> 1 <= bd < 2 ^ 32 ->
      1 <= fmtBw < 2 ^ 32 -> 1 <= fmtBh ->
      0 <= originX < 2 ^ 32 -> 0 <= originY < 2 ^ 32 ->
      is_pow2 gbh -> is_pow2 gbd ->
      spec.blockLinearLayerSize bw bh bd fmtBw fmtBh bpb gbh gbd < 2 ^ 64 ->
      let W := DivideCeil pw fmtBw in
      let H := DivideCeil ph fmtBh in
      let ox := DivideCeil originX fmtBw in
      let oy := DivideCeil originY fmtBh in
      ox + W <= DivideCeil bw fmtBw ->
      oy + H <= DivideCeil bh fmtBh ->
      (ox * bpb) mod 64 = 0 -> (W * bpb) mod 64 = 0 -> oy mod 8 = 0 ->
      exists r,
        CopyBlockLinearSubrectInternal fuel dir (mkDimensions pw ph pd) (mkDimensions bw bh bd)
          fmtBw fmtBh bpb pitch gbh gbd bl po originX originY m = Some r /\
        same_buffers
          (CopyBlockLinearSubrectInternal_v1 dir (mkDimensions pw ph pd) (mkDimensions bw bh bd)
             fmtBw fmtBh bpb pitch gbh gbd bl po originX originY m) r.
  Proof.
    intros fuel dir pw ph pd bw bh bd fmtBw fmtBh bpb pitch gbh gbd bl po originX originY m
           Hfuel Hb Hpw Hph Hbw Hbh Hbd Hfw Hfh HoX HoY Hgh Hgd Hfit
           W H ox oy Hinx Hiny Hax Haw Hay.
    pose proof (coalescable_pos bpb Hb) as Hbpb.
    pose proof (is_pow2_pos _ Hgd) as Hgd0.
    pose proof (is_pow2_pos _ Hgh) as Hgh0.
    destruct (CopyBlockLinearSubrectInternal_bytes fuel dir (mkDimensions pw ph pd)
                (mkDimensions bw bh bd) fmtBw fmtBh bpb pitch gbh gbd bl po originX originY
                m Hfuel Hb Hpw Hfw HoX) as (r & E & S).
    exists r. split; [exact E|].
    cbn [width height depth] in S.
    unfold spec.blockLinearLayerSize in Hfit. cbv zeta in Hfit.
    change spec.ceil_div with DivideCeil in *. change spec.align_up with AlignUp in *.
    set (Wbl := DivideCeil bw fmtBw) in *. set (Hbl := DivideCeil bh fmtBh) in *.
    set (Dz := AlignUp bd gbd) in *.
    fold W in S. fold H in S. fold ox in S. fold oy in S.
    pose proof (DivideCeil_nonneg pw fmtBw ltac:(lia) ltac:(lia)) as HW0. fold W in HW0.
    pose proof (DivideCeil_le pw fmtBw ltac:(lia) ltac:(lia)) as HW1. fold W in HW1.
    pose proof (DivideCeil_nonneg ph fmtBh ltac:(lia) ltac:(lia)) as HH0. fold H in HH0.
    pose proof (DivideCeil_le ph fmtBh ltac:(lia) ltac:(lia)) as HH1. fold H in HH1.
    pose proof (DivideCeil_nonneg bw fmtBw ltac:(lia) ltac:(lia)) as HWb0. fold Wbl in HWb0.
    pose proof (DivideCeil_le bw fmtBw ltac:(lia) ltac:(lia)) as HWb1. fold Wbl in HWb1.
    pose proof (DivideCeil_nonneg bh fmtBh ltac:(lia) ltac:(lia)) as HHb0. fold Hbl in HHb0.
    pose proof (DivideCeil_nonneg originX fmtBw ltac:(lia) ltac:(lia)) as Hox0. fold ox in Hox0.
    pose proof (DivideCeil_le originX fmtBw ltac:(lia) ltac:(lia)) as Hox1. fold ox in Hox1.
    pose proof (DivideCeil_nonneg originY fmtBh ltac:(lia) ltac:(lia)) as Hoy0. fold oy in Hoy0.
    pose proof (DivideCeil_le originY fmtBh ltac:(lia) ltac:(lia)) as Hoy1. fold oy in Hoy1.
    assert (HWB : 0 <= W * bpb < 2 ^ 64) by (clear - HW0 HW1 Hpw Hbpb; nia).
    assert (HOB : 0 <= ox * bpb < 2 ^ 63) by (clear - Hox0 Hox1 HoX Hbpb; nia).
    assert (HWB' : W * bpb < 2 ^ 63) by (clear - HW0 HW1 Hpw Hbpb; nia).
    unfold CopyBlockLinearSubrectInternal_v1. cbv zeta. cbn [width height depth].
    fold W H ox oy Wbl Dz.
    rewrite (size_t_small W), (size_t_small ox) by lia.
    rewrite (size_t_small (W * bpb)), (size_t_small (ox * bpb)) by lia.
    assert (EF : size_t (GobWidth - Z.land (ox * bpb) (GobWidth - 1)) / bpb = GobWidth / bpb).
    { change (GobWidth - 1) with (2 ^ 6 - 1). rewrite land_mod by lia.
      change (2 ^ 6) with 64. rewrite Hax. reflexivity. }
    assert (EL : Z.land (size_t (ox * bpb + W * bpb)) (GobWidth - 1) / bpb = 0).
    { rewrite size_t_small by lia. change (GobWidth - 1) with (2 ^ 6 - 1).
      rewrite land_mod by lia. change (2 ^ 6) with 64.
      rewrite Z.add_mod, Hax, Haw by lia. reflexivity. }
    assert (EG : (if W * bpb <? GobWidth then 0
                  else size_t (size_t (ox * bpb + W * bpb)
                               - size_t (AlignUp (ox * bpb) GobWidth)) / GobWidth)
                 = W * bpb / 64).
    { rewrite AlignUp_aligned by (unfold GobWidth; lia).
      rewrite (size_t_small (ox * bpb + W * bpb)), (size_t_small (ox * bpb)) by lia.
      replace (ox * bpb + W * bpb - ox * bpb) with (W * bpb) by ring.
      rewrite size_t_small by lia. unfold GobWidth.
      destruct (W * bpb <? 64) eqn:E64; [|reflexivity].
      apply Z.ltb_lt in E64. rewrite Z.div_small by lia. reflexivity. }
    rewrite EF, EL, EG. rewrite aligned_slices_moves by lia.
    eapply same_buffers_trans; [apply run_moves_run_bytes|].
    match type of S with same_buffers r (run_bytes dir ?C m) =>
      match goal with |- same_buffers (run_bytes dir ?L m) r =>
        assert (EB : L = C) end end.
    2: { rewrite EB. intros a. destruct (S a) as [-> ->]. split; reflexivity. }
    clear S E.
    rewrite byte_moves_flat_map. unfold code_bytes.
    apply flat_map_ext_in. intros z Hz. rewrite byte_moves_flat_map.
    apply flat_map_ext_in. intros y Hy.
    rewrite gob_row_bytes. unfold row_bytes.
    rewrite (Z2Nat.id (W * bpb / 64)) by (apply Z.div_pos; lia).
    replace (W * bpb / 64 * 64) with (W * bpb)
      by (pose proof (Z.div_mod (W * bpb) 64 ltac:(lia)); lia).
    apply map_ext_in. intros j Hj. apply In_zrange in Hj. apply in_seq in Hz, Hy.
    rewrite (size_t_small H) in Hy by lia.
    rewrite (size_t_small oy), (size_t_small Wbl) by lia.
    rewrite (size_t_small (Wbl * bpb)) by (clear - HWb0 HWb1 Hbw Hbpb; nia).
    set (Aw := AlignUp (Wbl * bpb) GobWidth) in *.
    assert (HWbb : 0 <= Wbl * bpb) by (clear - HWb0 Hbpb; nia).
    pose proof (AlignUp_bounds (Wbl * bpb) 64 ltac:(lia) HWbb) as HAw.
    change (AlignUp (Wbl * bpb) 64) with Aw in HAw, Hfit.
    pose proof (AlignUp_bounds bd gbd Hgd0 ltac:(lia)) as HDz. fold Dz in HDz.
    assert (HA64 : Aw mod 64 = 0) by (apply AlignUp_mod; lia).
    assert (HA0 : 0 <= Aw) by lia.
    assert (HD1 : 1 <= Dz) by lia.
    assert (Hxb0 : 0 <= ox * bpb < Aw) by (clear - Hinx HAw Hj HOB Hbpb; nia).
    assert (Hxb : 0 <= ox * bpb + j < Aw) by (clear - Hinx HAw Hj HOB Hbpb; nia).
    assert (HY : 0 <= oy + Z.of_nat y < Hbl) by lia.
    f_equal.
    rewrite (size_t_rob_height Aw Hbl Dz gbh Hgh HA0 HA64 HD1 Hfit _ _ Hxb HY).
    rewrite (size_t_aligned_depth Aw Hbl Dz gbh Hgh HA0 HA64 HD1 Hfit _ _ Hxb HY).
    rewrite (size_t_block_size Aw Hbl Dz gbh Hgh HA0 HA64 HD1 Hfit _ _ Hxb HY).
    rewrite (code_x_eq Aw Hbl Dz gbh Hgh HA0 HA64 HD1 Hfit _ _ Hxb HY).
    pose proof (code_x_eq Aw Hbl Dz gbh Hgh HA0 HA64 HD1 Hfit _ _ Hxb0 HY) as Hstart.
    unfold code_x in Hstart. rewrite code_gob_x_eq in Hstart by lia.
    replace (ox * bpb / GobWidth * (8 * gbh) * GobWidth * Dz)
      with (ox * bpb / GobWidth * (8 * gbh * 64 * Dz)) by (unfold GobWidth; ring).
    apply Z.add_cancel_r in Hstart. rewrite Hstart.
    unfold code_yz.
    rewrite (size_t_small (oy + Z.of_nat y)) by lia.
    rewrite <- (land_low_7 oy (Z.of_nat y) Hay), <- (land_low_1 oy (Z.of_nat y) Hay).
    assert (Eq : (ox * bpb + j) / 64 = ox * bpb / 64 + j / 64).
    { clear - Hax. apply Z.mod_divide in Hax; [|lia]. destruct Hax as (c & ->).
      rewrite Z.add_comm, Z.div_add, Z.div_mul by lia. ring. }
    assert (Eg : gob_x (ox * bpb + j) = gob_x j).
    { rewrite <- (gob_x_mod (ox * bpb + j)), <- (gob_x_mod j). f_equal.
      clear - Hax. rewrite Z.add_mod, Hax by lia. cbn [Z.add]. apply Z.mod_mod. lia. }
    rewrite Eq, Eg. unfold GobWidth. ring.
  Qed.

End SectorFacts.

(** ** The DMA front-end *)

Module DmaFacts.
Import util layout maxwell_dma.

  (** *** Running the computations *)

Lemma run_bind {A B : Type} (m : M A) (k : A -> M B) regs :
    trace_of (bind m k) regs
      = trace_of m regs ++ trace_of (k (value_of m regs)) (registers_after m regs) /\
    registers_after (bind m k) regs
      = registers_after (k (value_of m regs)) (registers_after m regs) /\
    value_of (bind m k) regs = value_of (k (value_of m regs)) (registers_after m regs).
  Proof.
    unfold trace_of, registers_after, value_of, bind.
    destruct (m regs) as [[a regs1] t1]. cbn [fst snd].
    destruct (k a regs1) as [[b regs2] t2]. repeat split.
  Qed.

Lemma trace_bind {A B : Type} (m : M A) (k : A -> M B) regs :
    trace_of (bind m k) regs
    = trace_of m regs ++ trace_of (k (value_of m regs)) (registers_after m regs).
  Proof. apply run_bind. Qed.

Lemma after_bind {A B : Type} (m : M A) (k : A -> M B) regs :
    registers_after (bind m k) regs
    = registers_after (k (value_of m regs)) (registers_after m regs).
  Proof. apply run_bind. Qed.

Lemma value_bind {A B : Type} (m : M A) (k : A -> M B) regs :
    value_of (bind m k) regs = value_of (k (value_of m regs)) (registers_after m regs).
  Proof. apply run_bind. Qed.

Section Engine.
Variable regLayout : RegisterLayout.
Variable env : Environment.

Lemma trace_registers regs : trace_of (registers regLayout) regs = [].
    Proof. reflexivity. Qed.

Lemma after_registers regs : registers_after (registers regLayout) regs = regs.
    Proof. reflexivity. Qed.

Lemma value_registers regs :
      value_of (registers regLayout) regs = registersOf regLayout regs.
    Proof. reflexivity. Qed.

Lemma trace_translateRange a s regs :
      trace_of (translateRange env a s) regs = [Translate a s].
    Proof. reflexivity. Qed.

Lemma after_translateRange a s regs : registers_after (translateRange env a s) regs = regs.
    Proof. reflexivity. Qed.

Lemma value_translateRange a s regs :
      value_of (translateRange env a s) regs = TranslateRange env a s.
    Proof. reflexivity. Qed.
End Engine.

Lemma trace_emit e regs : trace_of (emit e) regs = [e].
  Proof. reflexivity. Qed.

Lemma after_emit e regs : registers_after (emit e) regs = regs.
  Proof. reflexivity. Qed.

Lemma trace_ret {A : Type} (a : A) regs : trace_of (ret a) regs = [].
  Proof. reflexivity. Qed.

Lemma after_ret {A : Type} (a : A) regs : registers_after (ret a) regs = regs.
  Proof. reflexivity. Qed.

Create Rewrite HintDb run.
#[local] Hint Rewrite @trace_bind @after_bind @value_bind trace_registers after_registers
    value_registers trace_translateRange after_translateRange value_translateRange
    trace_emit after_emit @trace_ret @after_ret app_nil_r : run.

Ltac run := autorewrite with run; cbn [app].

Section Launch.
Variable regLayout : RegisterLayout.
Variable env : Environment.

    (** *** The register file is only read *)

Lemma after_ReleaseSemaphore regs :
      registers_after (ReleaseSemaphore regLayout env) regs = regs.
    Proof.
      unfold ReleaseSemaphore. run.
      destruct (reductionEnable (launchDma (registersOf regLayout regs))); run;
        destruct (semaphoreType (launchDma (registersOf regLayout regs))); run; reflexivity.
    Qed.

Lemma after_CopyBlockLinearToPitch regs :
      registers_after (CopyBlockLinearToPitch regLayout env) regs = regs.
    Proof.
      unfold CopyBlockLinearToPitch. run.
      destruct (negb (Width (blockSize (srcSurface (registersOf regLayout regs))) =? 1)); run; [reflexivity|].
      cbn [width height depth].
      destruct (TranslateRange env _ _) as [|s1 [|s2 sl]]; [reflexivity| |reflexivity].
      destruct (TranslateRange env _ _) as [|d1 [|d2 dl]]; [reflexivity| |reflexivity].
      run. match goal with |- context [if ?c then _ else _] => destruct c end; reflexivity.
    Qed.

Lemma after_CopyPitchToBlockLinear regs :
      registers_after (CopyPitchToBlockLinear regLayout env) regs = regs.
    Proof.
      unfold CopyPitchToBlockLinear. run.
      destruct (negb (Width (blockSize (dstSurface (registersOf regLayout regs))) =? 1)); run; [reflexivity|].
      cbn [width height depth].
      destruct (TranslateRange env _ _) as [|s1 [|s2 sl]]; [reflexivity| |reflexivity].
      destruct (TranslateRange env _ _) as [|d1 [|d2 dl]]; [reflexivity| |reflexivity].
      run. match goal with |- context [if ?c then _ else _] => destruct c end; reflexivity.
    Qed.

Lemma after_copy_lines r n : forall s d regs,
      registers_after (copy_lines r n s d) regs = regs.
    Proof.
      induction n as [|n IH]; intros s d regs; cbn [copy_lines]; run; [reflexivity|].
      apply IH.
    Qed.

Lemma after_DmaCopy regs : registers_after (DmaCopy regLayout env) regs = regs.
    Proof.
      unfold DmaCopy. run.
      destruct (multiLineEnable (launchDma (registersOf regLayout regs))); run; [|reflexivity].
      destruct (MemoryLayout_eqb _ _).
      - destruct (srcMemoryLayout (launchDma (registersOf regLayout regs))); [reflexivity|].
        destruct (_ && _); [reflexivity | apply after_copy_lines].
      - destruct (srcMemoryLayout (launchDma (registersOf regLayout regs)));
          [apply after_CopyBlockLinearToPitch | apply after_CopyPitchToBlockLinear].
    Qed.

Lemma after_LaunchDma regs : registers_after (LaunchDma regLayout env) regs = regs.
    Proof.
      unfold LaunchDma. run.
      destruct (remapEnable (launchDma (registersOf regLayout regs))); run;
        rewrite ?after_DmaCopy; apply after_ReleaseSemaphore.
    Qed.

    (** A launch is the copy, or the warning that stands for it, followed
        by the release of the semaphore. *)
Lemma trace_LaunchDma regs :
      trace_of (LaunchDma regLayout env) regs
      = trace_of (if remapEnable (launchDma (registersOf regLayout regs))
                  then emit (Log RemappedUnimplemented)
                  else DmaCopy regLayout env) regs
        ++ trace_of (ReleaseSemaphore regLayout env) regs.
    Proof.
      unfold LaunchDma. run. f_equal. f_equal.
      destruct (remapEnable (launchDma (registersOf regLayout regs))); [reflexivity | apply after_DmaCopy].
    Qed.

    (** *** The events of each part of a launch *)

Lemma trace_ReleaseSemaphore regs :
      let r := registersOf regLayout regs in
      trace_of (ReleaseSemaphore regLayout env) regs
      = (if reductionEnable (launchDma r) then [Log ReductionUnimplemented] else [])
        ++ match semaphoreType (launchDma r) with
           | ReleaseOneWordSemaphore =>
               [GmmuWrite (u64 (semaphoreAddress r)) (u64 (semaphorePayload r));
                Log (SemaphoreOneWord (u64 (semaphoreAddress r)) (u64 (semaphorePayload r)))]
           | ReleaseFourWordSemaphore =>
               [GmmuWrite (u64 (u64 (semaphoreAddress r) + 8)) (u64 (GetGpuTimeTicks env));
                GmmuWrite (u64 (semaphoreAddress r)) (u64 (semaphorePayload r));
                Log (SemaphoreFourWord (u64 (semaphoreAddress r)) (u64 (semaphorePayload r))
                       (u64 (GetGpuTimeTicks env)))]
           | _ => []
           end.
    Proof.
      cbv zeta. unfold ReleaseSemaphore. run.
      destruct (reductionEnable (launchDma (registersOf regLayout regs))); run;
        destruct (semaphoreType (launchDma (registersOf regLayout regs))); run; reflexivity.
    Qed.

Lemma ReleaseSemaphore_no_copy regs :
      filter is_copy (trace_of (ReleaseSemaphore regLayout env) regs) = [].
    Proof.
      rewrite trace_ReleaseSemaphore. cbv zeta.
      destruct (reductionEnable _), (semaphoreType _); reflexivity.
    Qed.

Lemma copy_lines_no_gmmu r n : forall s d regs,
      filter is_gmmu_write (trace_of (copy_lines r n s d) regs) = [].
    Proof.
      induction n as [|n IH]; intros s d regs; cbn [copy_lines]; run; [reflexivity|].
      cbn [filter is_gmmu_write]. apply IH.
    Qed.

Lemma CopyBlockLinearToPitch_no_gmmu regs :
      filter is_gmmu_write (trace_of (CopyBlockLinearToPitch regLayout env) regs) = [].
    Proof.
      unfold CopyBlockLinearToPitch. run.
      destruct (negb (Width (blockSize (srcSurface (registersOf regLayout regs))) =? 1));
        run; [reflexivity|].
      cbn [width height depth].
      destruct (TranslateRange env _ _) as [|s1 [|s2 sl]]; [reflexivity| |reflexivity].
      destruct (TranslateRange env _ _) as [|d1 [|d2 dl]]; [reflexivity| |reflexivity].
      run. match goal with |- context [if ?c then _ else _] => destruct c end; reflexivity.
    Qed.

Lemma CopyPitchToBlockLinear_no_gmmu regs :
      filter is_gmmu_write (trace_of (CopyPitchToBlockLinear regLayout env) regs) = [].
    Proof.
      unfold CopyPitchToBlockLinear. run.
      destruct (negb (Width (blockSize (dstSurface (registersOf regLayout regs))) =? 1));
        run; [reflexivity|].
      cbn [width height depth].
      destruct (TranslateRange env _ _) as [|s1 [|s2 sl]]; [reflexivity| |reflexivity].
      destruct (TranslateRange env _ _) as [|d1 [|d2 dl]]; [reflexivity| |reflexivity].
      run. match goal with |- context [if ?c then _ else _] => destruct c end; reflexivity.
    Qed.

Lemma DmaCopy_no_gmmu regs :
      filter is_gmmu_write (trace_of (DmaCopy regLayout env) regs) = [].
    Proof.
      unfold DmaCopy. run.
      destruct (multiLineEnable (launchDma (registersOf regLayout regs))); run; [|reflexivity].
      destruct (MemoryLayout_eqb _ _).
      - destruct (srcMemoryLayout (launchDma (registersOf regLayout regs))); [reflexivity|].
        destruct (_ && _); [reflexivity | apply copy_lines_no_gmmu].
      - destruct (srcMemoryLayout (launchDma (registersOf regLayout regs)));
          [apply CopyBlockLinearToPitch_no_gmmu | apply CopyPitchToBlockLinear_no_gmmu].
    Qed.

    (** C8. When [semaphoreType] is [ReleaseFourWordSemaphore] a launch
        performs exactly two MMU writes, those of the semaphore release: the
        64-bit time stamp at [semaphore.address + 8] first, then the payload
        at [semaphore.address]. *)
Theorem four_word_release_writes_timestamp_first :
      forall regs,
        semaphoreType (launchDma (registersOf regLayout regs)) = ReleaseFourWordSemaphore ->
        let r := registersOf regLayout regs in
        filter is_gmmu_write (trace_of (LaunchDma regLayout env) regs)
        = [GmmuWrite (u64 (u64 (semaphoreAddress r) + 8)) (u64 (GetGpuTimeTicks env));
           GmmuWrite (u64 (semaphoreAddress r)) (u64 (semaphorePayload r))]
        /\ filter is_gmmu_write (trace_of (ReleaseSemaphore regLayout env) regs)
           = filter is_gmmu_write (trace_of (LaunchDma regLayout env) regs).
    Proof.
      intros regs Hfour r.
      assert (Hrel : filter is_gmmu_write (trace_of (ReleaseSemaphore regLayout env) regs)
                     = [GmmuWrite (u64 (u64 (semaphoreAddress r) + 8)) (u64 (GetGpuTimeTicks env));
                        GmmuWrite (u64 (semaphoreAddress r)) (u64 (semaphorePayload r))]).
      { rewrite trace_ReleaseSemaphore. cbv zeta. rewrite Hfour.
        destruct (reductionEnable _); reflexivity. }
      assert (Hcopy : filter is_gmmu_write
                        (trace_of (if remapEnable (launchDma (registersOf regLayout regs))
                                   then emit (Log RemappedUnimplemented)
                                   else DmaCopy regLayout env) regs) = []).
      { destruct (remapEnable _); [reflexivity | apply DmaCopy_no_gmmu]. }
      rewrite trace_LaunchDma, filter_app, Hcopy, Hrel. split; reflexivity.
    Qed.

    (** *** Unsupported launches *)

Lemma trace_HandleMethod_launch argument regs :
      trace_of (HandleMethod regLayout env (launchDmaOffset regLayout) argument) regs
      = trace_of (LaunchDma regLayout env) (written regs (launchDmaOffset regLayout) argument).
    Proof.
      unfold HandleMethod. rewrite trace_bind, Z.eqb_refl. reflexivity.
    Qed.

Lemma after_HandleMethod method argument regs :
      registers_after (HandleMethod regLayout env method argument) regs
      = written regs method argument.
    Proof.
      unfold HandleMethod. rewrite after_bind.
      destruct (method =? launchDmaOffset regLayout); [apply after_LaunchDma | reflexivity].
    Qed.

Lemma split_not_single (s d : list (Z * Z)) :
      (1 < length s)%nat \/ (1 < length d)%nat ->
      match s, d with
      | [_], [_] => False
      | _, _ => True
      end.
    Proof.
      destruct s as [|s1 [|s2 sl]], d as [|d1 [|d2 dl]]; cbn; try tauto; lia.
    Qed.

Lemma CopyBlockLinearToPitch_unsupported regs :
      let r := registersOf regLayout regs in
      Width (blockSize (srcSurface r)) <> 1 \/ split_mapping env (blockLinearToPitch_ranges r) ->
      filter is_copy (trace_of (CopyBlockLinearToPitch regLayout env) regs) = [].
    Proof.
      cbv zeta. intros Hun. unfold CopyBlockLinearToPitch. run.
      destruct (Width (blockSize (srcSurface (registersOf regLayout regs))) =? 1) eqn:EW;
        cbn [negb]; run; [|reflexivity].
      apply Z.eqb_eq in EW. destruct Hun as [Hw | Hsplit]; [contradiction|].
      unfold split_mapping, blockLinearToPitch_ranges in Hsplit. cbn [fst snd] in Hsplit.
      apply split_not_single in Hsplit. cbn [width height depth].
      destruct (TranslateRange env _ _) as [|s1 [|s2 sl]]; [reflexivity| |reflexivity].
      destruct (TranslateRange env _ _) as [|d1 [|d2 dl]]; [reflexivity| |reflexivity].
      contradiction.
    Qed.

Lemma CopyPitchToBlockLinear_unsupported regs :
      let r := registersOf regLayout regs in
      Width (blockSize (dstSurface r)) <> 1 \/ split_mapping env (pitchToBlockLinear_ranges r) ->
      filter is_copy (trace_of (CopyPitchToBlockLinear regLayout env) regs) = [].
    Proof.
      cbv zeta. intros Hun. unfold CopyPitchToBlockLinear. run.
      destruct (Width (blockSize (dstSurface (registersOf regLayout regs))) =? 1) eqn:EW;
        cbn [negb]; run; [|reflexivity].
      apply Z.eqb_eq in EW. destruct Hun as [Hw | Hsplit]; [contradiction|].
      unfold split_mapping, pitchToBlockLinear_ranges in Hsplit. cbn [fst snd] in Hsplit.
      apply split_not_single in Hsplit. cbn [width height depth].
      destruct (TranslateRange env _ _) as [|s1 [|s2 sl]]; [reflexivity| |reflexivity].
      destruct (TranslateRange env _ _) as [|d1 [|d2 dl]]; [reflexivity| |reflexivity].
      contradiction.
    Qed.

    (** C9. On every register state that triggers an unsupported launch
        (remapping enabled, a multi-line copy between two block-linear
        surfaces, a block-linear surface whose block width is not 1, or
        [TranslateRange] returning more than one mapping for either side)
        the launch performs no copy, still runs [ReleaseSemaphore], and
        leaves the register file as it was, so that the next [launchDma]
        write is handled as a launch of its own. *)
Theorem unsupported_launch_skips_copy_and_releases :
      forall regs,
        unsupported_launch env (registersOf regLayout regs) ->
        filter is_copy (trace_of (LaunchDma regLayout env) regs) = [] /\
        (exists before,
           trace_of (LaunchDma regLayout env) regs
           = before ++ trace_of (ReleaseSemaphore regLayout env) regs) /\
        registers_after (LaunchDma regLayout env) regs = regs /\
        (forall argument,
           trace_of (LaunchDma regLayout env ;;;
                     HandleMethod regLayout env (launchDmaOffset regLayout) argument) regs
           = trace_of (LaunchDma regLayout env) regs
             ++ trace_of (LaunchDma regLayout env)
                  (written regs (launchDmaOffset regLayout) argument)).
    Proof.
      intros regs Hun. split; [|split; [|split]].
      - rewrite trace_LaunchDma, filter_app, ReleaseSemaphore_no_copy, app_nil_r.
        destruct Hun as [Hremap | (Hremap & Hmulti & Hcase)]; rewrite Hremap; [reflexivity|].
        unfold DmaCopy. run. rewrite Hmulti. run.
        destruct Hcase as [(Hs & Hd) | [(Hs & Hd & Hbad) | (Hs & Hd & Hbad)]];
          rewrite Hs, Hd; cbn [MemoryLayout_eqb filter is_copy].
        + reflexivity.
        + now apply CopyBlockLinearToPitch_unsupported.
        + now apply CopyPitchToBlockLinear_unsupported.
      - eexists. apply trace_LaunchDma.
      - apply after_LaunchDma.
      - intros argument.
        rewrite trace_bind, after_LaunchDma, trace_HandleMethod_launch. reflexivity.
    Qed.

    (** *** The layer fields *)

Lemma copy_lines_with_layers r l1 l2 n : forall s d,
      copy_lines (with_layers r l1 l2) n s d = copy_lines r n s d.
    Proof.
      induction n as [|n IH]; intros s d; cbn [copy_lines]; [reflexivity|].
      now rewrite IH.
    Qed.

Lemma trace_CopyBlockLinearToPitch regs :
      let r := registersOf regLayout regs in
      Width (blockSize (srcSurface r)) = 1 ->
      filter is_translate (trace_of (CopyBlockLinearToPitch regLayout env) regs)
      = [Translate (fst (fst (blockLinearToPitch_ranges r))) (snd (fst (blockLinearToPitch_ranges r)));
         Translate (fst (snd (blockLinearToPitch_ranges r))) (snd (snd (blockLinearToPitch_ranges r)))].
    Proof.
      cbv zeta. intros Hw. unfold CopyBlockLinearToPitch. run. rewrite Hw.
      change (negb (1 =? 1)) with false. cbv iota. run.
      unfold blockLinearToPitch_ranges. cbn [fst snd width height depth filter is_translate].
      do 2 f_equal.
      destruct (TranslateRange env _ _) as [|s1 [|s2 sl]]; [reflexivity| |reflexivity].
      destruct (TranslateRange env _ _) as [|d1 [|d2 dl]]; [reflexivity| |reflexivity].
      run. match goal with |- context [if ?c then _ else _] => destruct c end; reflexivity.
    Qed.

Lemma trace_CopyPitchToBlockLinear regs :
      let r := registersOf regLayout regs in
      Width (blockSize (dstSurface r)) = 1 ->
      filter is_translate (trace_of (CopyPitchToBlockLinear regLayout env) regs)
      = [Translate (fst (fst (pitchToBlockLinear_ranges r))) (snd (fst (pitchToBlockLinear_ranges r)));
         Translate (fst (snd (pitchToBlockLinear_ranges r))) (snd (snd (pitchToBlockLinear_ranges r)))].
    Proof.
      cbv zeta. intros Hw. unfold CopyPitchToBlockLinear. run. rewrite Hw.
      change (negb (1 =? 1)) with false. cbv iota. run.
      unfold pitchToBlockLinear_ranges. cbn [fst snd width height depth filter is_translate].
      do 2 f_equal.
      destruct (TranslateRange env _ _) as [|s1 [|s2 sl]]; [reflexivity| |reflexivity].
      destruct (TranslateRange env _ _) as [|d1 [|d2 dl]]; [reflexivity| |reflexivity].
      run. match goal with |- context [if ?c then _ else _] => destruct c end; reflexivity.
    Qed.

Ltac layers H :=
      rewrite ?H;
      cbn [with_layers with_layer launchDma offsetIn offsetOut pitchIn pitchOut lineLengthIn
           lineCount srcSurface dstSurface semaphoreAddress semaphorePayload blockSize
           surfaceWidth surfaceHeight surfaceDepth originX originY layer].

Lemma CopyBlockLinearToPitch_layers regs regs' l1 l2 :
      registersOf regLayout regs' = with_layers (registersOf regLayout regs) l1 l2 ->
      filter (fun e => negb (is_log e)) (trace_of (CopyBlockLinearToPitch regLayout env) regs')
      = filter (fun e => negb (is_log e)) (trace_of (CopyBlockLinearToPitch regLayout env) regs).
    Proof.
      intros H. unfold CopyBlockLinearToPitch. run. layers H.
      destruct (negb (Width (blockSize (srcSurface (registersOf regLayout regs))) =? 1));
        run; [reflexivity|].
      layers H. cbn [width height depth filter is_log negb]. do 2 f_equal.
      destruct (TranslateRange env _ _) as [|s1 [|s2 sl]]; [reflexivity| |reflexivity].
      destruct (TranslateRange env _ _) as [|d1 [|d2 dl]]; [reflexivity| |reflexivity].
      run. layers H. cbn [filter is_log negb].
      match goal with |- context [if ?c then _ else _] => destruct c end; reflexivity.
    Qed.

Lemma CopyPitchToBlockLinear_layers regs regs' l1 l2 :
      registersOf regLayout regs' = with_layers (registersOf regLayout regs) l1 l2 ->
      filter (fun e => negb (is_log e)) (trace_of (CopyPitchToBlockLinear regLayout env) regs')
      = filter (fun e => negb (is_log e)) (trace_of (CopyPitchToBlockLinear regLayout env) regs).
    Proof.
      intros H. unfold CopyPitchToBlockLinear. run. layers H.
      destruct (negb (Width (blockSize (dstSurface (registersOf regLayout regs))) =? 1));
        run; [reflexivity|].
      layers H. cbn [width height depth filter is_log negb]. do 2 f_equal.
      destruct (TranslateRange env _ _) as [|s1 [|s2 sl]]; [reflexivity| |reflexivity].
      destruct (TranslateRange env _ _) as [|d1 [|d2 dl]]; [reflexivity| |reflexivity].
      run. layers H. cbn [filter is_log negb].
      match goal with |- context [if ?c then _ else _] => destruct c end; reflexivity.
    Qed.

Lemma DmaCopy_layers regs regs' l1 l2 :
      registersOf regLayout regs' = with_layers (registersOf regLayout regs) l1 l2 ->
      filter (fun e => negb (is_log e)) (trace_of (DmaCopy regLayout env) regs')
      = filter (fun e => negb (is_log e)) (trace_of (DmaCopy regLayout env) regs).
    Proof.
      intros H. unfold DmaCopy. run. layers H.
      destruct (multiLineEnable (launchDma (registersOf regLayout regs))); run.
      - cbn [filter is_log negb]. f_equal.
        destruct (MemoryLayout_eqb _ _).
        + destruct (srcMemoryLayout (launchDma (registersOf regLayout regs))); [reflexivity|].
          destruct (_ && _); layers H; [reflexivity|].
          rewrite copy_lines_with_layers. f_equal.
          clear. generalize 0 at 1 3. generalize 0.
          induction (Z.to_nat (lineCount (registersOf regLayout regs))) as [|n IH];
            intros s d; cbn [copy_lines]; [reflexivity|].
          rewrite !trace_bind, !after_emit. f_equal. apply IH.
        + destruct (srcMemoryLayout (launchDma (registersOf regLayout regs)));
            [now apply (CopyBlockLinearToPitch_layers regs regs' l1 l2)
            | now apply (CopyPitchToBlockLinear_layers regs regs' l1 l2)].
      - layers H. reflexivity.
    Qed.

    (** C10. The block-linear to pitch and pitch to block-linear paths hand
        the raw [offsetIn] and [offsetOut] to [TranslateRange], and the
        [layer] fields of [srcSurface] and [dstSurface] decide nothing but
        log output: two launches whose registers differ only in the layer
        fields translate the same ranges and make the same copies with the
        same arguments. *)
Theorem layer_fields_only_reach_the_log :
      forall regs,
        let r := registersOf regLayout regs in
        (Width (blockSize (srcSurface r)) = 1 ->
         filter is_translate (trace_of (CopyBlockLinearToPitch regLayout env) regs)
         = [Translate (offsetIn r) (snd (fst (blockLinearToPitch_ranges r)));
            Translate (offsetOut r) (snd (snd (blockLinearToPitch_ranges r)))]) /\
        (Width (blockSize (dstSurface r)) = 1 ->
         filter is_translate (trace_of (CopyPitchToBlockLinear regLayout env) regs)
         = [Translate (offsetIn r) (snd (fst (pitchToBlockLinear_ranges r)));
            Translate (offsetOut r) (snd (snd (pitchToBlockLinear_ranges r)))]) /\
        (forall regs' srcLayer dstLayer,
           registersOf regLayout regs' = with_layers r srcLayer dstLayer ->
           blockLinearToPitch_ranges (registersOf regLayout regs') = blockLinearToPitch_ranges r /\
           pitchToBlockLinear_ranges (registersOf regLayout regs') = pitchToBlockLinear_ranges r /\
           filter (fun e => negb (is_log e)) (trace_of (LaunchDma regLayout env) regs')
           = filter (fun e => negb (is_log e)) (trace_of (LaunchDma regLayout env) regs)).
    Proof.
      intros regs r. split; [|split].
      - intros Hw. now rewrite trace_CopyBlockLinearToPitch.
      - intros Hw. now rewrite trace_CopyPitchToBlockLinear.
      - intros regs' l1 l2 H. split; [now rewrite H | split; [now rewrite H|]].
        rewrite !trace_LaunchDma, !filter_app. f_equal.
        + layers H. fold r.
          destruct (remapEnable (launchDma r)); [reflexivity|].
          now apply (DmaCopy_layers regs regs' l1 l2).
        + rewrite !trace_ReleaseSemaphore. cbv zeta. layers H. reflexivity.
    Qed.

End Launch.
End DmaFacts.

(** ** More on the DMA front-end *)

Module DmaExtras.
Import util layout maxwell_dma UtilFacts DmaFacts.

Create Rewrite HintDb dma.
#[local] Hint Rewrite @trace_bind @after_bind @value_bind trace_registers after_registers
    value_registers trace_translateRange after_translateRange value_translateRange
    trace_emit after_emit @trace_ret @after_ret app_nil_r : dma.

Ltac dma := autorewrite with dma; cbn [app].

Section Engine.
Variable regLayout : RegisterLayout.
Variable env : Environment.

    (** *** Batches of writes to one method *)

Lemma after_batch method arguments : forall regs,
      registers_after (CallMethodBatchNonInc regLayout env method arguments) regs
      = fold_left (fun regs argument => written regs method argument) arguments regs.
    Proof.
      induction arguments as [|a l IH]; intros regs; [reflexivity|].
      cbn [CallMethodBatchNonInc fold_left]. rewrite after_bind, after_HandleMethod. apply IH.
    Qed.

Lemma last_nonempty (b : Z) l a d : last (b :: l) a = last (b :: l) d.
    Proof.
      revert b. induction l as [|c l IH]; intros b; [reflexivity|].
      cbn [last] in *. apply IH.
    Qed.

Lemma written_last method l : forall regs i,
      fold_left (fun regs argument => written regs method argument) l regs i
      = if i =? method then last l (regs method) else regs i.
    Proof.
      induction l as [|a l IH]; intros regs i; cbn [fold_left].
      - cbn [last]. destruct (i =? method) eqn:E; [|reflexivity].
        apply Z.eqb_eq in E. now subst.
      - rewrite IH. unfold written. rewrite Z.eqb_refl.
        destruct (i =? method) eqn:E; [|reflexivity].
        destruct l as [|b l]; [reflexivity|].
        change (last (a :: b :: l) (regs method)) with (last (b :: l) (regs method)).
        apply last_nonempty.
    Qed.

    (** X16. A batch of writes to one method leaves in its register the
        last argument of the batch, and every other register as it was;
        when the method is not [launchDma] the batch does nothing else. *)
Theorem batch_keeps_last_argument :
      forall method arguments regs,
        (forall i,
           registers_after (CallMethodBatchNonInc regLayout env method arguments) regs i
           = if i =? method then last arguments (regs method) else regs i) /\
        (method <> launchDmaOffset regLayout ->
         trace_of (CallMethodBatchNonInc regLayout env method arguments) regs = []).
    Proof.
      intros method arguments regs. split.
      - intros i. rewrite after_batch. apply written_last.
      - intros Hm. apply Z.eqb_neq in Hm. revert regs.
        induction arguments as [|a l IH]; intros regs; [reflexivity|].
        cbn [CallMethodBatchNonInc]. rewrite trace_bind, IH, app_nil_r.
        unfold HandleMethod. rewrite trace_bind, Hm. reflexivity.
    Qed.

    (** The events of a launch depend on the register file through the
        register views only. *)
Lemma trace_copy_lines_regs r n : forall s d regs regs',
      trace_of (copy_lines r n s d) regs = trace_of (copy_lines r n s d) regs'.
    Proof.
      induction n as [|n IH]; intros s d regs regs'; cbn [copy_lines]; dma; [reflexivity|].
      f_equal. apply IH.
    Qed.

Lemma trace_LaunchDma_views regs regs' :
      registersOf regLayout regs = registersOf regLayout regs' ->
      trace_of (LaunchDma regLayout env) regs = trace_of (LaunchDma regLayout env) regs'.
    Proof.
      intros E. rewrite !trace_LaunchDma, !trace_ReleaseSemaphore. cbv zeta.
      rewrite E. f_equal.
      destruct (remapEnable (launchDma (registersOf regLayout regs'))); [reflexivity|].
      unfold DmaCopy. dma. rewrite E.
      destruct (multiLineEnable (launchDma (registersOf regLayout regs'))); dma;
        [|reflexivity].
      f_equal. destruct (MemoryLayout_eqb _ _).
      - destruct (srcMemoryLayout (launchDma (registersOf regLayout regs'))); [reflexivity|].
        destruct (_ && _); [reflexivity | apply trace_copy_lines_regs].
      - destruct (srcMemoryLayout (launchDma (registersOf regLayout regs'))).
        + unfold CopyBlockLinearToPitch. dma. rewrite E.
          destruct (negb _); dma; [reflexivity|]. cbn [width height depth]. do 2 f_equal.
          destruct (TranslateRange env _ _) as [|s1 [|s2 sl]]; [reflexivity| |reflexivity].
          destruct (TranslateRange env _ _) as [|d1 [|d2 dl]]; [reflexivity| |reflexivity].
          dma. match goal with |- context [if ?c then _ else _] => destruct c end; reflexivity.
        + unfold CopyPitchToBlockLinear. dma. rewrite E.
          destruct (negb _); dma; [reflexivity|]. cbn [width height depth]. do 2 f_equal.
          destruct (TranslateRange env _ _) as [|s1 [|s2 sl]]; [reflexivity| |reflexivity].
          destruct (TranslateRange env _ _) as [|d1 [|d2 dl]]; [reflexivity| |reflexivity].
          dma. match goal with |- context [if ?c then _ else _] => destruct c end; reflexivity.
    Qed.

    (** X17. When the register views depend on the words of the register
        file only, a batch of writes to [launchDma] runs one launch for
        each argument, in order, each on the register file in which
        [launchDma] holds that argument. *)
Theorem batch_launches_once_per_argument :
      forall arguments regs,
        (forall r r', (forall i, r i = r' i) ->
                      registersOf regLayout r = registersOf regLayout r') ->
        trace_of (CallMethodBatchNonInc regLayout env (launchDmaOffset regLayout) arguments)
          regs
        = flat_map (fun argument =>
                      trace_of (LaunchDma regLayout env)
                        (written regs (launchDmaOffset regLayout) argument))
                   arguments.
    Proof.
      intros arguments regs Hext.
      assert (Hgen : forall l r r',
                (forall i, i <> launchDmaOffset regLayout -> r i = r' i) ->
                trace_of (CallMethodBatchNonInc regLayout env (launchDmaOffset regLayout) l) r
                = flat_map (fun argument =>
                              trace_of (LaunchDma regLayout env)
                                (written r' (launchDmaOffset regLayout) argument)) l).
      { induction l as [|a l IH]; intros r r' E; [reflexivity|].
        cbn [CallMethodBatchNonInc flat_map].
        rewrite trace_bind, trace_HandleMethod_launch, after_HandleMethod. f_equal.
        - apply trace_LaunchDma_views, Hext. intros i. unfold written.
          destruct (i =? launchDmaOffset regLayout) eqn:Ei; [reflexivity|].
          apply E. now apply Z.eqb_neq.
        - apply IH. intros i Hi. unfold written.
          apply Z.eqb_neq in Hi. rewrite Hi. apply E. now apply Z.eqb_neq. }
      now apply Hgen.
    Qed.

    (** *** The linear copies *)

    (** X18. Without remapping and without [multiLineEnable] a launch
        makes one linear copy of [lineLengthIn] bytes from [offsetIn] to
        [offsetOut], whatever the memory layouts, the line count and the
        pitches are; it does not submit and translates nothing. *)
Theorem one_dimensional_copy :
      forall regs,
        let r := registersOf regLayout regs in
        remapEnable (launchDma r) = false ->
        multiLineEnable (launchDma r) = false ->
        trace_of (LaunchDma regLayout env) regs
        = [Log (Copy1D (u64 (offsetIn r)) (u64 (offsetOut r)) (lineLengthIn r));
           InterconnectCopy (u64 (offsetOut r)) (u64 (offsetIn r)) (u64 (lineLengthIn r))]
          ++ trace_of (ReleaseSemaphore regLayout env) regs.
    Proof.
      intros regs r Hremap Hmulti. rewrite trace_LaunchDma. fold r. rewrite Hremap.
      f_equal. unfold DmaCopy. dma. fold r. rewrite Hmulti. dma. reflexivity.
    Qed.

    (** The offsets of the line-by-line loop: after [i] lines each is [i]
        times its pitch, as a 32-bit number. *)
Lemma u32_add_l a b : u32 (u32 a + b) = u32 (a + b).
    Proof. unfold u32. apply Zplus_mod_idemp_l. Qed.

Lemma trace_copy_lines r n : forall s d regs,
      trace_of (copy_lines r n s d) regs
      = map (fun i : nat =>
               InterconnectCopy (u64 (offsetOut r + (if Nat.eqb i 0 then d
                                                      else u32 (d + Z.of_nat i * pitchOut r))))
                                (u64 (offsetIn r + (if Nat.eqb i 0 then s
                                                     else u32 (s + Z.of_nat i * pitchIn r))))
                                (u64 (lineLengthIn r)))
            (seq 0 n).
    Proof.
      induction n as [|n IH]; intros s d regs; cbn [copy_lines]; dma; [reflexivity|].
      cbn [seq map Nat.eqb]. f_equal. rewrite IH, <- seq_shift, map_map.
      apply map_ext. intros i. rewrite Nat2Z.inj_succ.
      change (Nat.eqb (S i) 0) with false. cbv iota.
      destruct (Nat.eqb i 0) eqn:Ei.
      - apply Nat.eqb_eq in Ei. subst i. cbn [Z.of_nat]. do 2 f_equal; f_equal; f_equal; lia.
      - rewrite !u32_add_l. do 2 f_equal; f_equal; f_equal; lia.
    Qed.

    (** X19. A multi-line copy between two pitch surfaces. When both
        pitches equal the line length it is one linear copy whose size is
        [lineLengthIn * lineCount] as a 32-bit number; otherwise it is
        [lineCount] copies of [lineLengthIn] bytes, line [i] at [i] times
        the pitches, each product as a 32-bit number. Either way it
        submits first, translates nothing and releases the semaphore
        last. *)
Theorem pitch_to_pitch_copies :
      forall regs,
        let r := registersOf regLayout regs in
        remapEnable (launchDma r) = false ->
        multiLineEnable (launchDma r) = true ->
        srcMemoryLayout (launchDma r) = Pitch ->
        dstMemoryLayout (launchDma r) = Pitch ->
        trace_of (LaunchDma regLayout env) regs
        = Submit
          :: (if (pitchIn r =? pitchOut r) && (pitchIn r =? lineLengthIn r)
              then [InterconnectCopy (u64 (offsetOut r)) (u64 (offsetIn r))
                      (u64 (u32 (lineLengthIn r * lineCount r)))]
              else map (fun i : nat =>
                          InterconnectCopy
                            (u64 (offsetOut r + u32 (Z.of_nat i * pitchOut r)))
                            (u64 (offsetIn r + u32 (Z.of_nat i * pitchIn r)))
                            (u64 (lineLengthIn r)))
                       (seq 0 (Z.to_nat (lineCount r))))
          ++ trace_of (ReleaseSemaphore regLayout env) regs.
    Proof.
      intros regs r Hremap Hmulti Hsrc Hdst. rewrite trace_LaunchDma. fold r. rewrite Hremap.
      change (Submit :: ?l ++ ?t) with ((Submit :: l) ++ t). f_equal.
      unfold DmaCopy. dma. fold r. rewrite Hmulti. dma. f_equal.
      rewrite Hsrc, Hdst. cbn [MemoryLayout_eqb].
      destruct ((pitchIn r =? pitchOut r) && (pitchIn r =? lineLengthIn r)); [reflexivity|].
      rewrite trace_copy_lines. apply map_ext. intros i.
      destruct (Nat.eqb i 0) eqn:Ei; [|reflexivity].
      apply Nat.eqb_eq in Ei. subst i. reflexivity.
    Qed.

    (** *** The release of the semaphore *)

    (** X20. The MMU writes of a launch are those of the semaphore
        release, by semaphore type: the payload at the semaphore address
        for a one-word release, the time stamp at the address plus 8 and
        then the payload for a four-word release, and none for any other
        type. *)
Theorem release_writes_by_type :
      forall regs,
        let r := registersOf regLayout regs in
        filter is_gmmu_write (trace_of (LaunchDma regLayout env) regs)
        = match semaphoreType (launchDma r) with
          | ReleaseOneWordSemaphore =>
              [GmmuWrite (u64 (semaphoreAddress r)) (u64 (semaphorePayload r))]
          | ReleaseFourWordSemaphore =>
              [GmmuWrite (u64 (u64 (semaphoreAddress r) + 8)) (u64 (GetGpuTimeTicks env));
               GmmuWrite (u64 (semaphoreAddress r)) (u64 (semaphorePayload r))]
          | _ => []
          end.
    Proof.
      intros regs r. rewrite trace_LaunchDma, filter_app. fold r.
      assert (Hcopy : filter is_gmmu_write
                        (trace_of (if remapEnable (launchDma r)
                                   then emit (Log RemappedUnimplemented)
                                   else DmaCopy regLayout env) regs) = []).
      { destruct (remapEnable (launchDma r)); [reflexivity | apply DmaCopy_no_gmmu]. }
      rewrite Hcopy, trace_ReleaseSemaphore. cbv zeta. fold r. cbn [app].
      destruct (reductionEnable (launchDma r)), (semaphoreType (launchDma r)); reflexivity.
    Qed.

    (** *** The calls into the swizzle copier *)

    (** X21. A block-linear to pitch launch whose surface has block width
        1 and whose two ranges are in one mapping each calls the swizzle
        copier once, after [Submit] and the two translations: the
        full-surface copier when the surface and the lines have the same
        width rounded down to 64 and the origin is (0, 0), the
        sub-rectangle copier at the origin otherwise. The elements are
        single bytes, the pitch is [pitchOut], the depth is that of the
        surface, and the pointers are the starts of the mappings. *)
Theorem block_linear_to_pitch_selects_copier :
      forall regs srcMapping dstMapping,
        let r := registersOf regLayout regs in
        let srcDimensions :=
          mkDimensions (surfaceWidth (srcSurface r)) (surfaceHeight (srcSurface r))
                       (surfaceDepth (srcSurface r)) in
        let dstDimensions :=
          mkDimensions (lineLengthIn r) (lineCount r) (surfaceDepth (srcSurface r)) in
        let gbh := Height (blockSize (srcSurface r)) in
        let gbd := Depth (blockSize (srcSurface r)) in
        remapEnable (launchDma r) = false ->
        multiLineEnable (launchDma r) = true ->
        srcMemoryLayout (launchDma r) = BlockLinear ->
        dstMemoryLayout (launchDma r) = Pitch ->
        Width (blockSize (srcSurface r)) = 1 ->
        TranslateRange env (offsetIn r) (GetBlockLinearLayerSize srcDimensions 1 1 1 gbh gbd)
          = [srcMapping] ->
        TranslateRange env (offsetOut r)
          (u32 (pitchOut r * lineCount r * surfaceDepth (srcSurface r))) = [dstMapping] ->
        filter (fun e => negb (is_log e)) (trace_of (LaunchDma regLayout env) regs)
        = [Submit;
           Translate (offsetIn r) (GetBlockLinearLayerSize srcDimensions 1 1 1 gbh gbd);
           Translate (offsetOut r)
             (u32 (pitchOut r * lineCount r * surfaceDepth (srcSurface r)));
           TextureCopy
             (if (AlignDown (surfaceWidth (srcSurface r)) 64 =? AlignDown (lineLengthIn r) 64)
                 && (originX (srcSurface r) =? 0) && (originY (srcSurface r) =? 0)
              then CallCopyBlockLinearToPitch dstDimensions 1 1 1 (pitchOut r) gbh gbd
                     (fst srcMapping) (fst dstMapping)
              else CallCopyBlockLinearToPitchSubrect dstDimensions srcDimensions 1 1 1
                     (pitchOut r) gbh gbd (fst srcMapping) (fst dstMapping)
                     (originX (srcSurface r)) (originY (srcSurface r)))]
          ++ filter (fun e => negb (is_log e))
               (trace_of (ReleaseSemaphore regLayout env) regs).
    Proof.
      intros regs srcMapping dstMapping r srcDimensions dstDimensions gbh gbd
             Hremap Hmulti Hsrc Hdst Hw Hs Hd.
      rewrite trace_LaunchDma, filter_app. fold r. rewrite Hremap. f_equal.
      unfold DmaCopy. dma. fold r. rewrite Hmulti. dma. rewrite Hsrc, Hdst.
      cbn [MemoryLayout_eqb filter is_log negb]. f_equal.
      unfold CopyBlockLinearToPitch. dma. fold r. rewrite Hw.
      change (negb (1 =? 1)) with false. cbv iota. dma.
      cbn [width height depth]. fold srcDimensions gbh gbd. rewrite Hs, Hd.
      cbn [filter is_log negb]. do 2 f_equal. dma. fold dstDimensions.
      destruct (AlignDown (surfaceWidth (srcSurface r)) 64 =? AlignDown (lineLengthIn r) 64),
               (originX (srcSurface r) =? 0), (originY (srcSurface r) =? 0); reflexivity.
    Qed.

    (** X22. The same for a pitch to block-linear launch: the surface is
        the destination, the pitch is [pitchIn]. *)
Theorem pitch_to_block_linear_selects_copier :
      forall regs srcMapping dstMapping,
        let r := registersOf regLayout regs in
        let srcDimensions :=
          mkDimensions (lineLengthIn r) (lineCount r) (surfaceDepth (dstSurface r)) in
        let dstDimensions :=
          mkDimensions (surfaceWidth (dstSurface r)) (surfaceHeight (dstSurface r))
                       (surfaceDepth (dstSurface r)) in
        let gbh := Height (blockSize (dstSurface r)) in
        let gbd := Depth (blockSize (dstSurface r)) in
        remapEnable (launchDma r) = false ->
        multiLineEnable (launchDma r) = true ->
        srcMemoryLayout (launchDma r) = Pitch ->
        dstMemoryLayout (launchDma r) = BlockLinear ->
        Width (blockSize (dstSurface r)) = 1 ->
        TranslateRange env (offsetIn r)
          (u32 (pitchIn r * lineCount r * surfaceDepth (dstSurface r))) = [srcMapping] ->
        TranslateRange env (offsetOut r) (GetBlockLinearLayerSize dstDimensions 1 1 1 gbh gbd)
          = [dstMapping] ->
        filter (fun e => negb (is_log e)) (trace_of (LaunchDma regLayout env) regs)
        = [Submit;
           Translate (offsetIn r)
             (u32 (pitchIn r * lineCount r * surfaceDepth (dstSurface r)));
           Translate (offsetOut r) (GetBlockLinearLayerSize dstDimensions 1 1 1 gbh gbd);
           TextureCopy
             (if (AlignDown (lineLengthIn r) 64 =? AlignDown (surfaceWidth (dstSurface r)) 64)
                 && (originX (dstSurface r) =? 0) && (originY (dstSurface r) =? 0)
              then CallCopyPitchToBlockLinear srcDimensions 1 1 1 (pitchIn r) gbh gbd
                     (fst srcMapping) (fst dstMapping)
              else CallCopyPitchToBlockLinearSubrect srcDimensions dstDimensions 1 1 1
                     (pitchIn r) gbh gbd (fst srcMapping) (fst dstMapping)
                     (originX (dstSurface r)) (originY (dstSurface r)))]
          ++ filter (fun e => negb (is_log e))
               (trace_of (ReleaseSemaphore regLayout env) regs).
    Proof.
      intros regs srcMapping dstMapping r srcDimensions dstDimensions gbh gbd
             Hremap Hmulti Hsrc Hdst Hw Hs Hd.
      rewrite trace_LaunchDma, filter_app. fold r. rewrite Hremap. f_equal.
      unfold DmaCopy. dma. fold r. rewrite Hmulti. dma. rewrite Hsrc, Hdst.
      cbn [MemoryLayout_eqb filter is_log negb]. f_equal.
      unfold CopyPitchToBlockLinear. dma. fold r. rewrite Hw.
      change (negb (1 =? 1)) with false. cbv iota. dma.
      cbn [width height depth]. fold dstDimensions gbh gbd. rewrite Hs, Hd.
      cbn [filter is_log negb]. do 2 f_equal. dma. fold srcDimensions.
      destruct (AlignDown (lineLengthIn r) 64 =? AlignDown (surfaceWidth (dstSurface r)) 64),
               (originX (dstSurface r) =? 0), (originY (dstSurface r) =? 0); reflexivity.
    Qed.

    (** X23. A range that [TranslateRange] maps nowhere is handled as a
        split one: when the source or the destination of a block-linear to
        pitch or pitch to block-linear launch has no mapping the launch
        warns, copies nothing and still releases the semaphore. *)
Theorem unmapped_range_skips_copy :
      forall regs,
        let r := registersOf regLayout regs in
        let ranges :=
          match srcMemoryLayout (launchDma r) with
          | BlockLinear => blockLinearToPitch_ranges r
          | Pitch => pitchToBlockLinear_ranges r
          end in
        remapEnable (launchDma r) = false ->
        multiLineEnable (launchDma r) = true ->
        srcMemoryLayout (launchDma r) <> dstMemoryLayout (launchDma r) ->
        Width (blockSize (match srcMemoryLayout (launchDma r) with
                          | BlockLinear => srcSurface r
                          | Pitch => dstSurface r
                          end)) = 1 ->
        TranslateRange env (fst (fst ranges)) (snd (fst ranges)) = [] \/
        TranslateRange env (fst (snd ranges)) (snd (snd ranges)) = [] ->
        filter (fun e => negb (is_translate e)) (trace_of (LaunchDma regLayout env) regs)
        = [Submit; Log SplitTexturesUnimplemented]
          ++ filter (fun e => negb (is_translate e))
               (trace_of (ReleaseSemaphore regLayout env) regs).
    Proof.
      intros regs r ranges Hremap Hmulti Hne Hw Hnone.
      rewrite trace_LaunchDma, filter_app. fold r. rewrite Hremap. f_equal.
      unfold DmaCopy. dma. fold r. rewrite Hmulti. dma.
      cbn [filter is_translate negb]. f_equal. subst ranges.
      destruct (srcMemoryLayout (launchDma r)) eqn:Es,
               (dstMemoryLayout (launchDma r)) eqn:Ed; try congruence;
        cbn [MemoryLayout_eqb].
      - unfold CopyBlockLinearToPitch. dma. fold r. rewrite Hw.
        change (negb (1 =? 1)) with false. cbv iota. dma.
        unfold blockLinearToPitch_ranges in Hnone. cbn [fst snd] in Hnone.
        cbn [width height depth filter is_translate negb].
        destruct Hnone as [-> | ->].
        + reflexivity.
        + destruct (TranslateRange env _ _) as [|s1 [|s2 sl]]; reflexivity.
      - unfold CopyPitchToBlockLinear. dma. fold r. rewrite Hw.
        change (negb (1 =? 1)) with false. cbv iota. dma.
        unfold pitchToBlockLinear_ranges in Hnone. cbn [fst snd] in Hnone.
        cbn [width height depth filter is_translate negb].
        destruct Hnone as [-> | ->].
        + reflexivity.
        + destruct (TranslateRange env _ _) as [|s1 [|s2 sl]]; reflexivity.
    Qed.

End Engine.
End DmaExtras.

(** ** The scenarios *)

Module ScenarioFacts.
Import util layout aux scenarios UtilFacts MoveFacts LoopFacts ByteFacts CoalesceFacts
         OffsetFacts CopyFacts.

Lemma last_to_Some_In a l f : last_to a l = Some f -> In (a, f) l.
  Proof.
    induction l as [|[t g] l IH]; cbn [last_to]; [discriminate|].
    destruct (last_to a l) as [x|].
    - intros E. right. apply IH. exact E.
    - destruct (t =? a) eqn:Et; [|discriminate].
      apply Z.eqb_eq in Et. intros E. injection E as <-. left. now subst.
  Qed.

Lemma last_to_outside a l (inside : Z -> bool) :
    forallb (fun p => inside (fst p)) l = true -> inside a = false -> last_to a l = None.
  Proof.
    intros Hall Ha. destruct (last_to a l) as [f|] eqn:E; [|reflexivity].
    apply last_to_Some_In in E. rewrite forallb_forall in Hall.
    specialize (Hall _ E). cbn in Hall. congruence.
  Qed.

  (** The coalesced copy of scenario S1: 16 elements of 16 bytes a line. *)
Lemma S1_result_moves :
    S1_result = Some (run_moves false S1_moves S1_start).
  Proof.
    unfold S1_result, layout.CopyPitchToBlockLinear, CopyBlockLinearInternal.
    change (4 =? 12) with false. cbv iota.
    replace (coalesce 5 _ _ 4) with (Some (16, 16)) by (vm_compute; reflexivity).
    reflexivity.
  Qed.

Lemma S1_swizzled_result : S1_swizzled = blockLinearMem (run_moves false S1_moves S1_start).
  Proof. unfold S1_swizzled. now rewrite S1_result_moves. Qed.

Lemma S1_texels_check :
    forallb (fun x => forallb (fun y =>
        texel_at S1_swizzled (y * 64 + x) (spec.offset 256 1 1 1 4 x y 0))
      (spec.zrange 8)) (spec.zrange 64) = true.
  Proof. vm_compute. reflexivity. Qed.

Lemma S1_inside_check :
    forallb (fun p => (fun a => (0 <=? a) && (a <? 2048)) (fst p)) S1_bytes = true.
  Proof. vm_compute. reflexivity. Qed.

Lemma S1_outside a : ~ 0 <= a < 2048 -> S1_swizzled a = x00.
  Proof.
    intros Ha. rewrite S1_swizzled_result.
    destruct (run_moves_to_blockLinear S1_moves S1_start) as [_ ->].
    unfold after_bytes. fold S1_bytes.
    rewrite (last_to_outside a S1_bytes _ S1_inside_check); [reflexivity|].
    destruct (0 <=? a) eqn:E1, (a <? 2048) eqn:E2; try reflexivity. lia.
  Qed.

  (** C5, as the code has it. For the 64x8x1 surface with [bpb = 4], blocks
      of one GOB, format block 1x1 and a pitch buffer of identity texels,
      [CopyPitchToBlockLinear] fills the four GOBs (2048 bytes) of the
      surface and nothing else, and the four bytes of every texel stand at
      the offset of the formula: texel (16,0) at 0x200, texel (0,1) at 0x10
      and texel (0,7) at 0xD0. *)
Theorem S1_identity_texels_swizzled :
    GetBlockLinearLayerSize S1_dims 1 1 4 1 1 = 2048 /\
    spec.offset 256 1 1 1 4 16 0 0 = 512 /\
    spec.offset 256 1 1 1 4 0 1 0 = 16 /\
    spec.offset 256 1 1 1 4 0 7 0 = 208 /\
    (exists r, S1_result = Some r /\ S1_swizzled = blockLinearMem r) /\
    (forall x y, 0 <= x < 64 -> 0 <= y < 8 ->
       texel_at S1_swizzled (y * 64 + x) (spec.offset 256 1 1 1 4 x y 0) = true) /\
    (forall a, ~ 0 <= a < 2048 -> S1_swizzled a = x00).
  Proof.
    split; [reflexivity|]. split; [reflexivity|]. split; [reflexivity|]. split; [reflexivity|].
    split; [|split].
    - exists (run_moves false S1_moves S1_start).
      split; [exact S1_result_moves | exact S1_swizzled_result].
    - intros x y Hx Hy.
      exact (forallb_zrange _ _ (forallb_zrange _ _ S1_texels_check x Hx) y Hy).
    - exact S1_outside.
  Qed.

  (** C5, as the specification words it, fails: the surface is four GOBs,
      and texel (16,0) and texel (0,7) are not where it says (texel (8,0)
      is at 0x100 and texel (4,3) at 0x70). *)
Lemma S1_as_worded_fails : ~ S1_as_worded.
  Proof.
    intros (Hsize & _). vm_compute in Hsize. discriminate.
  Qed.

Lemma S1_worded_offsets_hold_other_texels :
    texel_at S1_swizzled 16 256 = false /\ texel_at S1_swizzled 8 256 = true /\
    texel_at S1_swizzled 448 112 = false /\ texel_at S1_swizzled 196 112 = true.
  Proof. vm_compute. repeat split. Qed.

  (** *** Elements of 12 bytes *)

Lemma RT12_some : RT12_round_trip = Some RT12_result.
  Proof. reflexivity. Qed.

Lemma RT12_bytes :
    RT12_result 16 = x18 /\ counting_bytes 512 16 = x10 /\ counting_bytes 512 24 = x18.
  Proof. vm_compute. repeat split. Qed.

  (** C2 at elements of 12 bytes. Written to block-linear memory and read
      back, a 2x2x1 surface of 12-byte elements does not come back: the
      second element of line 0 lies across the sector boundary at byte 16,
      where line 1 starts, and byte 16 of the pitch buffer comes back as
      byte 24. *)
Theorem round_trip_fails_for_12_byte_elements :
    RT12_round_trip = Some RT12_result /\
    RT12_result 16 = counting_bytes 512 24 /\
    RT12_result 16 <> counting_bytes 512 16 /\
    ~ RT12_law.
  Proof.
    destruct RT12_bytes as (H16 & HB16 & HB24).
    split; [exact RT12_some|]. split; [now rewrite H16, HB24|].
    split; [rewrite H16, HB16; discriminate|].
    intros (B' & HB' & Hlaw). rewrite RT12_some in HB'. injection HB' as <-.
    specialize (Hlaw 16 ltac:(lia)). rewrite H16, HB16 in Hlaw. discriminate.
  Qed.




Lemma SUB12_some : SUB12_round_trip = Some SUB12_result.
  Proof. reflexivity. Qed.

Lemma SUB12_bytes : SUB12_result 16 = x18.
  Proof. vm_compute. reflexivity. Qed.

  (** C7 at elements of 12 bytes. Written at the origin of a 4x4x1
      block-linear surface and read back, a 2x2x1 rectangle of 12-byte
      elements does not come back: byte 16 of the pitch buffer comes back
      as byte 24. *)
Theorem subrect_round_trip_fails_for_12_byte_elements :
    SUB12_round_trip = Some SUB12_result /\
    SUB12_result 16 = counting_bytes 512 24 /\
    SUB12_result 16 <> counting_bytes 512 16 /\
    ~ SUB12_law.
  Proof.
    destruct RT12_bytes as (_ & HB16 & HB24). pose proof SUB12_bytes as H16.
    split; [exact SUB12_some|]. split; [now rewrite H16, HB24|].
    split; [rewrite H16, HB16; discriminate|].
    intros (B' & HB' & Hlaw). rewrite SUB12_some in HB'. injection HB' as <-.
    specialize (Hlaw 16 ltac:(lia)). rewrite H16, HB16 in Hlaw. discriminate.
  Qed.

End ScenarioFacts.

(** ** The theorems at concrete inputs *)

Module Witnesses.
Import util layout aux scenarios.

  (** C4 at scenario S1, pitch to block-linear, the revision of layout.cpp. *)
Lemma coalescing_equivalence_witness :
    exists r,
      CopyBlockLinearInternal 5 false S1_dims 1 1 4 0 1 1 0 0 S1_start = Some r /\
      forall a,
        blockLinearMem r a
        = blockLinearMem (CopyBlockLinearReference false S1_dims 1 1 4 0 1 1 0 0 S1_start) a /\
        pitchMem r a
        = pitchMem (CopyBlockLinearReference false S1_dims 1 1 4 0 1 1 0 0 S1_start) a.
  Proof.
    refine (proj1 (CoalesceFacts.coalescing_equivalence 5 false S1_dims 1 1 4 0 1 1 0 0 S1_start
                     _ _ _ _)).
    - lia.
    - cbn. tauto.
    - cbn. lia.
    - lia.
  Defined.

  (** C8 at a four-word release at 0x1000 with payload 5 and GPU time 77. *)
Lemma four_word_release_writes_timestamp_first_witness :
    filter maxwell_dma.is_gmmu_write
      (maxwell_dma.trace_of (maxwell_dma.LaunchDma class_layout flat_memory)
         four_word_registers)
    = [maxwell_dma.GmmuWrite 4104 77; maxwell_dma.GmmuWrite 4096 5].
  Proof.
    refine (proj1 (DmaFacts.four_word_release_writes_timestamp_first
                     class_layout flat_memory four_word_registers _)).
    reflexivity.
  Defined.

  (** C9 at a launch with remapping enabled. *)
Lemma unsupported_launch_skips_copy_and_releases_witness :
    filter maxwell_dma.is_copy
      (maxwell_dma.trace_of (maxwell_dma.LaunchDma class_layout flat_memory) remap_registers)
    = [] /\
    maxwell_dma.registers_after (maxwell_dma.LaunchDma class_layout flat_memory)
      remap_registers = remap_registers.
  Proof.
    refine ((fun H => conj (proj1 H) (proj1 (proj2 (proj2 H))))
              (DmaFacts.unsupported_launch_skips_copy_and_releases
                 class_layout flat_memory remap_registers _)).
    left. reflexivity.
  Defined.

  (** C10 at a block-linear to pitch launch and the same launch with the
      source layer set to 3. *)
Lemma layer_fields_only_reach_the_log_witness :
    filter (fun e => negb (maxwell_dma.is_log e))
      (maxwell_dma.trace_of (maxwell_dma.LaunchDma class_layout flat_memory)
         blockLinearToPitch_layer3_registers)
    = filter (fun e => negb (maxwell_dma.is_log e))
        (maxwell_dma.trace_of (maxwell_dma.LaunchDma class_layout flat_memory)
           blockLinearToPitch_registers).
  Proof.
    refine (proj2 (proj2 (proj2 (proj2 (DmaFacts.layer_fields_only_reach_the_log
                     class_layout flat_memory blockLinearToPitch_registers))
                   blockLinearToPitch_layer3_registers 3 0 _))).
    reflexivity.
  Defined.

  (** The round trip of scenario S1 (64x8x1, four bytes an element). *)
Lemma round_trip_restores_S1 :
    exists B',
      round_trip 5 S1_dims 1 1 4 0 1 1 (pitchMem S1_start) zero_mem zero_mem = Some B' /\
      (forall x y z k, 0 <= x < 64 -> 0 <= y < 8 -> 0 <= z < 1 -> 0 <= k < 4 ->
         B' ((z * 8 + y) * 256 + x * 4 + k)
         = pitchMem S1_start ((z * 8 + y) * 256 + x * 4 + k)) /\
      (forall a, B' a = pitchMem S1_start a \/ B' a = zero_mem a).
  Proof.
    refine (RoundTripFacts.round_trip_restores_coalescable 5 64 8 1 1 1 4 0 1 1
              (pitchMem S1_start) zero_mem zero_mem _ _ _ _ _ _ _ _ _ _).
    all: try lia; try reflexivity.
    cbn. tauto.
  Defined.

  (** The sub-rectangle round trip of scenario S4: 16x16 bytes into a
      256x256 surface at origin (48, 32). *)
Lemma subrect_round_trip_restores_S4 :
    exists m1 B',
      layout.CopyPitchToBlockLinearSubrect 5 (mkDimensions 16 16 1) (mkDimensions 256 256 1)
        1 1 1 0 1 1 0 0 48 32 (mkBuffers zero_mem (counting_bytes 256)) = Some m1 /\
      round_trip_subrect 5 (mkDimensions 16 16 1) (mkDimensions 256 256 1)
        1 1 1 0 1 1 48 32 (counting_bytes 256) zero_mem zero_mem = Some B' /\
      (forall x y z k, 0 <= x < 16 -> 0 <= y < 16 -> 0 <= z < 1 -> 0 <= k < 1 ->
         B' ((z * 16 + y) * 16 + x * 1 + k)
         = counting_bytes 256 ((z * 16 + y) * 16 + x * 1 + k)) /\
      (forall a,
         (forall x y z k, 0 <= x < 16 -> 0 <= y < 16 -> 0 <= z < 1 -> 0 <= k < 1 ->
            a <> spec.offset 256 1 1 1 1 (48 + x) (32 + y) z + k) ->
         blockLinearMem m1 a = zero_mem a).
  Proof.
    refine (RoundTripFacts.subrect_round_trip_restores_coalescable 5 16 16 1 256 256 1 1 1 1 0
              1 1 48 32 (counting_bytes 256) zero_mem zero_mem
              _ _ _ _ _ _ _ _ _ _ _ _ _ _ _ _).
    all: try lia; try reflexivity.
    - cbn. tauto.
    - discriminate.
    - discriminate.
  Defined.

End Witnesses.

(** ** The further theorems at concrete inputs *)

Module ExtraWitnesses.
Import util layout aux scenarios.

  (** X1 at a block of four GOBs and a surface of two. *)
Lemma CalculateBlockGobs_pow2_between_witness :
    is_pow2 (CalculateBlockGobs 4 2) /\
    CalculateBlockGobs 4 2 <= 4 /\
    Z.min 4 2 <= CalculateBlockGobs 4 2 /\
    (1 <= 2 <= 4 -> CalculateBlockGobs 4 2 < 2 * 2).
  Proof. apply (SizeExtras.CalculateBlockGobs_pow2_between 4 2). reflexivity. Defined.

  (** X2 at the surface of scenario S2. *)
Lemma layer_size_whole_blocks_and_capacity_witness :
    GetBlockLinearLayerSize (mkDimensions 128 16 1) 1 1 4 2 1
      mod (GobWidth * GobHeight * 2 * 1) = 0 /\
    DivideCeil 128 1 * 4 * DivideCeil 16 1 * 1
      <= GetBlockLinearLayerSize (mkDimensions 128 16 1) 1 1 4 2 1.
  Proof.
    apply (SizeExtras.layer_size_whole_blocks_and_capacity 128 16 1 1 1 4 2 1);
      try lia; reflexivity.
  Defined.

  (** X3 from the surface of scenario S1 to that of scenario S2. *)
Lemma layer_size_monotone_witness :
    GetBlockLinearLayerSize (mkDimensions 64 8 1) 1 1 4 2 1
    <= GetBlockLinearLayerSize (mkDimensions 128 16 1) 1 1 4 2 1.
  Proof.
    apply (SizeExtras.layer_size_monotone 64 8 1 128 16 1 1 1 4 2 1); try lia; reflexivity.
  Defined.

  (** X4 at the surface of scenario S2. *)
Lemma layer_size_overloads_agree_witness :
    GetBlockLinearLayerSizeLevels (mkDimensions 128 16 1) 1 1 4 2 1 1 false
    = GetBlockLinearLayerSize (mkDimensions 128 16 1) 1 1 4 2 1.
  Proof.
    apply (SizeExtras.layer_size_overloads_agree 128 16 1 1 1 4 2 1); try lia; reflexivity.
  Defined.

  (** X5 at level 3 of the mip chain of scenario S3. *)
Lemma mip_level_dimensions_witness :
    exists lv,
      nth_error (GetBlockLinearMipLayout (mkDimensions 256 256 1) 1 1 4 0 0 0 4 1 5) 3
        = Some lv /\
      dimensions lv = mkDimensions (Z.max (256 / 2 ^ Z.of_nat 3) 1)
                                   (Z.max (256 / 2 ^ Z.of_nat 3) 1)
                                   (Z.max (1 / 2 ^ Z.of_nat 3) 1) /\
      linearSize lv
      = size_t (size_t (DivideCeil (width (dimensions lv)) 1) * 4
                * size_t (DivideCeil (height (dimensions lv)) 1) * depth (dimensions lv)) /\
      (0 = 0 -> targetLinearSize lv = linearSize lv).
  Proof.
    apply (SizeExtras.mip_level_dimensions 256 256 1 1 1 4 0 0 0 4 1 5 3); lia.
  Defined.

  (** X6 at levels 2 and 4 of the mip chain of scenario S3. *)
Lemma mip_block_sizes_shrink_witness :
    exists li lj,
      nth_error S3_mips 2 = Some li /\ nth_error S3_mips 4 = Some lj /\
      is_pow2 (blockHeight lj) /\ is_pow2 (blockDepth lj) /\
      blockHeight lj <= blockHeight li <= 4 /\
      blockDepth lj <= blockDepth li <= 1.
  Proof.
    eexists. eexists.
    split; [vm_compute; reflexivity|]. split; [vm_compute; reflexivity|].
    apply (SizeExtras.mip_block_sizes_shrink (mkDimensions 256 256 1) 1 1 4 0 0 0 4 1 5
             2%nat 4%nat); try (vm_compute; reflexivity). lia.
  Defined.

  (** X7 at level 3 of the mip chain of scenario S3. *)
Lemma mip_level_block_linear_size_witness :
    exists lv,
      nth_error (GetBlockLinearMipLayout (mkDimensions 256 256 1) 1 1 4 0 0 0 4 1 5) 3
        = Some lv /\
      blockLinearSize lv
      = size_t ((GobWidth * Z.max (DivideCeil (DivideCeil 256 1 * 4) GobWidth
                                   / 2 ^ Z.of_nat 3) 1)
                * (GobHeight
                   * size_t (AlignUp (Z.max (DivideCeil (DivideCeil 256 1) GobHeight
                                             / 2 ^ Z.of_nat 3) 1)
                               (blockHeight lv)))
                * size_t (AlignUp (depth (dimensions lv)) (blockDepth lv))).
  Proof.
    apply (SizeExtras.mip_level_block_linear_size 256 256 1 1 1 4 0 0 0 4 1 5 3); lia.
  Defined.

  (** X8 at scenario S1. *)
Lemma pitch_to_block_linear_scatters_witness :
    exists r,
      layout.CopyPitchToBlockLinear 5 (mkDimensions 64 8 1) 1 1 4 0 1 1 0 0
        (mkBuffers zero_mem (identity_texels 512)) = Some r /\
      (forall x y z k, 0 <= x < 64 -> 0 <= y < 8 -> 0 <= z < 1 -> 0 <= k < 4 ->
         blockLinearMem r (0 + spec.offset 256 1 1 1 4 x y z + k)
         = identity_texels 512 (0 + (z * 8 + y) * 256 + x * 4 + k)) /\
      (forall a,
         (forall x y z k, 0 <= x < 64 -> 0 <= y < 8 -> 0 <= z < 1 -> 0 <= k < 4 ->
            a <> 0 + spec.offset 256 1 1 1 4 x y z + k) ->
         blockLinearMem r a = zero_mem a) /\
      (forall a, pitchMem r a = identity_texels 512 a).
  Proof.
    refine (CopyExtras.pitch_to_block_linear_scatters 5 64 8 1 1 1 4 0 1 1 0 0
              zero_mem (identity_texels 512) _ _ _ _ _ _ _ _ _ _).
    all: try lia; try reflexivity.
    cbn. tauto.
  Defined.

  (** X9 at scenario S1, reading the surface back with a pitch of 512. *)
Lemma block_linear_to_pitch_gathers_witness :
    exists r,
      layout.CopyBlockLinearToPitch 5 (mkDimensions 64 8 1) 1 1 4 512 1 1 0 0
        (mkBuffers (counting_bytes 2048) zero_mem) = Some r /\
      (forall x y z k, 0 <= x < 64 -> 0 <= y < 8 -> 0 <= z < 1 -> 0 <= k < 4 ->
         pitchMem r (0 + (z * 8 + y) * 512 + x * 4 + k)
         = counting_bytes 2048 (0 + spec.offset 256 1 1 1 4 x y z + k)) /\
      (forall a,
         (forall x y z k, 0 <= x < 64 -> 0 <= y < 8 -> 0 <= z < 1 -> 0 <= k < 4 ->
            a <> 0 + (z * 8 + y) * 512 + x * 4 + k) ->
         pitchMem r a = zero_mem a) /\
      (forall a, blockLinearMem r a = counting_bytes 2048 a).
  Proof.
    refine (CopyExtras.block_linear_to_pitch_gathers 5 64 8 1 1 1 4 512 1 1 0 0
              (counting_bytes 2048) zero_mem _ _ _ _ _ _ _ _ _ _ _).
    all: try lia; try reflexivity.
    - cbn. tauto.
    - discriminate.
  Defined.

  (** X10 at scenario S1. *)
Lemma pitch_to_block_linear_stays_inside_layer_witness :
    exists r,
      layout.CopyPitchToBlockLinear 5 (mkDimensions 64 8 1) 1 1 4 0 1 1 0 0
        (mkBuffers zero_mem (identity_texels 512)) = Some r /\
      forall a,
        ~ (0 <= a < 0 + GetBlockLinearLayerSize (mkDimensions 64 8 1) 1 1 4 1 1) ->
        blockLinearMem r a = zero_mem a.
  Proof.
    refine (CopyExtras.pitch_to_block_linear_stays_inside_layer 5 64 8 1 1 1 4 0 1 1 0 0
              zero_mem (identity_texels 512) _ _ _ _ _ _ _ _ _ _ _ _).
    all: try lia; try reflexivity.
    cbn. tauto.
  Defined.

  (** X11 at a surface of 12-byte elements and no height. *)
Lemma empty_surface_copies_nothing_witness :
    exists r,
      CopyBlockLinearInternal 5 false (mkDimensions 2 0 1) 1 1 12 0 1 1 0 0
        (mkBuffers zero_mem (identity_texels 512)) = Some r /\
      forall a,
        blockLinearMem r a = blockLinearMem (mkBuffers zero_mem (identity_texels 512)) a /\
        pitchMem r a = pitchMem (mkBuffers zero_mem (identity_texels 512)) a.
  Proof.
    refine (CopyExtras.empty_surface_copies_nothing 5 false 2 0 1 1 1 12 0 1 1 0 0
              (mkBuffers zero_mem (identity_texels 512)) _ _ _ _ _ _).
    all: try lia.
    cbn. tauto.
  Defined.

  (** X12 at the guest texture of scenario S1. *)
Lemma guest_linear_round_trip_witness :
    exists m1 m2,
      CopyLinearToBlockLinear_guest 5 S1_guest 0 0 (mkBuffers zero_mem (identity_texels 512))
        = Some m1 /\
      CopyBlockLinearToLinear_guest 5 S1_guest 0 4096 (mkBuffers (blockLinearMem m1) zero_mem)
        = Some m2 /\
      forall t, 0 <= t < 64 * 4 * 8 * 1 ->
        pitchMem m2 (4096 + t) = identity_texels 512 (0 + t).
  Proof.
    refine (CopyExtras.guest_linear_round_trip 5 S1_guest 0 4096 0 (identity_texels 512)
              zero_mem zero_mem _ _ _ _ _ _ _ _ _ _).
    all: try (cbn; lia); try reflexivity.
  Defined.

  (** X14 at the guest texture of scenario S1: lines of 256 bytes, a pitch
      of 512. *)
Lemma linear_to_pitch_linear_spreads_rows_witness :
    (forall l k, 0 <= l < 8 -> 0 <= k < 256 ->
       guestMem (CopyLinearToPitchLinear S1_guest 0 0
                   (mkLinearBuffers zero_mem (identity_texels 512)))
         (0 + l * 512 + k)
       = identity_texels 512 (0 + l * 256 + k)) /\
    (forall a,
       (forall l k, 0 <= l < 8 -> 0 <= k < 256 -> a <> 0 + l * 512 + k) ->
       guestMem (CopyLinearToPitchLinear S1_guest 0 0
                   (mkLinearBuffers zero_mem (identity_texels 512))) a
       = zero_mem a) /\
    (forall a,
       linearMem (CopyLinearToPitchLinear S1_guest 0 0
                    (mkLinearBuffers zero_mem (identity_texels 512))) a
       = identity_texels 512 a).
  Proof.
    apply (LinearExtras.linear_to_pitch_linear_spreads_rows S1_guest 0 0
             (mkLinearBuffers zero_mem (identity_texels 512))).
    discriminate.
  Defined.

  (** X15 at the same guest texture. *)
Lemma pitch_linear_round_trips_witness :
    (forall a,
       guestMem (CopyLinearToPitchLinear S1_guest 4096 0
                   (CopyPitchLinearToLinear S1_guest 0 4096
                      (mkLinearBuffers (counting_bytes 4096) zero_mem))) a
       = counting_bytes 4096 a) /\
    (forall a,
       linearMem (CopyPitchLinearToLinear S1_guest 0 4096
                    (CopyLinearToPitchLinear S1_guest 4096 0
                       (mkLinearBuffers (counting_bytes 4096) zero_mem))) a
       = zero_mem a).
  Proof.
    apply (LinearExtras.pitch_linear_round_trips S1_guest 0 4096
             (mkLinearBuffers (counting_bytes 4096) zero_mem)).
    discriminate.
  Defined.

  (** The register views of [class_layout] read the words of the register
      file and nothing else. *)
Lemma class_layout_views_ext (r r' : maxwell_dma.RawRegisters) :
    (forall i, r i = r' i) ->
    maxwell_dma.registersOf class_layout r = maxwell_dma.registersOf class_layout r'.
  Proof.
    intros E. unfold class_layout, decode_surface. cbn [maxwell_dma.registersOf].
    rewrite !E. reflexivity.
  Qed.

  (** X17 at a batch of two launches, a four-word and a one-word release. *)
Lemma batch_launches_once_per_argument_witness :
    maxwell_dma.trace_of
      (maxwell_dma.CallMethodBatchNonInc class_layout flat_memory 192 [16; 8])
      four_word_registers
    = flat_map (fun argument =>
                  maxwell_dma.trace_of (maxwell_dma.LaunchDma class_layout flat_memory)
                    (maxwell_dma.written four_word_registers 192 argument))
               [16; 8].
  Proof.
    exact (DmaExtras.batch_launches_once_per_argument class_layout flat_memory [16; 8]
             four_word_registers class_layout_views_ext).
  Defined.

  (** X18 at a one-dimensional copy of 16 bytes. *)
Lemma one_dimensional_copy_witness :
    maxwell_dma.trace_of (maxwell_dma.LaunchDma class_layout flat_memory) four_word_registers
    = [maxwell_dma.Log (maxwell_dma.Copy1D 0 0 16); maxwell_dma.InterconnectCopy 0 0 16]
      ++ maxwell_dma.trace_of (maxwell_dma.ReleaseSemaphore class_layout flat_memory)
           four_word_registers.
  Proof.
    apply (DmaExtras.one_dimensional_copy class_layout flat_memory four_word_registers);
      reflexivity.
  Defined.

  (** X19 at scenario S5, where the copy is one of 10240 bytes, and at the
      same lines with a source pitch of 2048. *)
Lemma pitch_to_pitch_copies_witness :
    maxwell_dma.trace_of (maxwell_dma.LaunchDma class_layout flat_memory)
      pitchToPitch_registers
    = [maxwell_dma.Submit; maxwell_dma.InterconnectCopy 65536 8192 10240] /\
    maxwell_dma.trace_of (maxwell_dma.LaunchDma class_layout flat_memory)
      pitchToPitch_strided_registers
    = maxwell_dma.Submit
      :: map (fun i : nat =>
                maxwell_dma.InterconnectCopy (65536 + Z.of_nat i * 1024)
                  (8192 + Z.of_nat i * 2048) 1024)
             (seq 0 10).
  Proof.
    split.
    - refine (eq_trans (DmaExtras.pitch_to_pitch_copies class_layout flat_memory
                          pitchToPitch_registers _ _ _ _) _); reflexivity.
    - refine (eq_trans (DmaExtras.pitch_to_pitch_copies class_layout flat_memory
                          pitchToPitch_strided_registers _ _ _ _) _); reflexivity.
  Defined.

  (** X21 at a block-linear to pitch launch of a 64x8x1 surface. *)
Lemma block_linear_to_pitch_selects_copier_witness :
    filter (fun e => negb (maxwell_dma.is_log e))
      (maxwell_dma.trace_of (maxwell_dma.LaunchDma class_layout flat_memory)
         blockLinearToPitch_registers)
    = [maxwell_dma.Submit; maxwell_dma.Translate 8192 512; maxwell_dma.Translate 16384 512;
       maxwell_dma.TextureCopy
         (maxwell_dma.CallCopyBlockLinearToPitch (mkDimensions 64 8 1) 1 1 1 64 1 1
            8192 16384)].
  Proof.
    refine (eq_trans (DmaExtras.block_linear_to_pitch_selects_copier class_layout flat_memory
                        blockLinearToPitch_registers (8192, 512) (16384, 512)
                        _ _ _ _ _ _ _) _); reflexivity.
  Defined.

  (** X22 at the pitch to block-linear launch of scenario S4, which goes
      to the sub-rectangle copier. *)
Lemma pitch_to_block_linear_selects_copier_witness :
    filter (fun e => negb (maxwell_dma.is_log e))
      (maxwell_dma.trace_of (maxwell_dma.LaunchDma class_layout flat_memory)
         pitchToBlockLinear_registers)
    = [maxwell_dma.Submit; maxwell_dma.Translate 8192 256;
       maxwell_dma.Translate 65536 65536;
       maxwell_dma.TextureCopy
         (maxwell_dma.CallCopyPitchToBlockLinearSubrect (mkDimensions 16 16 1)
            (mkDimensions 256 256 1) 1 1 1 16 1 1 8192 65536 48 32)].
  Proof.
    refine (eq_trans (DmaExtras.pitch_to_block_linear_selects_copier class_layout flat_memory
                        pitchToBlockLinear_registers (8192, 256) (65536, 65536)
                        _ _ _ _ _ _ _) _); reflexivity.
  Defined.

  (** X23 at the launch of scenario S4 with nothing mapped. *)
Lemma unmapped_range_skips_copy_witness :
    filter (fun e => negb (maxwell_dma.is_translate e))
      (maxwell_dma.trace_of (maxwell_dma.LaunchDma class_layout unmapped_memory)
         pitchToBlockLinear_registers)
    = [maxwell_dma.Submit; maxwell_dma.Log maxwell_dma.SplitTexturesUnimplemented].
  Proof.
    refine (eq_trans (DmaExtras.unmapped_range_skips_copy class_layout unmapped_memory
                        pitchToBlockLinear_registers _ _ _ _ _) _);
      try reflexivity.
    - discriminate.
    - left. reflexivity.
  Defined.

  (** X26 at a rectangle of 16x8 texels of 4 bytes at texel (16, 8) of a
      256x256 surface: one GOB a line. *)
Lemma sector_copy_agrees_on_aligned_rectangles_witness :
    exists r,
      layout.CopyBlockLinearSubrectInternal 5 false (mkDimensions 16 8 1)
        (mkDimensions 256 256 1) 1 1 4 0 1 1 0 0 16 8
        (mkBuffers zero_mem (counting_bytes 256)) = Some r /\
      aux.same_buffers
        (layout.CopyBlockLinearSubrectInternal_v1 false (mkDimensions 16 8 1)
           (mkDimensions 256 256 1) 1 1 4 0 1 1 0 0 16 8
           (mkBuffers zero_mem (counting_bytes 256))) r.
  Proof.
    refine (SectorFacts.sector_copy_agrees_on_aligned_rectangles 5 false 16 8 1 256 256 1
              1 1 4 0 1 1 0 0 16 8 (mkBuffers zero_mem (counting_bytes 256))
              _ _ _ _ _ _ _ _ _ _ _ _ _ _ _ _ _ _ _).
    all: try lia; try reflexivity.
    - cbn. tauto.
    - discriminate.
    - discriminate.
  Defined.

End ExtraWitnesses.
